(** * react-native-slider: value, gesture and geometry core

    A shallow embedding of [src/index.tsx]: the value normaliser
    ([normalizeValue]), the value store ([updateValues]), the thumb picker
    ([_thumbHitTest], [indexOfLowest], [Rect]), the gesture-to-value mapper
    ([_getValue], [_setCurrentValue]) and the pan-responder handlers.

    JavaScript numbers are IEEE 754 binary64 values, modelled by Rocq's
    primitive floats, so [NaN], the infinities, signed zeros and rounding
    behave as they do in the engine.  [Animated.Value] objects are mutable
    cells: a cell is a handle into an explicit store, so that identity
    (the handle) and content (the stored number) are told apart. *)

From Stdlib Require Import ZArith Floats List Bool Lia.
From stdpp Require Import base option list.
Import ListNotations.

Set Warnings "-inexact-float".

Local Open Scope float_scope.

(* ================================================================== *)
(** ** ECMAScript numbers *)
(* ================================================================== *)

Module JS.

Definition number := float.

(** [ToBoolean] on a number: [+0], [-0] and [NaN] are falsy. *)
Definition truthy (x : number) : bool := negb (is_nan x || (x =? 0)).

(** [a > b] is [b < a]; both are false when an operand is [NaN]. *)
Definition gtb (a b : number) : bool := b <? a.

Definition is_neg_zero (x : number) : bool :=
  match classify x with NZero => true | _ => false end.

(** [Math.max] and [Math.min] of two arguments: [NaN] is contagious and
    [-0] is smaller than [+0]. *)
Definition Math_max (a b : number) : number :=
  if is_nan a || is_nan b then nan
  else if a <? b then b
  else if b <? a then a
  else if is_neg_zero a then b else a.

Definition Math_min (a b : number) : number :=
  if is_nan a || is_nan b then nan
  else if a <? b then a
  else if b <? a then b
  else if is_neg_zero a then a else b.

(** The integer nearest to [(-1)^s * m * 2^e], ties towards [+∞]. *)
Definition round_half_up (s : bool) (m : positive) (e : Z) : Z :=
  let sm := if s then Z.neg m else Z.pos m in
  match e with
  | Zneg k => ((2 * sm + 2 ^ Z.pos k) / 2 ^ (Z.pos k + 1))%Z
  | _ => (sm * 2 ^ e)%Z
  end.

(** [Math.round]: [NaN], the infinities, the zeros and the integers are
    returned unchanged; a result of zero keeps the sign of the argument. *)
Definition Math_round (x : number) : number :=
  match Prim2SF x with
  | S754_finite s m (Zneg k) =>
      SF2Prim (binary_normalize prec emax (round_half_up s m (Zneg k)) 0 s)
  | _ => x
  end.

(** [Array.prototype.sort(compareFn)] as a stable insertion sort: an
    element moves past those the comparator places strictly before it; a
    [NaN] from the comparator counts as [+0]. *)
Fixpoint sort_insert (compareFn : number -> number -> number)
    (x : number) (l : list number) : list number :=
  match l with
  | [] => [x]
  | y :: l' =>
      if 0 <? compareFn x y then y :: sort_insert compareFn x l'
      else x :: y :: l'
  end.

Definition Array_sort (compareFn : number -> number -> number)
    (l : list number) : list number :=
  foldr (sort_insert compareFn) [] l.

End JS.

Import JS.

(* ================================================================== *)
(** ** Geometry: [Rect] *)
(* ================================================================== *)

Record Rect := {
  rect_height : number;
  rect_width : number;
  rect_x : number;
  rect_y : number
}.

Definition containsPoint (r : Rect) (nativeX nativeY : number) : bool :=
  (rect_x r <=? nativeX) &&
  (rect_y r <=? nativeY) &&
  (nativeX <=? rect_x r + rect_width r) &&
  (nativeY <=? rect_y r + rect_height r).

Definition trackDistanceToPoint (r : Rect) (nativeX : number) : number :=
  if nativeX <? rect_x r then rect_x r - nativeX
  else if gtb nativeX (rect_x r + rect_width r)
       then nativeX - (rect_x r + rect_width r)
       else 0.

(* ================================================================== *)
(** ** Props and external values *)
(* ================================================================== *)

Record Dimensions := {
  width : number;
  height : number
}.

(** The [value] and [trackMarks] props: [number | Array<number>], or absent. *)
Inductive RawValue :=
| Absent
| Scalar (x : number)
| Sequence (l : list number).

Record SliderProps := {
  minimumValue : number;
  maximumValue : number;
  step : number;
  value : RawValue;
  trackMarks : RawValue;
  vertical : bool;
  dualSlider : bool;
  allowCrossover : bool;
  trackClickable : bool;
  disabled : bool;
  animateTransitions : bool;
  thumbTouchSize : option Dimensions
}.

(** [Slider.defaultProps]. *)
Definition defaultProps : SliderProps := {|
  minimumValue := 0;
  maximumValue := 1;
  step := 0;
  value := Scalar 0;
  trackMarks := Sequence [];
  vertical := false;
  dualSlider := false;
  allowCrossover := true;
  trackClickable := true;
  disabled := false;
  animateTransitions := false;
  thumbTouchSize := None
|}.

(* ================================================================== *)
(** ** Value normaliser: [normalizeValue] *)
(* ================================================================== *)

Definition getBetweenValue (props : SliderProps) (inputValue : number) : number :=
  Math_max (Math_min inputValue (maximumValue props)) (minimumValue props).

(** [!value || (Array.isArray(value) && value.length === 0)]. *)
Definition emptyInput (v : RawValue) : bool :=
  match v with
  | Absent => true
  | Scalar x => negb (truthy x)
  | Sequence l => Nat.eqb (length l) 0
  end.

Definition normalizeValue (props : SliderProps) (v : RawValue) : list number :=
  if emptyInput v then
    if dualSlider props then [minimumValue props; maximumValue props] else [0]
  else
    match v with
    | Absent => [0]
    | Scalar x => [getBetweenValue props x]
    | Sequence l =>
        let normalizedValues := map (getBetweenValue props) l in
        let sorted := Array_sort (fun a b => a - b) normalizedValues in
        if dualSlider props then
          match normalizedValues with
          | [singleValue] =>
              let range := (maximumValue props - minimumValue props) * 0.1 in
              [Math_max (singleValue - range) (minimumValue props);
               Math_min (singleValue + range) (maximumValue props)]
          | val1 :: val2 :: _ =>
              if negb (allowCrossover props) && gtb val1 val2
              then [val2; val1]
              else [val1; val2]
          | [] => sorted
          end
        else sorted
    end.

(* ================================================================== *)
(** ** Value store: [Animated.Value] cells and [updateValues] *)
(* ================================================================== *)

(** An [Animated.Value] is a handle; the store maps handles to their
    current number.  [new Animated.Value(v)] allocates the next handle. *)
Abbreviation cell := nat (only parsing).
Abbreviation store := (list number) (only parsing).

Definition __getValue (h : store) (c : cell) : number := default nan (h !! c).

Definition setValue (h : store) (c : cell) (v : number) : store := <[c := v]> h.

Definition new_Animated_Value (h : store) (v : number) : store * cell :=
  (h ++ [v], length h).

(** An element of the arrays [updateValues] receives: a plain number or an
    [Animated.Value]. *)
Inductive Item :=
| Num (x : number)
| Cell (c : cell).

(** [number | Array<number> | Animated.Value | Array<Animated.Value>]. *)
Inductive ValuesArg :=
| Single (i : Item)
| Many (l : list Item).

(** The callback of [values.map] in [updateValues]. *)
Definition updateCell (h : store) (value valueToSet : Item) : store * cell :=
  match value with
  | Cell c =>
      let v := match valueToSet with
               | Cell c' => __getValue h c'
               | Num x => x
               end in
      (setValue h c v, c)
  | Num _ =>
      match valueToSet with
      | Cell c' => (h, c')
      | Num x => new_Animated_Value h x
      end
  end.

(** [values.map((value, index) => ...)] with [newValues[index]]; the two
    arrays have the same length whenever this is reached, so the lookup
    never misses. *)
Fixpoint updateEach (h : store) (values newValues : list Item) (index : nat)
    : store * list cell :=
  match values with
  | [] => (h, [])
  | value :: rest =>
      let '(h1, c) := updateCell h value (default (Num nan) (newValues !! index)) in
      let '(h2, cs) := updateEach h1 rest newValues (S index) in
      (h2, c :: cs)
  end.

(** [updateValues({values, newValues = values})].  With two arrays of
    different lengths the function calls itself on [{values: newValues}],
    which takes the mapping branch with [newValues] on both sides. *)
Definition updateValues (h : store) (values : ValuesArg)
    (newValues : option ValuesArg) : store * list cell :=
  match values, default values newValues with
  | Many vs, Many ns =>
      if negb (Nat.eqb (length ns) (length vs))
      then updateEach h ns ns 0
      else updateEach h vs ns 0
  | _, _ =>
      let '(h', c) := new_Animated_Value h 0 in (h', [c])
  end.

(** Reconciliation as the component calls it: the cells of the state
    against a freshly normalised array of numbers. *)
Definition reconcile (h : store) (cells : list cell) (newValues : list number)
    : store * list cell :=
  updateValues h (Many (map Cell cells)) (Some (Many (map Num newValues))).

(* ================================================================== *)
(** ** The component *)
(* ================================================================== *)

Record SliderState := {
  allMeasured : bool;
  containerSize : Dimensions;
  thumbSize : Dimensions;
  trackMarksValues : list cell;
  values : list cell
}.

(** A [Slider] instance: props, state and the instance fields the
    handlers use.  [isRTL] stands for [I18nManager.isRTL]. *)
Record Slider := {
  props : SliderProps;
  state : SliderState;
  _activeThumbIndex : nat;
  _previousLeft : number;
  isRTL : bool
}.

Definition set_activeThumbIndex (s : Slider) (i : nat) : Slider :=
  {| props := props s; state := state s; _activeThumbIndex := i;
     _previousLeft := _previousLeft s; isRTL := isRTL s |}.

Definition set_previousLeft (s : Slider) (x : number) : Slider :=
  {| props := props s; state := state s;
     _activeThumbIndex := _activeThumbIndex s;
     _previousLeft := x; isRTL := isRTL s |}.

(** The constructor: unmeasured geometry and cells built from the props. *)
Definition constructor (p : SliderProps) (rtl : bool) : store * Slider :=
  let '(h1, marks) :=
    updateValues [] (Many (map Num (normalizeValue p (trackMarks p)))) None in
  let '(h2, vals) :=
    updateValues h1 (Many (map Num (normalizeValue p (value p)))) None in
  (h2,
   {| props := p;
      state := {| allMeasured := false;
                  containerSize := {| width := 0; height := 0 |};
                  thumbSize := {| width := 0; height := 0 |};
                  trackMarksValues := marks;
                  values := vals |};
      _activeThumbIndex := 0;
      _previousLeft := 0;
      isRTL := rtl |}).

Definition _getRawValues (h : store) (cells : list cell) : list number :=
  map (__getValue h) cells.

(** [this.state.values[thumbIndex].__getValue()]; [None] is the
    [TypeError] raised when there is no such cell. *)
Definition _getCurrentValue (s : Slider) (h : store) (thumbIndex : nat)
    : option number :=
  __getValue h <$> values (state s) !! thumbIndex.

Definition _getRatio (s : Slider) (v : number) : number :=
  (v - minimumValue (props s)) / (maximumValue (props s) - minimumValue (props s)).

Definition _getThumbLeft (s : Slider) (v : number) : number :=
  let standardRatio := _getRatio s v in
  let ratio := if isRTL s then 1 - standardRatio else standardRatio in
  ratio *
  ((if vertical (props s) then height (containerSize (state s))
    else width (containerSize (state s)))
   - width (thumbSize (state s))).

(** [a || b] on numbers. *)
Definition or_else (a b : number) : number := if truthy a then a else b.

(** Note the precedence: [thumbTouchSize?.width || 0 + thumbSize.width] is
    [(thumbTouchSize?.width) || (0 + thumbSize.width)]. *)
Definition _getTouchOverflowSize (s : Slider) : Dimensions :=
  if allMeasured (state s) then
    {| width :=
         Math_max 0
           (match thumbTouchSize (props s) with
            | Some t => or_else (width t) (0 + width (thumbSize (state s)))
            | None => 0 + width (thumbSize (state s))
            end);
       height :=
         Math_max 0
           (match thumbTouchSize (props s) with
            | Some t => or_else (height t) (0 - height (containerSize (state s)))
            | None => 0 - height (containerSize (state s))
            end) |}
  else {| width := 40; height := 40 |}.

(** The touch rectangle of a thumb whose current value is [v]. *)
Definition thumbTouchRectAt (s : Slider) (v : number) : Rect :=
  let t := default {| width := 40; height := 40 |} (thumbTouchSize (props s)) in
  let touchOverflowSize := _getTouchOverflowSize s in
  {| rect_height := height t;
     rect_width := width t;
     rect_x := width touchOverflowSize / 2 + _getThumbLeft s v
               + (width (thumbSize (state s)) - width t) / 2;
     rect_y := height touchOverflowSize / 2
               + (height (containerSize (state s)) - height t) / 2 |}.

Definition _getThumbTouchRect (s : Slider) (h : store) (thumbIndex : nat)
    : option Rect :=
  thumbTouchRectAt s <$> _getCurrentValue s h thumbIndex.

(* ================================================================== *)
(** ** Thumb picker: [indexOfLowest] and [_thumbHitTest] *)
(* ================================================================== *)

(** The body of [values.forEach] in [indexOfLowest], from [index] on. *)
Fixpoint lowestFrom (array rest : list number) (index lowestIndex : nat) : nat :=
  match rest with
  | [] => lowestIndex
  | v :: rest' =>
      lowestFrom array rest' (S index)
        (if v <? default nan (array !! lowestIndex) then index else lowestIndex)
  end.

Definition indexOfLowest (vs : list number) : nat := lowestFrom vs vs 0 0.

Record NativeEvent := {
  locationX : number;
  locationY : number
}.

(** [values.find((_, i) => ...)] over the indices from [i] on: the first
    index whose touch rectangle contains the point.  The outer [option] is
    the [TypeError] of [_getThumbTouchRect]. *)
Fixpoint findHitThumb (s : Slider) (h : store) (e : NativeEvent)
    (indices : list nat) : option (option nat) :=
  match indices with
  | [] => Some None
  | i :: rest =>
      thumbTouchRect ← _getThumbTouchRect s h i;
      if containsPoint thumbTouchRect (locationX e) (locationY e)
      then Some (Some i)
      else findHitThumb s h e rest
  end.

Definition thumbDistances (s : Slider) (h : store) (e : NativeEvent)
    : option (list number) :=
  mapM (fun index =>
          thumbTouchRect ← _getThumbTouchRect s h index;
          Some (trackDistanceToPoint thumbTouchRect (locationX e)))
       (seq 0 (length (values (state s)))).

(** [_thumbHitTest]: whether the touch is taken, and the instance with
    [_activeThumbIndex] set. *)
Definition _thumbHitTest (s : Slider) (h : store) (e : NativeEvent)
    : option (bool * Slider) :=
  hitThumb ← findHitThumb s h e (seq 0 (length (values (state s))));
  match hitThumb with
  | Some i => Some (true, set_activeThumbIndex s i)
  | None =>
      if trackClickable (props s) then
        if Nat.eqb (length (values (state s))) 1 then
          Some (true, set_activeThumbIndex s 0)
        else
          ds ← thumbDistances s h e;
          Some (true, set_activeThumbIndex s (indexOfLowest ds))
      else Some (false, s)
  end.

(* ================================================================== *)
(** ** Gesture-to-value mapper: [_getValue] and [_setCurrentValue] *)
(* ================================================================== *)

Record GestureState := {
  dx : number;
  dy : number
}.

(** The local constants of [_getValue]. *)
Definition trackLength (s : Slider) : number :=
  width (containerSize (state s)) - width (thumbSize (state s)).

Definition thumbLeft (s : Slider) (g : GestureState) : number :=
  if vertical (props s) then _previousLeft s + dy g * -1
  else _previousLeft s + dx g.

Definition nonRtlRatio (s : Slider) (g : GestureState) : number :=
  thumbLeft s g / trackLength s.

Definition dragRatio (s : Slider) (g : GestureState) : number :=
  if isRTL s then 1 - nonRtlRatio s g else nonRtlRatio s g.

Definition buffer (s : Slider) : number :=
  if truthy (step (props s)) then step (props s) else 0.1.

(** [rawValues[i]]; a missing element is [undefined], which every
    arithmetic operation turns into [NaN]. *)
Definition rawValue (s : Slider) (h : store) (i : nat) : number :=
  default nan (_getRawValues h (values (state s)) !! i).

Definition restricted (s : Slider) : bool :=
  Nat.eqb (length (values (state s))) 2 && negb (allowCrossover (props s)).

Definition minValue (s : Slider) (h : store) : number :=
  if restricted s && Nat.eqb (_activeThumbIndex s) 1
  then rawValue s h 0 + buffer s
  else minimumValue (props s).

Definition maxValue (s : Slider) (h : store) : number :=
  if restricted s && negb (Nat.eqb (_activeThumbIndex s) 1)
  then rawValue s h 1 - buffer s
  else maximumValue (props s).

(** The value the drag points at, before the final clamp. *)
Definition targetValue (s : Slider) (g : GestureState) : number :=
  let p := props s in
  let ratio := dragRatio s g in
  if truthy (step p) then
    minimumValue p
    + Math_round (ratio * (maximumValue p - minimumValue p) / step p) * step p
  else
    ratio * (maximumValue p - minimumValue p) + minimumValue p.

Definition _getValue (s : Slider) (h : store) (g : GestureState) : number :=
  Math_max (minValue s h) (Math_min (maxValue s h) (targetValue s g)).

(** [_setCurrentValue(value, thumbIndex, callback)].  [inl h'] is the
    store after [animatedValue.setValue(value)], the callback having run;
    [inr (i, v)] is the request [this.setState(...)] made when there is no
    cell at [thumbIndex]: React applies it and runs the callback later. *)
Definition crossoverClamp (s : Slider) (h : store) (v : number) (safeIndex : nat)
    : number :=
  if dualSlider (props s) && Nat.leb 2 (length (values (state s))) then
    let otherIndex := if Nat.eqb safeIndex 0 then 1%nat else 0%nat in
    let otherValue :=
      or_else (default nan (__getValue h <$> values (state s) !! otherIndex)) 0 in
    if negb (allowCrossover (props s)) then
      if Nat.eqb safeIndex 0 && gtb v otherValue then otherValue
      else if Nat.eqb safeIndex 1 && (v <? otherValue) then otherValue
      else v
    else v
  else v.

Definition _setCurrentValue (s : Slider) (h : store) (v : number)
    (thumbIndex : nat) : store + nat * number :=
  let v' := crossoverClamp s h v thumbIndex in
  match values (state s) !! thumbIndex with
  | Some animatedValue => inl (setValue h animatedValue v')
  | None => inr (thumbIndex, v')
  end.

(* ================================================================== *)
(** ** Pan-responder handlers *)
(* ================================================================== *)

(** The calls made on the owner's callbacks, each with the raw values and
    the active thumb index. *)
Inductive Notification :=
| onSlidingStart (vs : list number) (index : nat)
| onValueChange (vs : list number) (index : nat)
| onSlidingComplete (vs : list number) (index : nat).

(** What a handler leaves behind: the instance, the store, the
    notifications in the order they were made, and the [setState] request
    (index and value) whose callback React will run later, if any. *)
Record Outcome := {
  instance : Slider;
  cells : store;
  emitted : list Notification;
  requested : option (nat * number)
}.

Definition unchanged (s : Slider) (h : store) : Outcome :=
  {| instance := s; cells := h; emitted := []; requested := None |}.

Definition _handlePanResponderGrant (s : Slider) (h : store) (e : NativeEvent)
    : option Outcome :=
  left ←
    (if trackClickable (props s)
     then Some (locationX e - width (thumbSize (state s)))
     else _getThumbLeft s <$> _getCurrentValue s h (_activeThumbIndex s));
  let left' :=
    match thumbTouchSize (props s) with
    | Some t => left - (width t - width (thumbSize (state s))) / 2
    | None => left
    end in
  Some {| instance := set_previousLeft s left';
          cells := h;
          emitted := [onSlidingStart (_getRawValues h (values (state s)))
                                     (_activeThumbIndex s)];
          requested := None |}.

Definition _handlePanResponderMove (s : Slider) (h : store) (g : GestureState)
    : Outcome :=
  if disabled (props s) then unchanged s h
  else
    match _setCurrentValue s h (_getValue s h g) (_activeThumbIndex s) with
    | inl h' =>
        {| instance := s; cells := h';
           emitted := [onValueChange (_getRawValues h' (values (state s)))
                                     (_activeThumbIndex s)];
           requested := None |}
    | inr r =>
        {| instance := s; cells := h; emitted := []; requested := Some r |}
    end.

Definition _handlePanResponderEnd (s : Slider) (h : store) (g : GestureState)
    : Outcome :=
  if disabled (props s) then unchanged s h
  else
    match _setCurrentValue s h (_getValue s h g) (_activeThumbIndex s) with
    | inl h' =>
        {| instance := set_activeThumbIndex s 0; cells := h';
           emitted :=
             (if trackClickable (props s)
              then [onValueChange (_getRawValues h' (values (state s)))
                                  (_activeThumbIndex s)]
              else [])
             ++ [onSlidingComplete (_getRawValues h' (values (state s)))
                                   (_activeThumbIndex s)];
           requested := None |}
    | inr r =>
        {| instance := set_activeThumbIndex s 0; cells := h;
           emitted := []; requested := Some r |}
    end.

(* ================================================================== *)
(** ** Layout measurement: [_handleMeasure] *)
(* ================================================================== *)

(** The instance fields [_containerSize], [_trackSize] and [_thumbSize]:
    the last layout reported for each element, if any. *)
Record Measurements := {
  _containerSize : option Dimensions;
  _trackSize : option Dimensions;
  _thumbSize : option Dimensions
}.

Inductive MeasureName :=
| containerSizeField
| trackSizeField
| thumbSizeField.

Definition noMeasurements : Measurements :=
  {| _containerSize := None; _trackSize := None; _thumbSize := None |}.

(** [this[name]] and [this[name] = size]. *)
Definition getMeasure (m : Measurements) (name : MeasureName) : option Dimensions :=
  match name with
  | containerSizeField => _containerSize m
  | trackSizeField => _trackSize m
  | thumbSizeField => _thumbSize m
  end.

Definition setMeasure (m : Measurements) (name : MeasureName) (size : Dimensions)
    : Measurements :=
  match name with
  | containerSizeField =>
      {| _containerSize := Some size; _trackSize := _trackSize m;
         _thumbSize := _thumbSize m |}
  | trackSizeField =>
      {| _containerSize := _containerSize m; _trackSize := Some size;
         _thumbSize := _thumbSize m |}
  | thumbSizeField =>
      {| _containerSize := _containerSize m; _trackSize := _trackSize m;
         _thumbSize := Some size |}
  end.

(** [this.setState({containerSize, thumbSize, allMeasured: true})]. *)
Definition setMeasuredState (s : Slider) (container thumb : Dimensions) : Slider :=
  {| props := props s;
     state := {| allMeasured := true;
                 containerSize := container;
                 thumbSize := thumb;
                 trackMarksValues := trackMarksValues (state s);
                 values := values (state s) |};
     _activeThumbIndex := _activeThumbIndex s;
     _previousLeft := _previousLeft s;
     isRTL := isRTL s |}.

(** [_handleMeasure(name, e)] with [e.nativeEvent.layout = size]; [===]
    on numbers is [=?]. *)
Definition _handleMeasure (m : Measurements) (s : Slider) (name : MeasureName)
    (size : Dimensions) : Measurements * Slider :=
  let unchangedSize :=
    match getMeasure m name with
    | Some currentSize =>
        (width size =? width currentSize) && (height size =? height currentSize)
    | None => false
    end in
  if unchangedSize then (m, s)
  else
    let m' := setMeasure m name size in
    match _containerSize m', _thumbSize m' with
    | Some c, Some t => (m', setMeasuredState s c t)
    | _, _ => (m', s)
    end.

Definition _measureContainer m s size := _handleMeasure m s containerSizeField size.
Definition _measureTrack m s size := _handleMeasure m s trackSizeField size.
Definition _measureThumb m s size := _handleMeasure m s thumbSizeField size.

(** A run of layout events, delivered in order. *)
Definition deliverLayouts (m : Measurements) (s : Slider)
    (events : list (MeasureName * Dimensions)) : Measurements * Slider :=
  fold_left (fun ms e => _handleMeasure (fst ms) (snd ms) (fst e) (snd e))
            events (m, s).

(* ================================================================== *)
(** ** Prop updates: [getDerivedStateFromProps] and [componentDidUpdate] *)
(* ================================================================== *)

(** [ToBoolean] on a [value] or [trackMarks] prop: an array is truthy, even
    when empty. *)
Definition truthyRaw (v : RawValue) : bool :=
  match v with
  | Absent => false
  | Scalar x => truthy x
  | Sequence _ => true
  end.

(** [getDerivedStateFromProps(props, state)]: the store after the call and
    the [trackMarksValues] of the returned patch; [None] when the function
    returns nothing. *)
Definition getDerivedStateFromProps (p : SliderProps) (st : SliderState) (h : store)
    : store * option (list cell) :=
  if truthyRaw (trackMarks p) && Nat.ltb 0 (length (trackMarksValues st)) then
    let newTrackMarkValues := normalizeValue p (trackMarks p) in
    let '(h', marks) := reconcile h (trackMarksValues st) newTrackMarkValues in
    (h', Some marks)
  else (h, None).

(** React merging the patch [{trackMarksValues}] into the state. *)
Definition patchTrackMarks (st : SliderState) (marks : list cell) : SliderState :=
  {| allMeasured := allMeasured st;
     containerSize := containerSize st;
     thumbSize := thumbSize st;
     trackMarksValues := marks;
     values := values st |}.

Definition setStateValues (s : Slider) (vals marks : list cell) : Slider :=
  {| props := props s;
     state := {| allMeasured := allMeasured (state s);
                 containerSize := containerSize (state s);
                 thumbSize := thumbSize (state s);
                 trackMarksValues := marks;
                 values := vals |};
     _activeThumbIndex := _activeThumbIndex s;
     _previousLeft := _previousLeft s;
     isRTL := isRTL s |}.

(** The callback [componentDidUpdate] hands to [setState], from index [i]
    on: for each new value either [_setCurrentValueAnimated], recorded as
    the pair of thumb index and target handed to the animation service, or
    [_setCurrentValue].  The result is the store, the animations started
    and the [setState] requests made; [None] is the [TypeError] of reading
    a cell that does not exist. *)
Fixpoint applyNewValues (s : Slider) (h : store) (newValues : list number) (i : nat)
    : option (store * list (nat * number) * list (nat * number)) :=
  match newValues with
  | [] => Some (h, [], [])
  | v :: rest =>
      currentValue ← _getCurrentValue s h i;
      if negb (v =? currentValue) && animateTransitions (props s) then
        '(h', a, d) ← applyNewValues s h rest (S i);
        Some (h', (i, v) :: a, d)
      else
        match _setCurrentValue s h v i with
        | inl h1 => applyNewValues s h1 rest (S i)
        | inr r =>
            '(h', a, d) ← applyNewValues s h rest (S i);
            Some (h', a, r :: d)
        end
  end.

Record UpdateOutcome := {
  updated : Slider;
  stored : store;
  animations : list (nat * number);
  stateRequests : list (nat * number)
}.

(** [componentDidUpdate(prevProps)] on an instance that already carries
    the new props.  [valueChanged] and [trackMarksChanged] are the results
    of [this.props.value !== prevProps.value] and
    [this.props.trackMarks !== prevProps.trackMarks], which compare arrays
    by reference.  Both reconciliations run at once; React then commits the
    state and runs the callback. *)
Definition componentDidUpdate (s : Slider) (h : store)
    (valueChanged trackMarksChanged : bool) : option UpdateOutcome :=
  let newValues := normalizeValue (props s) (value (props s)) in
  let '(h1, vals) :=
    if valueChanged then reconcile h (values (state s)) newValues
    else (h, values (state s)) in
  let '(h2, marks) :=
    if trackMarksChanged
    then reconcile h1 (trackMarksValues (state s))
                   (normalizeValue (props s) (trackMarks (props s)))
    else (h1, trackMarksValues (state s)) in
  let s' := setStateValues s vals marks in
  if valueChanged then
    '(h3, a, d) ← applyNewValues s' h2 newValues 0;
    Some {| updated := s'; stored := h3; animations := a; stateRequests := d |}
  else
    Some {| updated := s'; stored := h2; animations := []; stateRequests := [] |}.

(* ================================================================== *)
(** ** Vocabulary of the statements *)
(* ================================================================== *)

(** The comparison of two numbers; [None] when one of them is [NaN]. *)
Definition cmp (a b : number) : option comparison :=
  SFcompare (Prim2SF a) (Prim2SF b).

(** [Lt] or [Eq]: the left number is not the larger one. *)
Definition weak (c : comparison) : bool :=
  match c with Gt => false | _ => true end.

(** The outcome of chaining two comparisons, neither of them [Gt]. *)
Definition comp_join (c1 c2 : comparison) : comparison :=
  match c1, c2 with
  | Eq, c => c
  | c, Eq => c
  | Lt, Lt => Lt
  | _, _ => Gt
  end.

(** A number that is not negative: a zero, [+∞] or a positive finite
    number. *)
Definition nonneg (r : spec_float) : bool :=
  match r with
  | S754_zero _ => true
  | S754_infinity s | S754_finite s _ _ => negb s
  | S754_nan => false
  end.

(** A zero or a finite number. *)
Definition finite_or_zero (x : spec_float) : bool :=
  match x with
  | S754_zero _ | S754_finite _ _ _ => true
  | _ => false
  end.

(** No element of an array input is [NaN]. *)
Definition noNaN (v : RawValue) : bool :=
  match v with
  | Sequence l => forallb (fun x => negb (is_nan x)) l
  | _ => true
  end.

(** A one-element array in dual mode: the input from which the 10% window
    is built. *)
Definition oneElementDual (p : SliderProps) (v : RawValue) : bool :=
  dualSlider p && match v with Sequence [_] => true | _ => false end.

(** [minimumValue <= x <= maximumValue]. *)
Definition inRange (p : SliderProps) (x : number) : bool :=
  (minimumValue p <=? x) && (x <=? maximumValue p).

(** Writing the numbers [xs] into the cells [cs], pairwise and in order. *)
Fixpoint writeCells (h : store) (cs : list cell) (xs : list number) : store :=
  match cs, xs with
  | c :: cs', x :: xs' => writeCells (setValue h c x) cs' xs'
  | _, _ => h
  end.

(** The 10%-of-range window as the specification words it, around the
    element as given: [max(v - 0.1*range, min), min(v + 0.1*range, max)]. *)
Definition specWindow (p : SliderProps) (v : number) : list number :=
  let range := maximumValue p - minimumValue p in
  [Math_max (v - 0.1 * range) (minimumValue p);
   Math_min (v + 0.1 * range) (maximumValue p)].

(** The distance from the touch rectangle of thumb [i] to the touch point
    along the track, as [_thumbHitTest] computes it for each thumb. *)
Definition distanceTo (s : Slider) (h : store) (e : NativeEvent) (i : nat)
    : option number :=
  thumbTouchRect ← _getThumbTouchRect s h i;
  Some (trackDistanceToPoint thumbTouchRect (locationX e)).

(** An array in ascending order: each element is at most every later
    one. *)
Fixpoint ascending (l : list number) : Prop :=
  match l with
  | [] => True
  | x :: l' => Forall (fun y => (x <=? y) = true) l' /\ ascending l'
  end.

(** Whether the touch rectangle of thumb [i] contains the touch point. *)
Definition hits (s : Slider) (h : store) (e : NativeEvent) (i : nat) : bool :=
  match _getThumbTouchRect s h i with
  | Some r => containsPoint r (locationX e) (locationY e)
  | None => false
  end.

(** An item that refers to the store refers to a cell of it. *)
Definition validItem (h : store) (it : Item) : Prop :=
  match it with
  | Cell c => (c < length h)%nat
  | Num _ => True
  end.

(* ================================================================== *)
(** ** Instances used in the examples *)
(* ================================================================== *)

(** The state [_handleMeasure] sets once both the container and the thumb
    have reported their layout. *)
Definition measured (s : Slider) (container thumb : Dimensions) : Slider :=
  {| props := props s;
     state := {| allMeasured := true;
                 containerSize := container;
                 thumbSize := thumb;
                 trackMarksValues := trackMarksValues (state s);
                 values := values (state s) |};
     _activeThumbIndex := _activeThumbIndex s;
     _previousLeft := _previousLeft s;
     isRTL := isRTL s |}.

(** [p] with other bounds, step, value and mode. *)
Definition withProps (p : SliderProps) (lo hi st : number) (v : RawValue)
    (dual crossover : bool) : SliderProps :=
  {| minimumValue := lo; maximumValue := hi; step := st;
     value := v; trackMarks := trackMarks p;
     vertical := vertical p; dualSlider := dual; allowCrossover := crossover;
     trackClickable := trackClickable p; disabled := disabled p;
     animateTransitions := animateTransitions p;
     thumbTouchSize := thumbTouchSize p |}.

(** A 120-wide track with a 20-wide thumb: 100 usable pixels. *)
Definition track120 : Dimensions := {| width := 120; height := 40 |}.
Definition thumb20 : Dimensions := {| width := 20; height := 20 |}.

(** [step=5, minimumValue=0, maximumValue=100], one thumb. *)
Definition stepped : store * Slider :=
  let '(h, s) := constructor (withProps defaultProps 0 100 5 (Scalar 0) false true) false in
  (h, measured s track120 thumb20).

(** A drag of 23 pixels to the right. *)
Definition drag23 : GestureState := {| dx := 23; dy := 0 |}.

(** [dualSlider] over [0..100] and over [0..10], crossover allowed. *)
Definition dual100 : SliderProps :=
  withProps defaultProps 0 100 0 Absent true true.

Definition dual10 : SliderProps :=
  withProps defaultProps 0 10 0 Absent true true.

(** A single slider over [5..10]: zero lies outside the range. *)
Definition single5to10 : SliderProps :=
  withProps defaultProps 5 10 0 Absent false true.

(** Two thumbs at 40 and 60 over [0..100], [step=0], crossover
    disallowed; [range1] has thumb 1 active, [range0] thumb 0. *)
Definition range0 : store * Slider :=
  let '(h, s) :=
    constructor (withProps defaultProps 0 100 0 (Sequence [40; 60]) true false)
                false in
  (h, measured s track120 thumb20).

Definition range1 : store * Slider :=
  (fst range0, set_activeThumbIndex (snd range0) 1).

(** Drags whose targets are 20 and 80. *)
Definition drag20 : GestureState := {| dx := 20; dy := 0 |}.
Definition drag80 : GestureState := {| dx := 80; dy := 0 |}.

(** A freshly constructed slider with the default props: nothing has been
    measured yet, so the usable track length is [0 - 0]. *)
Definition unmeasured : store * Slider := constructor defaultProps false.

(** A touch at the origin and a gesture that has not moved. *)
Definition origin : NativeEvent := {| locationX := 0; locationY := 0 |}.
Definition still : GestureState := {| dx := 0; dy := 0 |}.

(** [p] with other [trackClickable] and [disabled] flags. *)
Definition withFlags (p : SliderProps) (clickable isDisabled : bool) : SliderProps :=
  {| minimumValue := minimumValue p; maximumValue := maximumValue p;
     step := step p; value := value p; trackMarks := trackMarks p;
     vertical := vertical p; dualSlider := dualSlider p;
     allowCrossover := allowCrossover p;
     trackClickable := clickable; disabled := isDisabled;
     animateTransitions := animateTransitions p;
     thumbTouchSize := thumbTouchSize p |}.

(** A disabled slider over [0..100], measured, its thumb at 0. *)
Definition disabledSlider : store * Slider :=
  let '(h, s) :=
    constructor (withFlags (withProps defaultProps 0 100 0 (Scalar 0) false true)
                           true true) false in
  (h, measured s track120 thumb20).

(** An enabled slider over [0..100] whose track is not clickable. *)
Definition unclickable : store * Slider :=
  let '(h, s) :=
    constructor (withFlags (withProps defaultProps 0 100 0 (Scalar 0) false true)
                           false false) false in
  (h, measured s track120 thumb20).

(** An enabled slider over [0..100] with the default clickable track. *)
Definition clickable : store * Slider :=
  let '(h, s) :=
    constructor (withProps defaultProps 0 100 0 (Scalar 0) false true) false in
  (h, measured s track120 thumb20).

(** A touch on the thumb, at pixel 30 of the touch area. *)
Definition touch30 : NativeEvent := {| locationX := 30; locationY := 20 |}.

(** A store of three cells; the value cells are the handles 1 and 2. *)
Definition store3 : store := [0; 40; 60].
Definition cells12 : list cell := [1%nat; 2%nat].

(** Two thumbs at 10 and 90 over [0..100]: their touch rectangles span
    the pixels [10..50] and [90..130]. *)
Definition apart : store * Slider :=
  let '(h, s) :=
    constructor (withProps defaultProps 0 100 0 (Sequence [10; 90]) true true)
                false in
  (h, measured s track120 thumb20).

(** Two thumbs both at 100 over [0..100], crossover disallowed, thumb 1
    active: the buffer leaves thumb 1 no room below [maximumValue]. *)
Definition pinned : store * Slider :=
  let '(h, s) :=
    constructor (withProps defaultProps 0 100 0 (Sequence [100; 100]) true false)
                false in
  (h, set_activeThumbIndex (measured s track120 thumb20) 1).

(** The clickable slider after its owner passes [value=50] and
    [animateTransitions]. *)
Definition withValue (s : Slider) (v : RawValue) (animate : bool) : Slider :=
  {| props :=
       {| minimumValue := minimumValue (props s);
          maximumValue := maximumValue (props s);
          step := step (props s); value := v;
          trackMarks := trackMarks (props s);
          vertical := vertical (props s); dualSlider := dualSlider (props s);
          allowCrossover := allowCrossover (props s);
          trackClickable := trackClickable (props s);
          disabled := disabled (props s);
          animateTransitions := animate;
          thumbTouchSize := thumbTouchSize (props s) |};
     state := state s;
     _activeThumbIndex := _activeThumbIndex s;
     _previousLeft := _previousLeft s;
     isRTL := isRTL s |}.

Definition revalued : store * Slider :=
  (fst clickable, withValue (snd clickable) (Scalar 50) true).

(** A touch at pixel [x] of the touch area, at mid-height. *)
Definition touchAt (x : number) : NativeEvent :=
  {| locationX := x; locationY := 20 |}.

(* ================================================================== *)
(** * Properties *)
(* ================================================================== *)

(** ** Facts about binary64 comparison *)

Lemma Pos_compare_cont_Eq (m1 m2 : positive) :
  Pos.compare_cont Eq m1 m2 = Pos.compare m1 m2.
Proof. reflexivity. Qed.

Lemma SFcompare_antisym (x y : spec_float) :
  SFcompare y x = CompOpp <$> SFcompare x y.
Proof.
  destruct x as [[]|[]| |[] m1 e1], y as [[]|[]| |[] m2 e2]; simpl; try reflexivity;
    rewrite !Pos_compare_cont_Eq, (Z.compare_antisym e1 e2), (Pos.compare_antisym m1 m2);
    destruct (e1 ?= e2)%Z; simpl; try reflexivity;
    destruct (m1 ?= m2)%positive; reflexivity.
Qed.

Lemma SFcompare_refl (x : spec_float) :
  x <> S754_nan -> SFcompare x x = Some Eq.
Proof.
  destruct x as [[]|[]| |[] m e]; simpl; try congruence; intros _;
    rewrite Pos_compare_cont_Eq, Z.compare_refl, Pos.compare_refl; reflexivity.
Qed.

Lemma SFcompare_nan (x y : spec_float) :
  SFcompare x y = None <-> x = S754_nan \/ y = S754_nan.
Proof.
  destruct x as [[]|[]| |[] m1 e1], y as [[]|[]| |[] m2 e2]; simpl;
    split; intros H; try discriminate; auto; destruct H; discriminate.
Qed.


Ltac compare_cases :=
  repeat match goal with
  | H : context [(?a ?= ?b)%Z] |- _ => destruct (Z.compare_spec a b); simpl in H
  | |- context [(?a ?= ?b)%Z] => destruct (Z.compare_spec a b); simpl
  | H : context [(?a ?= ?b)%positive] |- _ => destruct (Pos.compare_spec a b); simpl in H
  | |- context [(?a ?= ?b)%positive] => destruct (Pos.compare_spec a b); simpl
  end.

Lemma SFcompare_trans (x y z : spec_float) (c1 c2 : comparison) :
  SFcompare x y = Some c1 -> SFcompare y z = Some c2 ->
  weak c1 = true -> weak c2 = true ->
  SFcompare x z = Some (comp_join c1 c2).
Proof.
  intros H1 H2 W1 W2.
  destruct x as [sx|sx| |sx m1 e1], y as [sy|sy| |sy m2 e2], z as [sz|sz| |sz m3 e3];
    try discriminate;
    destruct sx, sy, sz; simpl in *; rewrite ?Pos_compare_cont_Eq in *;
    injection H1 as <-; injection H2 as <-;
    try discriminate; try reflexivity;
    compare_cases; try discriminate; try reflexivity; lia.
Qed.

(** *** The order of numbers *)

Lemma ltb_cmp a b : (a <? b) = true <-> cmp a b = Some Lt.
Proof.
  rewrite FloatAxioms.ltb_spec. unfold SFltb, cmp.
  destruct (SFcompare _ _) as [[]|]; split; congruence.
Qed.

Lemma leb_cmp a b : (a <=? b) = true <-> cmp a b = Some Lt \/ cmp a b = Some Eq.
Proof.
  rewrite FloatAxioms.leb_spec. unfold SFleb, cmp.
  destruct (SFcompare _ _) as [[]|]; split; intros; try congruence; auto;
    destruct H; congruence.
Qed.

Lemma eqb_cmp a b : (a =? b) = true <-> cmp a b = Some Eq.
Proof.
  rewrite FloatAxioms.eqb_spec. unfold SFeqb, cmp.
  destruct (SFcompare _ _) as [[]|]; split; congruence.
Qed.

Lemma is_nan_false a : is_nan a = false <-> Prim2SF a <> S754_nan.
Proof.
  unfold is_nan. rewrite negb_false_iff, eqb_cmp. unfold cmp. split.
  - intros H E. rewrite E in H. discriminate.
  - apply SFcompare_refl.
Qed.

Lemma cmp_None a b : cmp a b = None <-> is_nan a = true \/ is_nan b = true.
Proof.
  unfold cmp. rewrite SFcompare_nan.
  rewrite <- !not_false_iff_true, !is_nan_false.
  destruct (Prim2SF a), (Prim2SF b); split; intros [H|H]; try discriminate;
    auto; try (exfalso; apply H; discriminate).
Qed.

Lemma cmp_Some a b c : cmp a b = Some c -> is_nan a = false /\ is_nan b = false.
Proof.
  intros H. destruct (is_nan a) eqn:Ha, (is_nan b) eqn:Hb; auto;
    assert (cmp a b = None) by (apply cmp_None; auto); congruence.
Qed.

Lemma cmp_total a b :
  is_nan a = false -> is_nan b = false -> exists c, cmp a b = Some c.
Proof.
  intros Ha Hb. destruct (cmp a b) eqn:E; eauto.
  apply cmp_None in E as [E|E]; congruence.
Qed.

Lemma cmp_antisym a b : cmp b a = CompOpp <$> cmp a b.
Proof. apply SFcompare_antisym. Qed.

Lemma cmp_refl a : is_nan a = false -> cmp a a = Some Eq.
Proof. intros H. apply SFcompare_refl, is_nan_false, H. Qed.

Lemma leb_refl a : is_nan a = false -> (a <=? a) = true.
Proof. intros H. apply leb_cmp. right. apply cmp_refl, H. Qed.

Lemma ltb_irrefl a : (a <? a) = false.
Proof.
  destruct (a <? a) eqn:E; [|reflexivity].
  apply ltb_cmp in E. pose proof (cmp_Some _ _ _ E) as [Ha _].
  rewrite (cmp_refl a Ha) in E. discriminate.
Qed.

Lemma ltb_leb a b : (a <? b) = true -> (a <=? b) = true.
Proof. rewrite ltb_cmp, leb_cmp. auto. Qed.

Lemma ltb_asym a b : (a <? b) = true -> (b <? a) = false.
Proof.
  intros H. apply ltb_cmp in H.
  destruct (b <? a) eqn:E; [|reflexivity].
  apply ltb_cmp in E. rewrite cmp_antisym, H in E. discriminate.
Qed.

Lemma leb_not_ltb a b : (a <=? b) = true -> (b <? a) = false.
Proof.
  intros H. apply leb_cmp in H.
  destruct (b <? a) eqn:E; [|reflexivity].
  apply ltb_cmp in E. rewrite cmp_antisym in E.
  destruct H as [H|H]; rewrite H in E; discriminate.
Qed.

Lemma not_ltb_leb a b :
  is_nan a = false -> is_nan b = false -> (b <? a) = false -> (a <=? b) = true.
Proof.
  intros Ha Hb H. destruct (cmp_total a b Ha Hb) as [c Hc].
  apply leb_cmp. destruct c; auto.
  exfalso. assert (E : (b <? a) = true).
  { apply ltb_cmp. rewrite cmp_antisym, Hc. reflexivity. }
  congruence.
Qed.

Lemma leb_nan a b : (a <=? b) = true -> is_nan a = false /\ is_nan b = false.
Proof. intros H. apply leb_cmp in H as [H|H]; eapply cmp_Some; eauto. Qed.

Lemma ltb_nan a b : (a <? b) = true -> is_nan a = false /\ is_nan b = false.
Proof. intros H. apply ltb_leb, leb_nan in H. exact H. Qed.

Lemma cmp_trans a b c c1 c2 :
  cmp a b = Some c1 -> cmp b c = Some c2 -> weak c1 = true -> weak c2 = true ->
  cmp a c = Some (comp_join c1 c2).
Proof. apply SFcompare_trans. Qed.

Lemma leb_trans a b c : (a <=? b) = true -> (b <=? c) = true -> (a <=? c) = true.
Proof.
  rewrite !leb_cmp. intros [H1|H1] [H2|H2];
    rewrite (cmp_trans _ _ _ _ _ H1 H2 eq_refl eq_refl); simpl; auto.
Qed.

Lemma ltb_leb_trans a b c : (a <? b) = true -> (b <=? c) = true -> (a <? c) = true.
Proof.
  rewrite !ltb_cmp, leb_cmp. intros H1 [H2|H2];
    rewrite (cmp_trans _ _ _ _ _ H1 H2 eq_refl eq_refl); reflexivity.
Qed.

Lemma leb_ltb_trans a b c : (a <=? b) = true -> (b <? c) = true -> (a <? c) = true.
Proof.
  rewrite !ltb_cmp, leb_cmp. intros [H1|H1] H2;
    rewrite (cmp_trans _ _ _ _ _ H1 H2 eq_refl eq_refl); reflexivity.
Qed.

Lemma ltb_trans a b c : (a <? b) = true -> (b <? c) = true -> (a <? c) = true.
Proof. intros H1 H2. eapply ltb_leb_trans; [exact H1|apply ltb_leb, H2]. Qed.

(** *** [Math.max] and [Math.min] *)
Lemma Math_max_nan_l a : Math_max nan a = nan.
Proof. reflexivity. Qed.

Lemma Math_max_nan_r a : Math_max a nan = nan.
Proof. unfold Math_max. rewrite orb_true_r. reflexivity. Qed.

Lemma Math_min_nan_r a : Math_min a nan = nan.
Proof. unfold Math_min. rewrite orb_true_r. reflexivity. Qed.

Lemma Math_max_cases a b :
  is_nan a = false -> is_nan b = false ->
  (Math_max a b = a /\ (b <=? a) = true) \/ (Math_max a b = b /\ (a <=? b) = true).
Proof.
  intros Ha Hb. unfold Math_max. rewrite Ha, Hb. simpl.
  destruct (a <? b) eqn:E1.
  - right. split; [reflexivity|apply ltb_leb, E1].
  - destruct (b <? a) eqn:E2.
    + left. split; [reflexivity|apply ltb_leb, E2].
    + destruct (is_neg_zero a).
      * right. split; [reflexivity|apply not_ltb_leb; assumption].
      * left. split; [reflexivity|apply not_ltb_leb; assumption].
Qed.

Lemma Math_min_cases a b :
  is_nan a = false -> is_nan b = false ->
  (Math_min a b = a /\ (a <=? b) = true) \/ (Math_min a b = b /\ (b <=? a) = true).
Proof.
  intros Ha Hb. unfold Math_min. rewrite Ha, Hb. simpl.
  destruct (a <? b) eqn:E1.
  - left. split; [reflexivity|apply ltb_leb, E1].
  - destruct (b <? a) eqn:E2.
    + right. split; [reflexivity|apply ltb_leb, E2].
    + destruct (is_neg_zero a).
      * left. split; [reflexivity|apply not_ltb_leb; assumption].
      * right. split; [reflexivity|apply not_ltb_leb; assumption].
Qed.

Lemma Math_max_lt a b : (b <? a) = true -> Math_max a b = a.
Proof.
  intros H. unfold Math_max. destruct (ltb_nan _ _ H) as [Hb Ha].
  rewrite Ha, Hb, (ltb_asym _ _ H), H. reflexivity.
Qed.

Lemma Math_max_gt a b : (a <? b) = true -> Math_max a b = b.
Proof.
  intros H. unfold Math_max. destruct (ltb_nan _ _ H) as [Ha Hb].
  rewrite Ha, Hb, H. reflexivity.
Qed.

Lemma Math_min_lt a b : (a <? b) = true -> Math_min a b = a.
Proof.
  intros H. unfold Math_min. destruct (ltb_nan _ _ H) as [Ha Hb].
  rewrite Ha, Hb, H. reflexivity.
Qed.

Lemma Math_min_gt a b : (b <? a) = true -> Math_min a b = b.
Proof.
  intros H. unfold Math_min. destruct (ltb_nan _ _ H) as [Hb Ha].
  rewrite Ha, Hb, (ltb_asym _ _ H), H. reflexivity.
Qed.

(* ================================================================== *)
(** ** Rounding of binary64 sums and differences *)
(* ================================================================== *)

(** Subtracting a number that is not negative from a finite number does
    not give a larger number, and adding one does not give a smaller
    number: round-to-nearest never steps over a representable number.  The
    lemmas follow the specification of the operations in [SpecFloat]. *)

Section Rounding.
Local Open Scope Z_scope.

Lemma digits2_pos_bounds (m : positive) :
  2 ^ (Z.pos (digits2_pos m) - 1) <= Z.pos m < 2 ^ Z.pos (digits2_pos m).
Proof.
  induction m as [m IH|m IH|]; simpl digits2_pos.
  - rewrite Pos2Z.inj_succ. replace (Z.succ (Z.pos (digits2_pos m)) - 1)
      with (Z.succ (Z.pos (digits2_pos m) - 1)) by lia.
    rewrite !Z.pow_succ_r by lia. lia.
  - rewrite Pos2Z.inj_succ. replace (Z.succ (Z.pos (digits2_pos m)) - 1)
      with (Z.succ (Z.pos (digits2_pos m) - 1)) by lia.
    rewrite !Z.pow_succ_r by lia. lia.
  - simpl. lia.
Qed.

Lemma digits_scale_le (m mx : positive) (k : Z) :
  0 <= k -> Z.pos m <= Z.pos mx * 2 ^ k ->
  Z.pos (digits2_pos m) <= Z.pos (digits2_pos mx) + k.
Proof.
  intros Hk H.
  pose proof (digits2_pos_bounds m) as [Hm _].
  pose proof (digits2_pos_bounds mx) as [_ Hx].
  assert (Hp : 0 < 2 ^ k) by (apply Z.pow_pos_nonneg; lia).
  assert (Hlt : 2 ^ (Z.pos (digits2_pos m) - 1) < 2 ^ (Z.pos (digits2_pos mx) + k)).
  { rewrite Z.pow_add_r by lia. nia. }
  apply Z.pow_lt_mono_r_iff in Hlt; lia.
Qed.

Lemma digits_scale_ge (m mx : positive) (k : Z) :
  0 <= k -> Z.pos mx * 2 ^ k <= Z.pos m ->
  Z.pos (digits2_pos mx) + k <= Z.pos (digits2_pos m).
Proof.
  intros Hk H.
  pose proof (digits2_pos_bounds m) as [_ Hm].
  pose proof (digits2_pos_bounds mx) as [Hx _].
  assert (Hp : 0 < 2 ^ k) by (apply Z.pow_pos_nonneg; lia).
  assert (Hlt : 2 ^ (Z.pos (digits2_pos mx) - 1 + k) < 2 ^ Z.pos (digits2_pos m)).
  { rewrite Z.pow_add_r by lia. nia. }
  apply Z.pow_lt_mono_r_iff in Hlt; lia.
Qed.

Lemma iter_pos_nat {A : Type} (f : A -> A) (p : positive) (x : A) :
  @SpecFloat.iter_pos A f p x = Nat.iter (Pos.to_nat p) f x.
Proof.
  revert x. induction p as [p IH|p IH|]; intros x; simpl SpecFloat.iter_pos.
  - rewrite !IH, Pos2Nat.inj_xI.
    replace (S (2 * Pos.to_nat p)) with (S (Pos.to_nat p + Pos.to_nat p)) by lia.
    rewrite Nat.iter_succ, Nat.iter_add, !Nat.iter_swap. reflexivity.
  - rewrite !IH, Pos2Nat.inj_xO.
    replace (2 * Pos.to_nat p)%nat with (Pos.to_nat p + Pos.to_nat p)%nat by lia.
    rewrite Nat.iter_add. reflexivity.
  - reflexivity.
Qed.

Lemma shr_1_spec (mrs : shr_record) :
  0 <= shr_m mrs ->
  shr_m (shr_1 mrs) = shr_m mrs / 2 /\
  shr_r (shr_1 mrs) = Z.odd (shr_m mrs) /\
  shr_s (shr_1 mrs) = shr_r mrs || shr_s mrs.
Proof.
  destruct mrs as [m r s]. simpl. intros Hm.
  rewrite <- Z.div2_div.
  destruct m as [|[p|p|]|p]; try lia; simpl; auto.
Qed.

Lemma shr_iter_spec (m0 : Z) (k : nat) :
  0 <= m0 ->
  let mrs := Nat.iter k shr_1 (Build_shr_record m0 false false) in
  shr_m mrs = m0 / 2 ^ Z.of_nat k /\
  (m0 mod 2 ^ Z.of_nat k = 0 -> shr_r mrs = false /\ shr_s mrs = false).
Proof.
  intros Hm. induction k as [|k IH].
  - simpl. rewrite Z.div_1_r. auto.
  - cbn zeta in *. rewrite Nat.iter_succ.
    destruct IH as [IHm IHx].
    assert (H0 : 0 <= shr_m (Nat.iter k shr_1 {| shr_m := m0; shr_r := false; shr_s := false |})).
    { rewrite IHm. apply Z.div_pos; [lia|]. apply Z.pow_pos_nonneg; lia. }
    destruct (shr_1_spec _ H0) as (E1 & E2 & E3).
    assert (Hp : 0 < 2 ^ Z.of_nat k) by (apply Z.pow_pos_nonneg; lia).
    rewrite Nat2Z.inj_succ, Z.pow_succ_r by lia.
    split.
    + rewrite E1, IHm, Z.div_div by lia. f_equal. lia.
    + intros Hx. apply Z.mod_divide in Hx; [|lia]. destruct Hx as [q Hq].
      assert (Hk : m0 mod 2 ^ Z.of_nat k = 0).
      { rewrite Hq. replace (q * (2 * 2 ^ Z.of_nat k)) with (q * 2 * 2 ^ Z.of_nat k) by lia.
        apply Z.mod_mul. lia. }
      destruct (IHx Hk) as [Hr Hs].
      rewrite E2, E3, Hr, Hs, IHm. split; [|reflexivity].
      rewrite Hq. replace (q * (2 * 2 ^ Z.of_nat k)) with (q * 2 * 2 ^ Z.of_nat k) by lia.
      rewrite Z.div_mul by lia. rewrite Z.odd_mul. simpl. apply andb_false_r.
Qed.

Lemma round_nearest_even_bounds (m : Z) (l : location) :
  m <= round_nearest_even m l <= m + 1.
Proof.
  destruct l as [|[]]; simpl; try lia. destruct (Z.even m); lia.
Qed.

(** [shr_fexp] on an exact mantissa: a shift right by [max n 0] bits. *)
Lemma shr_fexp_spec (m e : Z) :
  0 <= m ->
  let n := Z.max (fexp prec emax (Zdigits2 m + e) - e) 0 in
  let '(mrs, e') := shr_fexp prec emax m e loc_Exact in
  e' = e + n /\ shr_m mrs = m / 2 ^ n /\
  (m mod 2 ^ n = 0 -> loc_of_shr_record mrs = loc_Exact).
Proof.
  intros Hm. unfold shr_fexp, shr. simpl shr_record_of_loc.
  destruct (fexp prec emax (Zdigits2 m + e) - e) as [|p|p] eqn:En; cbn zeta.
  - simpl. rewrite Z.div_1_r. repeat split; lia.
  - rewrite iter_pos_nat. rewrite Z.max_l by lia.
    pose proof (shr_iter_spec m (Pos.to_nat p) Hm) as H. cbn zeta in H.
    rewrite positive_nat_Z in H. destruct H as [H1 H2].
    split; [reflexivity|]. split; [exact H1|].
    intros Hx. destruct (H2 Hx) as [Hr Hs].
    destruct (Nat.iter _ _ _) as [m' r s]. simpl in *. subst. reflexivity.
  - rewrite Z.max_r by lia. simpl. rewrite Z.div_1_r. repeat split; lia.
Qed.

Lemma fexp_eq (e : Z) : fexp prec emax e = Z.max (e - 53) (-1074).
Proof. reflexivity. Qed.

Lemma bounded_spec (m : positive) (e : Z) :
  bounded prec emax m e = true <->
  fexp prec emax (Z.pos (digits2_pos m) + e) = e /\ e <= 971.
Proof.
  unfold bounded, canonical_mantissa.
  rewrite andb_true_iff, Z.eqb_eq, Z.leb_le. reflexivity.
Qed.

Lemma binary_round_aux_spec (sx : bool) (m : positive) (ex : Z) :
  let e1 := ex + Z.max (fexp prec emax (Z.pos (digits2_pos m) + ex) - ex) 0 in
  exists mr : Z,
    Z.pos m / 2 ^ (e1 - ex) <= mr <= Z.pos m / 2 ^ (e1 - ex) + 1 /\
    (Z.pos m mod 2 ^ (e1 - ex) = 0 -> mr = Z.pos m / 2 ^ (e1 - ex)) /\
    let e2 := e1 + Z.max (fexp prec emax (Zdigits2 mr + e1) - e1) 0 in
    binary_round_aux prec emax sx (Z.pos m) ex loc_Exact =
      match mr / 2 ^ (e2 - e1) with
      | Z0 => S754_zero sx
      | Z.pos p => if e2 <=? 971 then S754_finite sx p e2 else S754_infinity sx
      | Z.neg _ => S754_nan
      end.
Proof.
  intros e1. unfold binary_round_aux.
  pose proof (shr_fexp_spec (Z.pos m) ex ltac:(lia)) as H1. cbn zeta in H1.
  destruct (shr_fexp prec emax (Z.pos m) ex loc_Exact) as [mrs' e'].
  change (Zdigits2 (Z.pos m)) with (Z.pos (digits2_pos m)) in H1.
  destruct H1 as (He' & Hm' & Hx').
  fold e1 in He'. replace (Z.max _ 0) with (e1 - ex) in Hm', Hx' by (subst e1; lia).
  set (mr := round_nearest_even (shr_m mrs') (loc_of_shr_record mrs')).
  assert (Hp : 0 < 2 ^ (e1 - ex)) by (apply Z.pow_pos_nonneg; subst e1; lia).
  assert (H0 : 0 <= Z.pos m / 2 ^ (e1 - ex)) by (apply Z.div_pos; lia).
  pose proof (round_nearest_even_bounds (shr_m mrs') (loc_of_shr_record mrs')) as Hb.
  fold mr in Hb. rewrite Hm' in Hb.
  exists mr. split; [exact Hb|]. split.
  { intros Hx. subst mr. rewrite (Hx' Hx). simpl. exact Hm'. }
  pose proof (shr_fexp_spec mr e' ltac:(lia)) as H2. cbn zeta in H2.
  destruct (shr_fexp prec emax mr e' loc_Exact) as [mrs'' e''].
  destruct H2 as (He'' & Hm'' & _). subst e'.
  cbn zeta. rewrite Hm'', He''.
  replace (e1 + Z.max (fexp prec emax (Zdigits2 mr + e1) - e1) 0 - e1)
    with (Z.max (fexp prec emax (Zdigits2 mr + e1) - e1) 0) by lia.
  reflexivity.
Qed.

Lemma Pos_iter_xO (m d : positive) :
  Z.pos (Pos.iter xO m d) = Z.pos m * 2 ^ Z.pos d.
Proof.
  induction d as [|d IH] using Pos.peano_ind.
  - simpl. lia.
  - rewrite Pos.iter_succ, Pos2Z.inj_succ, Z.pow_succ_r by lia.
    rewrite Pos2Z.inj_xO, IH. lia.
Qed.

Lemma shl_align_spec (mx : positive) (ex ex' : Z) :
  let '(mz, ez) := shl_align mx ex ex' in
  ez = Z.min ex ex' /\ Z.pos mz = Z.pos mx * 2 ^ (ex - ez).
Proof.
  unfold shl_align. destruct (ex' - ex) as [|d|d] eqn:E.
  - split; [lia|]. replace (ex - ex) with 0 by lia. simpl. lia.
  - split; [lia|]. replace (ex - ex) with 0 by lia. simpl. lia.
  - split; [lia|]. rewrite Pos_iter_xO. f_equal. f_equal. lia.
Qed.

Lemma digits_scale (m mz : positive) (k : Z) :
  0 <= k -> Z.pos mz = Z.pos m * 2 ^ k ->
  Z.pos (digits2_pos mz) = Z.pos (digits2_pos m) + k.
Proof.
  intros Hk H.
  pose proof (digits_scale_le mz m k Hk ltac:(lia)).
  pose proof (digits_scale_ge mz m k Hk ltac:(lia)). lia.
Qed.

Lemma div_pow_lower (p : positive) (k : Z) :
  0 <= k < Z.pos (digits2_pos p) ->
  2 ^ (Z.pos (digits2_pos p) - 1 - k) <= Z.pos p / 2 ^ k.
Proof.
  intros Hk. pose proof (digits2_pos_bounds p) as [Hlo _].
  assert (Hp : 0 < 2 ^ k) by (apply Z.pow_pos_nonneg; lia).
  apply Z.div_le_lower_bound; [exact Hp|].
  rewrite <- Z.pow_add_r by lia.
  replace (k + (Z.pos (digits2_pos p) - 1 - k)) with (Z.pos (digits2_pos p) - 1) by lia.
  exact Hlo.
Qed.

Lemma binary_round_spec (s : bool) (m : positive) (ez : Z) :
  let ec := fexp prec emax (Z.pos (digits2_pos m) + ez) in
  let ez' := Z.min ez ec in
  let mz := Z.pos m * 2 ^ (ez - ez') in
  exists mr : Z,
    mz / 2 ^ (ec - ez') <= mr <= mz / 2 ^ (ec - ez') + 1 /\
    (mz mod 2 ^ (ec - ez') = 0 -> mr = mz / 2 ^ (ec - ez')) /\
    let e2 := ec + Z.max (fexp prec emax (Zdigits2 mr + ec) - ec) 0 in
    binary_round prec emax s m ez =
      match mr / 2 ^ (e2 - ec) with
      | Z0 => S754_zero s
      | Z.pos p => if e2 <=? 971 then S754_finite s p e2 else S754_infinity s
      | Z.neg _ => S754_nan
      end.
Proof.
  intros ec ez' mz. unfold binary_round. fold ec.
  pose proof (shl_align_spec m ez ec) as Ha.
  destruct (shl_align m ez ec) as [pz ez''].
  destruct Ha as [He Hz]. fold ez' in He. subst ez''. fold mz in Hz.
  pose proof (digits_scale m pz (ez - ez') ltac:(lia) Hz) as Hd.
  destruct (binary_round_aux_spec s pz ez') as (mr & Hb & Hx & Hr).
  cbn zeta in Hr.
  replace (fexp prec emax (Z.pos (digits2_pos pz) + ez')) with ec in *
    by (subst ec; f_equal; lia).
  replace (ez' + Z.max (ec - ez') 0) with ec in * by lia.
  rewrite Hz in Hb, Hx.
  exists mr. split; [exact Hb|]. split; [exact Hx|]. exact Hr.
Qed.

(** Rounding does not step over a representable number above. *)
Lemma binary_round_upper (s : bool) (m mx : positive) (ez ex : Z) :
  bounded prec emax mx ex = true -> ez <= ex ->
  Z.pos m <= Z.pos mx * 2 ^ (ex - ez) ->
  binary_round prec emax s m ez = S754_zero s \/
  exists m2 e2, binary_round prec emax s m ez = S754_finite s m2 e2 /\
                (e2 < ex \/ (e2 = ex /\ (m2 <= mx)%positive)).
Proof.
  intros Hv Hez Hle. apply bounded_spec in Hv as [Hc Hmax].
  destruct (binary_round_spec s m ez) as (mr & Hb & Hx & Hr). cbn zeta in *.
  set (ec := fexp prec emax (Z.pos (digits2_pos m) + ez)) in *.
  set (ez' := Z.min ez ec) in *.
  pose proof (digits_scale_le m mx (ex - ez) ltac:(lia) Hle) as Hd.
  assert (Hec : ec <= ex).
  { subst ec. rewrite <- Hc. rewrite !fexp_eq. lia. }
  set (n1 := ec - ez') in *.
  assert (Hn1 : 0 <= n1) by (subst n1 ez'; lia).
  assert (Hp1 : 0 < 2 ^ n1) by (apply Z.pow_pos_nonneg; lia).
  set (A' := Z.pos mx * 2 ^ (ex - ec)).
  assert (HpA : 0 < 2 ^ (ex - ec)) by (apply Z.pow_pos_nonneg; lia).
  assert (Hmz : Z.pos m * 2 ^ (ez - ez') <= A' * 2 ^ n1).
  { subst A' n1. rewrite <- Z.mul_assoc, <- Z.pow_add_r by lia.
    replace (ex - ec + (ec - ez')) with (ex - ez + (ez - ez')) by lia.
    rewrite Z.pow_add_r by lia.
    assert (0 < 2 ^ (ez - ez')) by (apply Z.pow_pos_nonneg; lia). nia. }
  assert (Hmr : mr <= A').
  { set (mz := Z.pos m * 2 ^ (ez - ez')) in *.
    assert (Hq : mz / 2 ^ n1 <= A').
    { apply Z.div_le_upper_bound; [exact Hp1|]. lia. }
    destruct (Z.eq_dec (mz / 2 ^ n1) A') as [E|E]; [|lia].
    assert (Hmz' : mz = A' * 2 ^ n1).
    { pose proof (Z.mul_div_le mz (2 ^ n1) Hp1). rewrite E in H. lia. }
    rewrite Hx; [lia|]. rewrite Hmz'. apply Z.mod_mul. lia. }
  assert (Hmr0 : 0 <= mr).
  { assert (0 <= Z.pos m * 2 ^ (ez - ez') / 2 ^ n1); [|lia].
    apply Z.div_pos; [|exact Hp1].
    assert (0 < 2 ^ (ez - ez')) by (apply Z.pow_pos_nonneg; subst ez'; lia). nia. }
  destruct mr as [|pr|pr]; [| |lia].
  - left. rewrite Hr. rewrite Z.div_0_l; [reflexivity|].
    apply Z.pow_nonzero; lia.
  - simpl Zdigits2 in Hr.
    pose proof (digits_scale_le pr mx (ex - ec) ltac:(lia) Hmr) as Hd2.
    set (e2 := ec + Z.max (fexp prec emax (Z.pos (digits2_pos pr) + ec) - ec) 0) in *.
    assert (He2 : ec <= e2 <= ex).
    { subst e2. rewrite !fexp_eq in *. lia. }
    assert (Hp2 : 0 < 2 ^ (e2 - ec)) by (apply Z.pow_pos_nonneg; lia).
    assert (Hdiv : 0 <= Z.pos pr / 2 ^ (e2 - ec)) by (apply Z.div_pos; lia).
    destruct (Z.pos pr / 2 ^ (e2 - ec)) as [|p2|p2] eqn:E2; [left; exact Hr| |lia].
    right. exists p2, e2. replace (e2 <=? 971) with true in Hr
      by (symmetry; apply Z.leb_le; lia).
    split; [exact Hr|].
    destruct (Z.eq_dec e2 ex) as [Ee|Ee]; [right|left; lia].
    split; [exact Ee|].
    assert (Z.pos p2 <= Z.pos mx); [|lia].
    rewrite <- E2, Ee. apply Z.div_le_upper_bound; [lia|]. subst A'. lia.
Qed.

(** Rounding does not step over a representable number below. *)
Lemma binary_round_lower (s : bool) (m mx : positive) (ez ex : Z) :
  bounded prec emax mx ex = true -> ez <= ex ->
  Z.pos mx * 2 ^ (ex - ez) <= Z.pos m ->
  binary_round prec emax s m ez = S754_infinity s \/
  exists m2 e2, binary_round prec emax s m ez = S754_finite s m2 e2 /\
                (ex < e2 \/ (e2 = ex /\ (mx <= m2)%positive)).
Proof.
  intros Hv Hez Hle. apply bounded_spec in Hv as [Hc Hmax].
  destruct (binary_round_spec s m ez) as (mr & Hb & _ & Hr). cbn zeta in *.
  set (ec := fexp prec emax (Z.pos (digits2_pos m) + ez)) in *.
  pose proof (digits_scale_ge m mx (ex - ez) ltac:(lia) Hle) as Hd.
  assert (Hec : ex <= ec).
  { subst ec. rewrite !fexp_eq in *. lia. }
  replace (Z.min ez ec) with ez in * by lia.
  replace (ez - ez) with 0 in * by lia.
  rewrite Z.pow_0_r, Z.mul_1_r in Hb.
  set (n1 := ec - ez) in *.
  assert (Hp1 : 0 < 2 ^ n1) by (apply Z.pow_pos_nonneg; subst n1; lia).
  pose proof (digits2_pos_bounds m) as [Hmlo _].
  (* the rounded mantissa is positive, and at least [mx] when [ec = ex] *)
  assert (Hm1 : 0 < Z.pos m / 2 ^ n1 /\ (ec = ex -> Z.pos mx <= Z.pos m / 2 ^ n1)).
  { destruct (Z.eq_dec ec ex) as [E|E].
    - assert (Z.pos mx <= Z.pos m / 2 ^ n1); [|split; [lia|auto]].
      apply Z.div_le_lower_bound; [exact Hp1|].
      subst n1. rewrite E. lia.
    - split; [|congruence].
      assert (Hn : n1 = Z.pos (digits2_pos m) - 53).
      { subst n1 ec. rewrite !fexp_eq in *. lia. }
      pose proof (div_pow_lower m n1 ltac:(subst n1; lia)) as Hlow.
      assert (0 < 2 ^ (Z.pos (digits2_pos m) - 1 - n1))
        by (apply Z.pow_pos_nonneg; lia).
      lia. }
  destruct Hm1 as [Hm1 Hm1'].
  destruct mr as [|pr|pr]; [lia| |lia].
  simpl Zdigits2 in Hr.
  set (e2 := ec + Z.max (fexp prec emax (Z.pos (digits2_pos pr) + ec) - ec) 0) in *.
  assert (He2 : ec <= e2) by (subst e2; lia).
  assert (Hm2 : 0 < Z.pos pr / 2 ^ (e2 - ec)).
  { destruct (Z.eq_dec e2 ec) as [E|E].
    - rewrite E, Z.sub_diag, Z.pow_0_r, Z.div_1_r. lia.
    - assert (Hn : e2 - ec = Z.pos (digits2_pos pr) - 53).
      { subst e2 ec. rewrite !fexp_eq in *. lia. }
      pose proof (div_pow_lower pr (e2 - ec) ltac:(lia)) as Hlow.
      assert (0 < 2 ^ (Z.pos (digits2_pos pr) - 1 - (e2 - ec)))
        by (apply Z.pow_pos_nonneg; lia).
      lia. }
  destruct (Z.pos pr / 2 ^ (e2 - ec)) as [|p2|p2] eqn:E2; [lia| |lia].
  destruct (e2 <=? 971) eqn:El; [right|left; exact Hr].
  exists p2, e2. split; [exact Hr|].
  destruct (Z.eq_dec e2 ex) as [Ee|Ee]; [right|left; lia].
  split; [exact Ee|].
  assert (Eec : ec = ex) by lia.
  assert (Z.pos mx <= Z.pos p2); [|lia].
  rewrite <- E2. replace (e2 - ec) with 0 by lia.
  rewrite Z.pow_0_r, Z.div_1_r. specialize (Hm1' Eec). lia.
Qed.

(** The result of rounding carries the given sign and is never [NaN]. *)
Lemma binary_round_cases (s : bool) (m : positive) (e : Z) :
  binary_round prec emax s m e = S754_zero s \/
  binary_round prec emax s m e = S754_infinity s \/
  exists m2 e2, binary_round prec emax s m e = S754_finite s m2 e2.
Proof.
  destruct (binary_round_spec s m e) as (mr & Hb & _ & Hr). cbn zeta in *.
  set (ec := fexp prec emax (Z.pos (digits2_pos m) + e)) in *.
  assert (0 <= mr).
  { assert (0 <= Z.pos m * 2 ^ (e - Z.min e ec) / 2 ^ (ec - Z.min e ec)); [|lia].
    apply Z.div_pos; [|apply Z.pow_pos_nonneg; lia].
    assert (0 < 2 ^ (e - Z.min e ec)) by (apply Z.pow_pos_nonneg; lia). nia. }
  set (e2 := ec + _) in Hr.
  assert (0 <= mr / 2 ^ (e2 - ec)).
  { apply Z.div_pos; [lia|]. apply Z.pow_pos_nonneg; subst e2; lia. }
  rewrite Hr. destruct (mr / 2 ^ (e2 - ec)) as [|p|p]; [auto| |lia].
  destruct (e2 <=? 971); eauto.
Qed.

Lemma binary_round_aux_cases (s : bool) (m : positive) (e : Z) :
  binary_round_aux prec emax s (Z.pos m) e loc_Exact = S754_zero s \/
  binary_round_aux prec emax s (Z.pos m) e loc_Exact = S754_infinity s \/
  exists m2 e2, binary_round_aux prec emax s (Z.pos m) e loc_Exact = S754_finite s m2 e2.
Proof.
  destruct (binary_round_aux_spec s m e) as (mr & Hb & _ & Hr). cbn zeta in *.
  set (e1 := e + _) in *.
  assert (0 <= mr).
  { assert (0 <= Z.pos m / 2 ^ (e1 - e)); [|lia].
    apply Z.div_pos; [lia|]. apply Z.pow_pos_nonneg; subst e1; lia. }
  set (e2 := e1 + _) in Hr.
  assert (0 <= mr / 2 ^ (e2 - e1)).
  { apply Z.div_pos; [lia|]. apply Z.pow_pos_nonneg; subst e2; lia. }
  rewrite Hr. destruct (mr / 2 ^ (e2 - e1)) as [|p|p]; [auto| |lia].
  destruct (e2 <=? 971); eauto.
Qed.

Lemma fst_shl_align (mx : positive) (ex ez : Z) :
  ez <= ex -> Z.pos (fst (shl_align mx ex ez)) = Z.pos mx * 2 ^ (ex - ez).
Proof.
  intros H. pose proof (shl_align_spec mx ex ez) as Hs.
  destruct (shl_align mx ex ez) as [mz ez']. destruct Hs as [-> Hs]. simpl.
  rewrite Hs. f_equal. f_equal. lia.
Qed.

Ltac pos_compare :=
  repeat match goal with
  | |- context [(?a ?= ?b)%Z] => destruct (Z.compare_spec a b); simpl
  | |- context [Pos.compare_cont Eq ?a ?b] =>
      change (Pos.compare_cont Eq a b) with (a ?= b)%positive;
      destruct (Pos.compare_spec a b); simpl
  end.

Lemma SFsub_le (x r : spec_float) :
  valid_binary x = true -> valid_binary r = true ->
  finite_or_zero x = true -> nonneg r = true ->
  SFleb (SF64sub x r) x = true.
Proof.
  intros Hx Hr Hf Hn. unfold SFleb.
  destruct x as [sx| | |sx mx ex]; try discriminate;
    destruct r as [sr|[]| |[] mr er]; try discriminate.
  - destruct sx, sr; reflexivity.
  - reflexivity.
  - reflexivity.
  - rewrite SFcompare_refl; [reflexivity|]. destruct sx; discriminate.
  - destruct sx; reflexivity.
  - unfold SF64sub, SFsub. set (ez := Z.min ex er).
    rewrite !fst_shl_align by (subst ez; lia).
    set (X := Z.pos mx * 2 ^ (ex - ez)). set (B := Z.pos mr * 2 ^ (er - ez)).
    assert (HX : 0 < X).
    { subst X. assert (0 < 2 ^ (ex - ez)) by (apply Z.pow_pos_nonneg; subst ez; lia). nia. }
    assert (HB : 0 < B).
    { subst B. assert (0 < 2 ^ (er - ez)) by (apply Z.pow_pos_nonneg; subst ez; lia). nia. }
    simpl in Hx. destruct sx; simpl cond_Zopp.
    + destruct (- X - B) as [|p|p] eqn:E; try lia. simpl binary_normalize.
      destruct (binary_round_lower true p mx ez ex Hx ltac:(subst ez; lia) ltac:(lia))
        as [->|(m2 & e2 & -> & [H|[-> H]])]; simpl; [reflexivity| |].
      * pos_compare; try lia; reflexivity.
      * rewrite Z.compare_refl.
        change (Pos.compare_cont Eq m2 mx) with (m2 ?= mx)%positive.
        destruct (Pos.compare_spec m2 mx); simpl; try reflexivity; lia.
    + destruct (X - B) as [|p|p] eqn:E; simpl binary_normalize.
      * reflexivity.
      * destruct (binary_round_upper false p mx ez ex Hx ltac:(subst ez; lia) ltac:(lia))
          as [->|(m2 & e2 & -> & [H|[-> H]])]; simpl; [reflexivity| |].
        -- pos_compare; try lia; reflexivity.
        -- rewrite Z.compare_refl.
           change (Pos.compare_cont Eq m2 mx) with (m2 ?= mx)%positive.
           destruct (Pos.compare_spec m2 mx); simpl; try reflexivity; lia.
      * destruct (binary_round_cases true p ez) as [->|[->|(m2 & e2 & ->)]];
          reflexivity.
Qed.

Lemma SFadd_ge (x r : spec_float) :
  valid_binary x = true -> valid_binary r = true ->
  finite_or_zero x = true -> nonneg r = true ->
  SFleb x (SF64add x r) = true.
Proof.
  intros Hx Hr Hf Hn. unfold SFleb.
  destruct x as [sx| | |sx mx ex]; try discriminate;
    destruct r as [sr|[]| |[] mr er]; try discriminate.
  - destruct sx, sr; reflexivity.
  - reflexivity.
  - reflexivity.
  - unfold SF64add, SFadd. rewrite SFcompare_refl; [reflexivity|].
    destruct sx; discriminate.
  - destruct sx; reflexivity.
  - unfold SF64add, SFadd. set (ez := Z.min ex er).
    rewrite !fst_shl_align by (subst ez; lia).
    set (X := Z.pos mx * 2 ^ (ex - ez)). set (B := Z.pos mr * 2 ^ (er - ez)).
    assert (HX : 0 < X).
    { subst X. assert (0 < 2 ^ (ex - ez)) by (apply Z.pow_pos_nonneg; subst ez; lia). nia. }
    assert (HB : 0 < B).
    { subst B. assert (0 < 2 ^ (er - ez)) by (apply Z.pow_pos_nonneg; subst ez; lia). nia. }
    simpl in Hx. destruct sx; simpl cond_Zopp.
    + destruct (- X + B) as [|p|p] eqn:E; simpl binary_normalize.
      * reflexivity.
      * destruct (binary_round_cases false p ez) as [->|[->|(m2 & e2 & ->)]];
          reflexivity.
      * destruct (binary_round_upper true p mx ez ex Hx ltac:(subst ez; lia) ltac:(lia))
          as [->|(m2 & e2 & -> & [H|[-> H]])]; simpl; [reflexivity| |].
        -- pos_compare; try lia; reflexivity.
        -- rewrite Z.compare_refl.
           change (Pos.compare_cont Eq mx m2) with (mx ?= m2)%positive.
           destruct (Pos.compare_spec mx m2); simpl; try reflexivity; lia.
    + destruct (X + B) as [|p|p] eqn:E; try lia. simpl binary_normalize.
      destruct (binary_round_lower false p mx ez ex Hx ltac:(subst ez; lia) ltac:(lia))
        as [->|(m2 & e2 & -> & [H|[-> H]])]; simpl; [reflexivity| |].
      * pos_compare; try lia; reflexivity.
      * rewrite Z.compare_refl.
        change (Pos.compare_cont Eq mx m2) with (mx ?= m2)%positive.
        destruct (Pos.compare_spec mx m2); simpl; try reflexivity; lia.
Qed.

(** Of two canonical mantissas, the one with the larger exponent is the
    larger number. *)
Lemma canonical_exponent_lt (m1 m2 : positive) (e1 e2 : Z) :
  bounded prec emax m1 e1 = true -> bounded prec emax m2 e2 = true ->
  e1 < e2 -> Z.pos m1 <= Z.pos m2 * 2 ^ (e2 - e1).
Proof.
  intros H1 H2 Hlt. apply bounded_spec in H1 as [H1 _], H2 as [H2 _].
  rewrite fexp_eq in H1, H2.
  pose proof (digits2_pos_bounds m1) as [_ Hm1].
  pose proof (digits2_pos_bounds m2) as [Hm2 _].
  assert (Hd1 : Z.pos (digits2_pos m1) <= 53) by lia.
  assert (Hd2 : Z.pos (digits2_pos m2) = 53) by lia.
  rewrite Hd2 in Hm2.
  assert (2 ^ Z.pos (digits2_pos m1) <= 2 ^ 53) by (apply Z.pow_le_mono_r; lia).
  assert (2 ^ 1 <= 2 ^ (e2 - e1)) by (apply Z.pow_le_mono_r; lia).
  change (2 ^ (53 - 1)) with 4503599627370496 in Hm2.
  change (2 ^ 53) with 9007199254740992 in *.
  change (2 ^ 1) with 2 in *. nia.
Qed.

Lemma SFsub_nonneg (a b : spec_float) :
  valid_binary a = true -> valid_binary b = true ->
  finite_or_zero a = true -> finite_or_zero b = true ->
  SFleb a b = true -> nonneg (SF64sub b a) = true.
Proof.
  intros Ha Hb Hfa Hfb Hle. unfold SFleb in Hle.
  destruct a as [sa| | |sa ma ea]; try discriminate;
    destruct b as [sb| | |sb mb eb]; try discriminate.
  - destruct sa, sb; reflexivity.
  - destruct sb; [discriminate|reflexivity].
  - destruct sa; [reflexivity|discriminate].
  - unfold SF64sub, SFsub. set (ez := Z.min eb ea).
    rewrite !fst_shl_align by (subst ez; lia).
    set (A := Z.pos ma * 2 ^ (ea - ez)). set (B := Z.pos mb * 2 ^ (eb - ez)).
    assert (HA : 0 < A).
    { subst A. assert (0 < 2 ^ (ea - ez)) by (apply Z.pow_pos_nonneg; subst ez; lia). nia. }
    assert (HB : 0 < B).
    { subst B. assert (0 < 2 ^ (eb - ez)) by (apply Z.pow_pos_nonneg; subst ez; lia). nia. }
    simpl in Ha, Hb.
    assert (Hord : cond_Zopp sa A <= cond_Zopp sb B).
    { destruct sa, sb; simpl in Hle |- *; try lia; try discriminate.
      - (* both negative *)
        change (Pos.compare_cont Eq ma mb) with (ma ?= mb)%positive in Hle.
        destruct (Z.compare_spec ea eb) as [E|E|E]; try discriminate.
        + subst eb. destruct (Pos.compare_spec ma mb); try discriminate;
            subst A B; subst; try lia.
          assert (0 < 2 ^ (ea - ez)) by (apply Z.pow_pos_nonneg; subst ez; lia). nia.
        + pose proof (canonical_exponent_lt mb ma eb ea Hb Ha E) as Hc.
          subst A B. replace ez with eb by (subst ez; lia).
          rewrite Z.sub_diag, Z.pow_0_r. lia.
      - (* both positive *)
        change (Pos.compare_cont Eq ma mb) with (ma ?= mb)%positive in Hle.
        destruct (Z.compare_spec ea eb) as [E|E|E]; try discriminate.
        + subst eb. destruct (Pos.compare_spec ma mb); try discriminate;
            subst A B; subst; try lia.
          assert (0 < 2 ^ (ea - ez)) by (apply Z.pow_pos_nonneg; subst ez; lia). nia.
        + pose proof (canonical_exponent_lt ma mb ea eb Ha Hb E) as Hc.
          subst A B. replace ez with ea by (subst ez; lia).
          rewrite Z.sub_diag, Z.pow_0_r. lia. }
    destruct (cond_Zopp sb B - cond_Zopp sa A) as [|p|p] eqn:E; [reflexivity| |lia].
    simpl binary_normalize.
    destruct (binary_round_cases false p ez) as [->|[->|(m2 & e2 & ->)]];
      reflexivity.
Qed.

Lemma SFmul_nonneg (d : spec_float) (m : positive) (e : Z) :
  nonneg d = true -> nonneg (SF64mul d (S754_finite false m e)) = true.
Proof.
  intros Hd. destruct d as [sd|[]| |[] md ed]; try discriminate; try reflexivity.
  unfold SF64mul, SFmul. simpl xorb.
  destruct (binary_round_aux_cases false (md * m) (ed + e)) as [->|[->|(m2 & e2 & ->)]];
    reflexivity.
Qed.
End Rounding.

(** *** The same facts on numbers *)

Lemma is_finite_spec (x : number) :
  is_finite x = true -> finite_or_zero (Prim2SF x) = true.
Proof.
  unfold is_finite, is_infinity. rewrite negb_true_iff, orb_false_iff.
  intros [Hn Hi]. apply is_nan_false in Hn.
  rewrite FloatAxioms.eqb_spec, abs_spec in Hi.
  change (Prim2SF infinity) with (S754_infinity false) in Hi.
  destruct (Prim2SF x) as [s|s| |s m e]; try reflexivity; try congruence.
  discriminate.
Qed.

Lemma sub_le (x r : number) :
  finite_or_zero (Prim2SF x) = true -> nonneg (Prim2SF r) = true ->
  (x - r <=? x) = true.
Proof.
  intros Hx Hr. rewrite FloatAxioms.leb_spec, sub_spec.
  apply SFsub_le; auto using Prim2SF_valid.
Qed.

Lemma add_ge (x r : number) :
  finite_or_zero (Prim2SF x) = true -> nonneg (Prim2SF r) = true ->
  (x <=? x + r) = true.
Proof.
  intros Hx Hr. rewrite FloatAxioms.leb_spec, add_spec.
  apply SFadd_ge; auto using Prim2SF_valid.
Qed.

Lemma tenth_is_positive : exists m e, Prim2SF 0.1 = S754_finite false m e.
Proof. eexists. eexists. vm_compute. reflexivity. Qed.

Lemma window_radius_nonneg (lo hi : number) :
  is_finite lo = true -> is_finite hi = true -> (lo <=? hi) = true ->
  nonneg (Prim2SF ((hi - lo) * 0.1)) = true.
Proof.
  intros Hlo Hhi Hle. rewrite mul_spec, sub_spec.
  destruct tenth_is_positive as (m & e & ->).
  apply SFmul_nonneg, SFsub_nonneg; auto using Prim2SF_valid, is_finite_spec.
  rewrite <- FloatAxioms.leb_spec. exact Hle.
Qed.

Lemma between_finite (lo hi c : number) :
  is_finite lo = true -> is_finite hi = true ->
  (lo <=? c) = true -> (c <=? hi) = true ->
  finite_or_zero (Prim2SF c) = true.
Proof.
  intros Hlo Hhi H1 H2. apply is_finite_spec in Hlo, Hhi.
  rewrite FloatAxioms.leb_spec in H1, H2. unfold SFleb in H1, H2.
  destruct (Prim2SF c) as [s|[]| |s m e]; try reflexivity.
  - destruct (Prim2SF lo) as [?|?| |[] ? ?]; discriminate.
  - destruct (Prim2SF hi) as [?|?| |[] ? ?]; discriminate.
  - destruct (Prim2SF lo) as [?|?| |[] ? ?]; discriminate.
Qed.

Lemma inRange_spec (p : SliderProps) (x : number) :
  inRange p x = true <->
  (minimumValue p <=? x) = true /\ (x <=? maximumValue p) = true.
Proof. unfold inRange. apply andb_true_iff. Qed.

Lemma getBetweenValue_inRange (p : SliderProps) (x : number) :
  (minimumValue p <=? maximumValue p) = true -> is_nan x = false ->
  inRange p (getBetweenValue p x) = true.
Proof.
  intros Hle Hx. destruct (leb_nan _ _ Hle) as [Hlo Hhi].
  apply inRange_spec. unfold getBetweenValue.
  destruct (Math_min_cases x (maximumValue p) Hx Hhi) as [[-> H1]|[-> H1]].
  - destruct (Math_max_cases x (minimumValue p) Hx Hlo) as [[-> H2]|[-> H2]];
      auto using leb_refl.
  - destruct (Math_max_cases (maximumValue p) (minimumValue p) Hhi Hlo)
      as [[-> H2]|[-> H2]]; auto using leb_refl.
Qed.

Lemma window_inRange (p : SliderProps) (c : number) :
  is_finite (minimumValue p) = true -> is_finite (maximumValue p) = true ->
  (minimumValue p <=? maximumValue p) = true ->
  inRange p c = true ->
  let range := (maximumValue p - minimumValue p) * 0.1 in
  inRange p (Math_max (c - range) (minimumValue p)) = true /\
  inRange p (Math_min (c + range) (maximumValue p)) = true.
Proof.
  intros Hflo Hfhi Hle Hc range. apply inRange_spec in Hc as [Hc1 Hc2].
  destruct (leb_nan _ _ Hle) as [Hlo Hhi].
  pose proof (between_finite _ _ c Hflo Hfhi Hc1 Hc2) as Hfc.
  pose proof (window_radius_nonneg _ _ Hflo Hfhi Hle) as Hr. fold range in Hr.
  pose proof (sub_le c range Hfc Hr) as Hsub.
  pose proof (add_ge c range Hfc Hr) as Hadd.
  destruct (leb_nan _ _ Hsub) as [Hns _]. destruct (leb_nan _ _ Hadd) as [_ Hna].
  split; apply inRange_spec.
  - destruct (Math_max_cases (c - range) (minimumValue p) Hns Hlo)
      as [[-> H]|[-> H]].
    + split; [exact H|]. eapply leb_trans; [exact Hsub|exact Hc2].
    + auto using leb_refl.
  - destruct (Math_min_cases (c + range) (maximumValue p) Hna Hhi)
      as [[-> H]|[-> H]].
    + split; [|exact H]. eapply leb_trans; [exact Hc1|exact Hadd].
    + auto using leb_refl.
Qed.

Lemma sort_insert_Forall (P : number -> Prop) (f : number -> number -> number)
    (x : number) (l : list number) :
  P x -> Forall P l -> Forall P (sort_insert f x l).
Proof.
  intros Hx Hl. induction Hl as [|y l Hy Hl IH]; simpl.
  - constructor; [exact Hx|constructor].
  - destruct (0 <? f x y); repeat constructor; assumption.
Qed.

Lemma Array_sort_Forall (P : number -> Prop) (f : number -> number -> number)
    (l : list number) :
  Forall P l -> Forall P (Array_sort f l).
Proof.
  unfold Array_sort. induction 1 as [|x l Hx Hl IH]; simpl.
  - constructor.
  - apply sort_insert_Forall; assumption.
Qed.


(* ================================================================== *)
(** ** The gesture-to-value mapper: step quantisation *)
(* ================================================================== *)

Lemma float_neq (a b : number) :
  is_nan a = false -> (a =? b) = false -> a <> b.
Proof.
  intros Hn H E. subst b. apply cmp_refl, eqb_cmp in Hn. congruence.
Qed.

Lemma _getValue_unrestricted (s : Slider) (h : store) (g : GestureState) :
  restricted s = false ->
  _getValue s h g =
  Math_max (minimumValue (props s))
           (Math_min (maximumValue (props s)) (targetValue s g)).
Proof.
  intros Hr. unfold _getValue, minValue, maxValue. rewrite Hr. reflexivity.
Qed.

(** C1, as stated: the claim says a drag ratio of 0.23 with [step=5] over
    [0..100] yields 20.  On the stepped slider a 23-pixel drag over 100
    usable pixels has ratio 0.23, and the mapper returns 25, not 20. *)
Lemma C1_ratio_023_does_not_map_to_20 :
  step (props (snd stepped)) = 5 /\
  minimumValue (props (snd stepped)) = 0 /\
  maximumValue (props (snd stepped)) = 100 /\
  dragRatio (snd stepped) drag23 = 0.23 /\
  _getValue (snd stepped) (fst stepped) drag23 = 25 /\
  _getValue (snd stepped) (fst stepped) drag23 <> 20.
Proof.
  repeat split; try reflexivity.
  apply float_neq; reflexivity.
Qed.

(** C1, amended: with a truthy [step] the mapper rounds
    [(ratio * range) / step] to the nearest integer, multiplies back by
    [step], adds [minimumValue] and clamps to [minValue, maxValue]; with
    [step=5] over [0..100] a drag ratio of 0.23 maps to 25, the multiple of
    5 nearest to 23. *)
Theorem C1_step_quantization (s : Slider) (h : store) (g : GestureState) :
  truthy (step (props s)) = true ->
  _getValue s h g =
    Math_max (minValue s h)
      (Math_min (maxValue s h)
         (minimumValue (props s)
          + Math_round (dragRatio s g
                        * (maximumValue (props s) - minimumValue (props s))
                        / step (props s))
            * step (props s)))
  /\ (step (props s) = 5 -> minimumValue (props s) = 0 ->
      maximumValue (props s) = 100 -> restricted s = false ->
      dragRatio s g = 0.23 ->
      _getValue s h g = 25).
Proof.
  intros Hs. split.
  - unfold _getValue, targetValue. rewrite Hs. reflexivity.
  - intros H5 H0 H100 Hr Hq.
    rewrite (_getValue_unrestricted s h g Hr). unfold targetValue.
    rewrite Hs, Hq, H0, H100, H5. reflexivity.
Qed.

Lemma C1_step_quantization_witness :
  truthy (step (props (snd stepped))) = true /\
  _getValue (snd stepped) (fst stepped) drag23 = 25.
Proof.
  split; [reflexivity|].
  apply (C1_step_quantization (snd stepped) (fst stepped) drag23); reflexivity.
Defined.

(* ================================================================== *)
(** ** The value normaliser *)
(* ================================================================== *)

(** C10: a scalar input of exactly 0 is falsy, so [normalizeValue] takes
    the empty-input branch: [[0]] in single mode whatever the bounds are,
    [[minimumValue, maximumValue]] in dual mode; the scalar is neither
    clamped nor widened into a window. *)
Theorem C10_scalar_zero_takes_empty_branch (p : SliderProps) :
  emptyInput (Scalar 0) = true /\
  normalizeValue p (Scalar 0) =
    (if dualSlider p then [minimumValue p; maximumValue p] else [0]) /\
  normalizeValue p (Scalar 0) = normalizeValue p Absent.
Proof. repeat split. Qed.

(** C10, on an instance: over [5..10] the scalar 0 normalises to [[0]],
    outside the range, where clamping would have given [[5]]. *)
Example normalize_zero_outside_range :
  normalizeValue single5to10 (Scalar 0) = [0] /\
  inRange single5to10 0 = false /\
  getBetweenValue single5to10 0 = 5.
Proof. repeat split. Qed.

(** C6, as stated: the claim places the window around the element as
    given.  Over [0..100] the element 200 normalises to [[90, 100]], the
    window around the clamped element, while the stated formula gives
    [[190, 100]]. *)
Lemma C6_window_is_around_clamped_element :
  dualSlider dual100 = true /\
  normalizeValue dual100 (Sequence [200]) = [90; 100] /\
  specWindow dual100 200 = [190; 100] /\
  normalizeValue dual100 (Sequence [200]) <> specWindow dual100 200.
Proof.
  repeat split; try reflexivity.
  intros E. apply (f_equal (fun l => default 0 (head l))) in E.
  revert E. apply float_neq; reflexivity.
Qed.

(** C6, amended: in dual mode a one-element sequence [[v]] yields the
    10%-of-range window around [v] clamped to the bounds, each end clamped
    again; a sequence of two or more elements yields its first two
    elements clamped, swapped when crossover is disallowed and the first
    exceeds the second, in the given order otherwise. *)
Theorem C6_dual_normalization (p : SliderProps) :
  dualSlider p = true ->
  (forall v,
     normalizeValue p (Sequence [v]) =
       let c := getBetweenValue p v in
       let range := (maximumValue p - minimumValue p) * 0.1 in
       [Math_max (c - range) (minimumValue p);
        Math_min (c + range) (maximumValue p)]) /\
  (forall v1 v2 rest,
     normalizeValue p (Sequence (v1 :: v2 :: rest)) =
       let val1 := getBetweenValue p v1 in
       let val2 := getBetweenValue p v2 in
       if negb (allowCrossover p) && gtb val1 val2
       then [val2; val1] else [val1; val2]) /\
  (forall v1 v2 rest,
     allowCrossover p = true ->
     normalizeValue p (Sequence (v1 :: v2 :: rest)) =
       [getBetweenValue p v1; getBetweenValue p v2]).
Proof.
  intros Hd. unfold normalizeValue. simpl. rewrite Hd.
  repeat split; intros; try reflexivity.
  rewrite H. reflexivity.
Qed.

Lemma C6_dual_normalization_witness :
  normalizeValue dual100 (Sequence [50]) = [40; 60] /\
  normalizeValue dual10 (Sequence [7; 3]) = [7; 3] /\
  normalizeValue (withProps defaultProps 0 10 0 Absent true false)
                 (Sequence [7; 3]) = [3; 7].
Proof.
  pose proof (C6_dual_normalization dual100 eq_refl) as (H1 & _ & _).
  pose proof (C6_dual_normalization dual10 eq_refl) as (_ & _ & H2).
  pose proof (C6_dual_normalization
                (withProps defaultProps 0 10 0 Absent true false) eq_refl)
    as (_ & H3 & _).
  split; [|split].
  - rewrite H1. reflexivity.
  - rewrite H2; reflexivity.
  - rewrite H3. reflexivity.
Defined.

(** C2, as stated: the claim bounds the output for every input, an absent
    one included.  Over [5..10] in single mode the absent input normalises
    to [[0]], and 0 is below [minimumValue]. *)
Lemma C2_absent_input_escapes_bounds :
  (minimumValue single5to10 <=? maximumValue single5to10) = true /\
  normalizeValue single5to10 Absent = [0] /\
  inRange single5to10 0 = false /\
  ~ Forall (fun x => inRange single5to10 x = true)
           (normalizeValue single5to10 Absent).
Proof.
  split; [reflexivity|]. split; [reflexivity|]. split; [reflexivity|].
  intros H. apply Forall_cons in H as [H _]. discriminate.
Qed.

(** Two more inputs that leave the bounds: a [NaN] element stays [NaN],
    and with an infinite bound the window of an infinite element has a
    [NaN] end. *)
Example normalize_NaN_element :
  normalizeValue dual100 (Sequence [nan; 5]) = [nan; 5].
Proof. reflexivity. Qed.

Example normalize_infinite_bound :
  normalizeValue (withProps defaultProps 0 infinity 0 Absent true true)
                 (Sequence [infinity]) = [nan; infinity].
Proof. reflexivity. Qed.

(** C2, amended: for every configuration with
    [minimumValue <= maximumValue] and every input without a [NaN]
    element: an absent, empty or falsy scalar input in single mode
    normalises to [[0]] whatever the bounds are; every other input
    normalises to an array whose elements all lie within
    [[minimumValue, maximumValue]], provided, for a one-element array in
    dual mode, that the bounds are finite. *)
Theorem C2_normalize_within_bounds (p : SliderProps) (v : RawValue) :
  (minimumValue p <=? maximumValue p) = true ->
  noNaN v = true ->
  (emptyInput v = true -> dualSlider p = false -> normalizeValue p v = [0]) /\
  ((emptyInput v = false \/ dualSlider p = true) ->
   (oneElementDual p v = true ->
      is_finite (minimumValue p) = true /\ is_finite (maximumValue p) = true) ->
   Forall (fun x => inRange p x = true) (normalizeValue p v)).
Proof.
  intros Hle Hnn. destruct (leb_nan _ _ Hle) as [Hlo Hhi]. split.
  { intros He Hd. unfold normalizeValue. rewrite He, Hd. reflexivity. }
  intros Hcase Hfin. unfold normalizeValue.
  destruct (emptyInput v) eqn:He.
  { destruct Hcase as [Hcase|Hd]; [discriminate|]. rewrite Hd.
    repeat constructor; apply inRange_spec; auto using leb_refl. }
  destruct v as [|x|l]; [discriminate| |].
  - constructor; [|constructor]. apply getBetweenValue_inRange; [exact Hle|].
    simpl in He. unfold truthy in He.
    rewrite negb_false_iff, negb_true_iff, orb_false_iff in He. apply He.
  - assert (Hall : Forall (fun x => inRange p x = true) (map (getBetweenValue p) l)).
    { simpl in Hnn. rewrite forallb_forall in Hnn.
      apply Forall_forall. intros y Hy. apply list_elem_of_In, in_map_iff in Hy.
      destruct Hy as (x & <- & Hx). apply getBetweenValue_inRange; [exact Hle|].
      apply negb_true_iff, Hnn, Hx. }
    cbn zeta. destruct (dualSlider p) eqn:Hd.
    + destruct l as [|x1 [|x2 rest]]; simpl in *; [discriminate| |].
      * unfold oneElementDual in Hfin. rewrite Hd in Hfin.
        destruct (Hfin eq_refl) as [Hf1 Hf2].
        apply Forall_cons in Hall as [Hc _].
        destruct (window_inRange p _ Hf1 Hf2 Hle Hc) as [H1 H2].
        constructor; [exact H1|]. constructor; [exact H2|constructor].
      * apply Forall_cons in Hall as [H1 Hall].
        apply Forall_cons in Hall as [H2 _].
        destruct (negb (allowCrossover p) && _); repeat constructor; assumption.
    + apply Array_sort_Forall, Hall.
Qed.

Lemma C2_normalize_within_bounds_witness :
  normalizeValue single5to10 Absent = [0] /\
  Forall (fun x => inRange dual100 x = true)
         (normalizeValue dual100 (Sequence [50])) /\
  Forall (fun x => inRange single5to10 x = true)
         (normalizeValue single5to10 (Sequence [7; 3; 12; -4])).
Proof.
  destruct (C2_normalize_within_bounds single5to10 Absent eq_refl eq_refl)
    as [H1 _].
  destruct (C2_normalize_within_bounds dual100 (Sequence [50]) eq_refl eq_refl)
    as [_ H2].
  destruct (C2_normalize_within_bounds single5to10 (Sequence [7; 3; 12; -4])
              eq_refl eq_refl) as [_ H3].
  split; [exact (H1 eq_refl eq_refl)|]. split.
  - apply H2; [left; reflexivity|]. intros _. split; reflexivity.
  - apply H3; [left; reflexivity|]. intros H. discriminate.
Defined.

(* ================================================================== *)
(** ** The gesture-to-value mapper: separation of two thumbs *)
(* ================================================================== *)

Lemma truthy_nonneg (x : number) : (0 <=? x) = true -> truthy x = (0 <? x).
Proof.
  intros H. unfold truthy. destruct (leb_nan _ _ H) as [_ Hx]. rewrite Hx.
  simpl. apply leb_cmp in H as [H|H].
  - rewrite (proj2 (ltb_cmp 0 x) H).
    destruct (x =? 0) eqn:E; [|reflexivity].
    apply eqb_cmp in E. rewrite cmp_antisym, H in E. discriminate.
  - assert (E : (x =? 0) = true).
    { apply eqb_cmp. rewrite cmp_antisym, H. reflexivity. }
    rewrite E. simpl. symmetry.
    destruct (0 <? x) eqn:E'; [|reflexivity].
    apply ltb_cmp in E'. congruence.
Qed.

Lemma clamp_below (lo hi t : number) :
  is_nan hi = false -> (t <? lo) = true ->
  Math_max lo (Math_min hi t) = lo.
Proof.
  intros Hhi Ht. destruct (ltb_nan _ _ Ht) as [Hnt _].
  apply Math_max_lt.
  destruct (Math_min_cases hi t Hhi Hnt) as [[-> Hle]|[-> _]].
  - eapply leb_ltb_trans; eassumption.
  - exact Ht.
Qed.

Lemma clamp_above (lo hi t : number) :
  (lo <? hi) = true -> (hi <? t) = true ->
  Math_max lo (Math_min hi t) = hi.
Proof.
  intros Hlo Ht. rewrite (Math_min_lt _ _ Ht). apply Math_max_gt, Hlo.
Qed.

(** C5: with two thumbs and crossover disallowed the active thumb's range
    is cut by a buffer ([step] when positive, else 0.1): thumb 1 may not
    go below the other thumb's value plus the buffer, thumb 0 not above the
    other thumb's value minus the buffer.  With [step=0] and the thumbs at
    40 and 60, a drag of thumb 1 that targets a value below 40.1 yields
    40.1 and a drag of thumb 0 that targets a value above 59.9 yields
    59.9. *)
Theorem C5_separation_buffer (s : Slider) (h : store) (g : GestureState) :
  length (values (state s)) = 2%nat ->
  allowCrossover (props s) = false ->
  (0 <=? step (props s)) = true ->
  buffer s = (if 0 <? step (props s) then step (props s) else 0.1) /\
  _getValue s h g = Math_max (minValue s h) (Math_min (maxValue s h) (targetValue s g)) /\
  (_activeThumbIndex s = 1%nat ->
     minValue s h = rawValue s h 0 + buffer s /\
     maxValue s h = maximumValue (props s)) /\
  (_activeThumbIndex s = 0%nat ->
     maxValue s h = rawValue s h 1 - buffer s /\
     minValue s h = minimumValue (props s)) /\
  (step (props s) = 0 -> rawValue s h 0 = 40 -> rawValue s h 1 = 60 ->
   (minimumValue (props s) <=? 40) = true ->
   (60 <=? maximumValue (props s)) = true ->
     (_activeThumbIndex s = 1%nat -> (targetValue s g <? 40.1) = true ->
        _getValue s h g = 40.1) /\
     (_activeThumbIndex s = 0%nat -> (59.9 <? targetValue s g) = true ->
        _getValue s h g = 59.9)).
Proof.
  intros Hlen Hc Hstep.
  assert (Hb : buffer s = (if 0 <? step (props s) then step (props s) else 0.1)).
  { unfold buffer. rewrite (truthy_nonneg _ Hstep). reflexivity. }
  assert (Hr : restricted s = true).
  { unfold restricted. rewrite Hlen, Hc. reflexivity. }
  assert (H1 : _activeThumbIndex s = 1%nat ->
               minValue s h = rawValue s h 0 + buffer s /\
               maxValue s h = maximumValue (props s)).
  { intros Ha. unfold minValue, maxValue. rewrite Hr, Ha. split; reflexivity. }
  assert (H0 : _activeThumbIndex s = 0%nat ->
               maxValue s h = rawValue s h 1 - buffer s /\
               minValue s h = minimumValue (props s)).
  { intros Ha. unfold minValue, maxValue. rewrite Hr, Ha. split; reflexivity. }
  split; [exact Hb|]. split; [reflexivity|]. split; [exact H1|]. split; [exact H0|].
  intros Hs0 Hv0 Hv1 Hmin Hmax.
  assert (Hb0 : buffer s = 0.1) by (unfold buffer; rewrite Hs0; reflexivity).
  split; intros Ha Ht; unfold _getValue.
  - destruct (H1 Ha) as [-> ->]. rewrite Hv0, Hb0.
    apply clamp_below; [apply (leb_nan _ _ Hmax)|exact Ht].
  - destruct (H0 Ha) as [-> ->]. rewrite Hv1, Hb0.
    apply clamp_above; [|exact Ht].
    eapply leb_ltb_trans; [exact Hmin|reflexivity].
Qed.

Lemma C5_separation_buffer_witness :
  _getValue (snd range1) (fst range1) drag20 = 40.1 /\
  _getValue (snd range0) (fst range0) drag80 = 59.9.
Proof.
  split.
  - apply (C5_separation_buffer (snd range1) (fst range1) drag20);
      reflexivity.
  - apply (C5_separation_buffer (snd range0) (fst range0) drag80);
      reflexivity.
Defined.

(* ================================================================== *)
(** ** The gesture-to-value mapper: zero track length *)
(* ================================================================== *)

Lemma Prim2SF_nan : Prim2SF nan = S754_nan.
Proof. reflexivity. Qed.

Lemma Prim2SF_zero (a : number) :
  (a =? 0) = true -> exists sg, Prim2SF a = S754_zero sg.
Proof.
  intros H. apply eqb_cmp in H. unfold cmp in H.
  change (Prim2SF 0) with (S754_zero false) in H.
  destruct (Prim2SF a) as [sg|[]| |[] m e]; try discriminate. eauto.
Qed.

Lemma div_zero_zero (a b : number) :
  (a =? 0) = true -> (b =? 0) = true -> a / b = nan.
Proof.
  intros Ha Hb. apply Prim2SF_zero in Ha as [sa Ha], Hb as [sb Hb].
  apply Prim2SF_inj. rewrite div_spec, Ha, Hb. reflexivity.
Qed.

Lemma sub_nan_r (a : number) : a - nan = nan.
Proof.
  apply Prim2SF_inj. rewrite sub_spec, Prim2SF_nan.
  destruct (Prim2SF a) as [[]|[]| |[] m e]; reflexivity.
Qed.

Lemma add_nan_l (a : number) : nan + a = nan.
Proof. apply Prim2SF_inj. rewrite add_spec, Prim2SF_nan. reflexivity. Qed.

Lemma add_nan_r (a : number) : a + nan = nan.
Proof.
  apply Prim2SF_inj. rewrite add_spec, Prim2SF_nan.
  destruct (Prim2SF a) as [[]|[]| |[] m e]; reflexivity.
Qed.

Lemma mul_nan_l (a : number) : nan * a = nan.
Proof. apply Prim2SF_inj. rewrite mul_spec, Prim2SF_nan. reflexivity. Qed.

Lemma div_nan_l (a : number) : nan / a = nan.
Proof. apply Prim2SF_inj. rewrite div_spec, Prim2SF_nan. reflexivity. Qed.

Lemma ltb_nan_l (a : number) : (nan <? a) = false.
Proof.
  destruct (nan <? a) eqn:E; [|reflexivity].
  apply ltb_nan in E as [E _]. discriminate.
Qed.

Lemma ltb_nan_r (a : number) : (a <? nan) = false.
Proof.
  destruct (a <? nan) eqn:E; [|reflexivity].
  apply ltb_nan in E as [_ E]. discriminate.
Qed.

Lemma dragRatio_zero_over_zero (s : Slider) (g : GestureState) :
  (trackLength s =? 0) = true -> (thumbLeft s g =? 0) = true ->
  dragRatio s g = nan.
Proof.
  intros Hl Ht. unfold dragRatio, nonRtlRatio.
  rewrite (div_zero_zero _ _ Ht Hl). destruct (isRTL s); [apply sub_nan_r|reflexivity].
Qed.

Lemma targetValue_nan (s : Slider) (g : GestureState) :
  dragRatio s g = nan -> targetValue s g = nan.
Proof.
  intros Hr. unfold targetValue. rewrite Hr. destruct (truthy _).
  - rewrite mul_nan_l, div_nan_l.
    change (Math_round nan) with nan. rewrite mul_nan_l. apply add_nan_r.
  - rewrite mul_nan_l. apply add_nan_l.
Qed.

Lemma crossoverClamp_nan (s : Slider) (h : store) (i : nat) :
  crossoverClamp s h nan i = nan.
Proof.
  unfold crossoverClamp, gtb. rewrite ltb_nan_l, ltb_nan_r, !andb_false_r.
  repeat match goal with |- context [if ?b then _ else _] => destruct b end;
    reflexivity.
Qed.

(** A target that is a number is brought into [[minValue, maxValue]] by
    the final clamp, whatever its size. *)
Lemma _getValue_clamped (s : Slider) (h : store) (g : GestureState) :
  is_nan (targetValue s g) = false ->
  (minValue s h <=? maxValue s h) = true ->
  (minValue s h <=? _getValue s h g) = true /\
  (_getValue s h g <=? maxValue s h) = true.
Proof.
  intros Ht Hle. destruct (leb_nan _ _ Hle) as [Hlo Hhi]. unfold _getValue.
  destruct (Math_min_cases (maxValue s h) (targetValue s g) Hhi Ht)
    as [[-> H1]|[-> H1]].
  - destruct (Math_max_cases (minValue s h) (maxValue s h) Hlo Hhi)
      as [[-> H2]|[-> H2]]; split; auto using leb_refl.
  - destruct (Math_max_cases (minValue s h) (targetValue s g) Hlo Ht)
      as [[-> H2]|[-> H2]]; split; auto using leb_refl.
Qed.

(** C3, as stated: the claim says a zero track length never lets [NaN]
    through.  On a slider that has not been measured, a touch at the origin
    followed by a move of no distance divides 0 by 0: the mapper returns
    [NaN], and the move handler stores it in the thumb's cell and reports
    it. *)
Lemma C3_unmeasured_drag_stores_NaN :
  _handlePanResponderGrant (snd unmeasured) (fst unmeasured) origin
    = Some {| instance := snd unmeasured; cells := fst unmeasured;
              emitted := [onSlidingStart [0] 0]; requested := None |} /\
  trackLength (snd unmeasured) = 0 /\
  _getValue (snd unmeasured) (fst unmeasured) still = nan /\
  _handlePanResponderMove (snd unmeasured) (fst unmeasured) still
    = {| instance := snd unmeasured; cells := [0; nan];
         emitted := [onValueChange [nan] 0]; requested := None |}.
Proof. repeat split. Qed.

(** With crossed limits the lower one is returned, and a limit that is
    [NaN] makes the result [NaN]. *)
Lemma _getValue_crossed (s : Slider) (h : store) (g : GestureState) :
  is_nan (targetValue s g) = false ->
  (maxValue s h <? minValue s h) = true ->
  _getValue s h g = minValue s h.
Proof.
  intros Ht Hx. destruct (ltb_nan _ _ Hx) as [Hhi Hlo].
  unfold _getValue. apply Math_max_lt.
  destruct (Math_min_cases (maxValue s h) (targetValue s g) Hhi Ht)
    as [[-> _]|[-> H1]]; [exact Hx|].
  eapply leb_ltb_trans; eassumption.
Qed.

Lemma _getValue_nan_limit (s : Slider) (h : store) (g : GestureState) :
  is_nan (minValue s h) = true \/ is_nan (maxValue s h) = true ->
  _getValue s h g = nan.
Proof.
  intros [H|H]; unfold _getValue.
  - unfold Math_max. rewrite H. reflexivity.
  - assert (E : Math_min (maxValue s h) (targetValue s g) = nan).
    { unfold Math_min. rewrite H. reflexivity. }
    rewrite E. apply Math_max_nan_r.
Qed.

(** C3, amended: the ratio is computed without a guard.  When the usable
    track length is zero and the thumb's pixel position is zero, the ratio
    is [0/0 = NaN], the mapper returns [NaN], and the move handler of an
    enabled slider writes it into the active thumb's cell and reports it.
    A target that is not [NaN] (an infinite one included) is clamped into
    [[minValue, maxValue]] when [minValue <= maxValue]; when the limits
    are crossed ([maxValue < minValue]) the mapper returns [minValue]; and
    when a limit is itself [NaN] the mapper returns [NaN]. *)
Theorem C3_ratio_is_not_guarded (s : Slider) (h : store) (g : GestureState) :
  ((trackLength s =? 0) = true -> (thumbLeft s g =? 0) = true ->
     dragRatio s g = nan /\
     _getValue s h g = nan /\
     forall c, disabled (props s) = false ->
       values (state s) !! _activeThumbIndex s = Some c ->
       cells (_handlePanResponderMove s h g) = setValue h c nan /\
       emitted (_handlePanResponderMove s h g) =
         [onValueChange (_getRawValues (setValue h c nan) (values (state s)))
                        (_activeThumbIndex s)]) /\
  (is_nan (targetValue s g) = false ->
   (minValue s h <=? maxValue s h) = true ->
     (minValue s h <=? _getValue s h g) = true /\
     (_getValue s h g <=? maxValue s h) = true) /\
  (is_nan (targetValue s g) = false ->
   (maxValue s h <? minValue s h) = true ->
     _getValue s h g = minValue s h) /\
  (is_nan (minValue s h) = true \/ is_nan (maxValue s h) = true ->
     _getValue s h g = nan).
Proof.
  split; [|split; [apply _getValue_clamped|
                   split; [apply _getValue_crossed|apply _getValue_nan_limit]]].
  intros Hl Ht.
  pose proof (dragRatio_zero_over_zero s g Hl Ht) as Hr.
  assert (Hv : _getValue s h g = nan).
  { unfold _getValue. rewrite (targetValue_nan s g Hr), Math_min_nan_r.
    apply Math_max_nan_r. }
  split; [exact Hr|]. split; [exact Hv|].
  intros c Hd Hc. unfold _handlePanResponderMove, _setCurrentValue.
  rewrite Hd, Hv, Hc, crossoverClamp_nan. split; reflexivity.
Qed.

Lemma C3_ratio_is_not_guarded_witness :
  _getValue (snd unmeasured) (fst unmeasured) still = nan /\
  cells (_handlePanResponderMove (snd unmeasured) (fst unmeasured) still)
    = [0; nan] /\
  (0 <=? _getValue (snd stepped) (fst stepped) drag23) = true /\
  (_getValue (snd stepped) (fst stepped) drag23 <=? 100) = true /\
  _getValue (snd pinned) (fst pinned) drag20 = minValue (snd pinned) (fst pinned).
Proof.
  destruct (C3_ratio_is_not_guarded (snd unmeasured) (fst unmeasured) still)
    as [H _].
  destruct (H eq_refl eq_refl) as (_ & Hv & Hm).
  destruct (Hm 1%nat eq_refl eq_refl) as [Hc _].
  destruct (C3_ratio_is_not_guarded (snd stepped) (fst stepped) drag23)
    as (_ & H' & _).
  destruct (H' eq_refl eq_refl) as [Hlo Hhi].
  destruct (C3_ratio_is_not_guarded (snd pinned) (fst pinned) drag20)
    as (_ & _ & Hx & _).
  split; [exact Hv|]. split; [exact Hc|]. split; [exact Hlo|].
  split; [exact Hhi|]. exact (Hx eq_refl eq_refl).
Defined.

(* ================================================================== *)
(** ** The pan-responder handlers *)
(* ================================================================== *)

Lemma move_disabled (s : Slider) (h : store) (g : GestureState) :
  disabled (props s) = true -> _handlePanResponderMove s h g = unchanged s h.
Proof. intros H. unfold _handlePanResponderMove. rewrite H. reflexivity. Qed.

Lemma end_disabled (s : Slider) (h : store) (g : GestureState) :
  disabled (props s) = true -> _handlePanResponderEnd s h g = unchanged s h.
Proof. intros H. unfold _handlePanResponderEnd. rewrite H. reflexivity. Qed.

(** The grant handler never reads [disabled]: whenever it returns, it has
    made the sliding-start call. *)
Lemma grant_always_notifies (s : Slider) (h : store) (e : NativeEvent) (o : Outcome) :
  _handlePanResponderGrant s h e = Some o ->
  emitted o = [onSlidingStart (_getRawValues h (values (state s)))
                              (_activeThumbIndex s)].
Proof.
  unfold _handlePanResponderGrant. intros H.
  destruct (if trackClickable (props s) then _ else _); simpl in H;
    [|discriminate].
  injection H as <-. reflexivity.
Qed.

(** C4, on the code: with [disabled] set, the move and release handlers do
    nothing, but the grant handler still runs: a touch on the disabled
    slider moves the drag anchor and makes the sliding-start call. *)
Theorem C4_disabled_grant_still_notifies :
  disabled (props (snd disabledSlider)) = true /\
  (emitted <$> _handlePanResponderGrant (snd disabledSlider) (fst disabledSlider) touch30)
    = Some [onSlidingStart [0] 0] /\
  (_previousLeft <$> (instance <$>
     _handlePanResponderGrant (snd disabledSlider) (fst disabledSlider) touch30))
    = Some 10 /\
  _previousLeft (snd disabledSlider) = 0 /\
  _handlePanResponderMove (snd disabledSlider) (fst disabledSlider) drag23
    = unchanged (snd disabledSlider) (fst disabledSlider) /\
  _handlePanResponderEnd (snd disabledSlider) (fst disabledSlider) drag23
    = unchanged (snd disabledSlider) (fst disabledSlider).
Proof. repeat split. Qed.

(** C9, as stated: the claim has every release emit a value-changed call
    before the slide-complete call.  On an enabled slider whose track is
    not clickable, the release emits the slide-complete call alone. *)
Lemma C9_release_without_value_changed :
  disabled (props (snd unclickable)) = false /\
  trackClickable (props (snd unclickable)) = false /\
  emitted (_handlePanResponderEnd (snd unclickable) (fst unclickable) drag23)
    = [onSlidingComplete [23] 0].
Proof. repeat split. Qed.

(** C9, amended: on release of an enabled slider whose active thumb has a
    cell, the mapped value is first written to that cell; then, only when
    the track is clickable, a value-changed call is made with the full
    current values and the active index; then the slide-complete call is
    made with the same arguments, so it is the last call of the gesture;
    and the active index is 0 afterwards.  On a disabled slider the release
    does nothing, and leaves the active index as it was. *)
Theorem C9_release_notifications (s : Slider) (h : store) (g : GestureState) :
  (forall c, disabled (props s) = false ->
     values (state s) !! _activeThumbIndex s = Some c ->
     let o := _handlePanResponderEnd s h g in
     let current := _getRawValues (cells o) (values (state s)) in
     cells o = setValue h c (crossoverClamp s h (_getValue s h g) (_activeThumbIndex s)) /\
     emitted o =
       (if trackClickable (props s)
        then [onValueChange current (_activeThumbIndex s)] else [])
       ++ [onSlidingComplete current (_activeThumbIndex s)] /\
     last (emitted o) = Some (onSlidingComplete current (_activeThumbIndex s)) /\
     _activeThumbIndex (instance o) = 0%nat) /\
  (disabled (props s) = true ->
     _handlePanResponderEnd s h g = unchanged s h).
Proof.
  split; [|apply end_disabled].
  intros c Hd Hc. unfold _handlePanResponderEnd, _setCurrentValue.
  rewrite Hd, Hc. simpl. repeat split.
  destruct (trackClickable (props s)); reflexivity.
Qed.

Lemma C9_release_notifications_witness :
  emitted (_handlePanResponderEnd (snd clickable) (fst clickable) drag23)
    = [onValueChange [23] 0; onSlidingComplete [23] 0] /\
  emitted (_handlePanResponderEnd (snd unclickable) (fst unclickable) drag23)
    = [onSlidingComplete [23] 0] /\
  _handlePanResponderEnd (snd disabledSlider) (fst disabledSlider) drag23
    = unchanged (snd disabledSlider) (fst disabledSlider).
Proof.
  destruct (C9_release_notifications (snd clickable) (fst clickable) drag23)
    as [H1 _].
  destruct (H1 1%nat eq_refl eq_refl) as (_ & E1 & _).
  destruct (C9_release_notifications (snd unclickable) (fst unclickable) drag23)
    as [H2 _].
  destruct (H2 1%nat eq_refl eq_refl) as (_ & E2 & _).
  destruct (C9_release_notifications (snd disabledSlider) (fst disabledSlider) drag23)
    as [_ H3].
  split; [exact E1|]. split; [exact E2|exact (H3 eq_refl)].
Defined.

(* ================================================================== *)
(** ** The value store *)
(* ================================================================== *)

Lemma updateEach_cells (cs : list cell) (h : store) (ns : list number) (i : nat) :
  (i + length cs <= length ns)%nat ->
  updateEach h (map Cell cs) (map Num ns) i = (writeCells h cs (drop i ns), cs).
Proof.
  revert h i. induction cs as [|c cs IH]; intros h i Hlen; simpl in *.
  - reflexivity.
  - destruct (lookup_lt_is_Some_2 ns i ltac:(lia)) as [x Hx].
    rewrite list_lookup_fmap, Hx. simpl.
    rewrite (IH (setValue h c x) (S i)) by lia.
    rewrite (drop_S _ _ _ Hx). reflexivity.
Qed.

Lemma updateEach_numbers (xs : list number) (h : store) (ns : list number) (i : nat) :
  drop i ns = xs ->
  updateEach h (map Num xs) (map Num ns) i = (h ++ xs, seq (length h) (length xs)).
Proof.
  revert h i. induction xs as [|x xs IH]; intros h i Hd; simpl.
  - rewrite app_nil_r. reflexivity.
  - assert (Hx : ns !! i = Some x).
    { rewrite <- (Nat.add_0_r i), <- lookup_drop, Hd. reflexivity. }
    rewrite list_lookup_fmap, Hx. simpl.
    rewrite (drop_S _ _ _ Hx) in Hd. injection Hd as Hd.
    rewrite (IH (h ++ [x]) (S i) Hd), length_app, <- app_assoc. simpl.
    rewrite Nat.add_1_r. reflexivity.
Qed.

Lemma writeCells_length (cs : list cell) (h : store) (xs : list number) :
  length (writeCells h cs xs) = length h.
Proof.
  revert h xs. induction cs as [|c cs IH]; intros h [|x xs]; simpl; try reflexivity.
  rewrite IH. apply length_insert.
Qed.

Lemma writeCells_frame (cs : list cell) (h : store) (xs : list number) (c : cell) :
  c ∉ cs -> writeCells h cs xs !! c = h !! c.
Proof.
  revert h xs. induction cs as [|c' cs IH]; intros h [|x xs] Hc; simpl;
    try reflexivity.
  apply not_elem_of_cons in Hc as [Hne Hc].
  rewrite IH by exact Hc. apply list_lookup_insert_ne. congruence.
Qed.

Lemma writeCells_contents (cs : list cell) (h : store) (xs : list number) :
  NoDup cs -> Forall (fun c => (c < length h)%nat) cs -> length xs = length cs ->
  _getRawValues (writeCells h cs xs) cs = xs.
Proof.
  revert h xs. induction cs as [|c cs IH]; intros h [|x xs] Hnd Hv Hlen;
    simpl in *; try discriminate; try reflexivity.
  apply NoDup_cons in Hnd as [Hc Hnd]. apply Forall_cons in Hv as [Hlt Hv].
  f_equal.
  - unfold __getValue. rewrite writeCells_frame by exact Hc.
    unfold setValue. rewrite list_lookup_insert_eq by exact Hlt. reflexivity.
  - apply IH; [exact Hnd| |lia].
    unfold setValue. eapply Forall_impl; [exact Hv|].
    intros c' Hc'. simpl. rewrite length_insert. exact Hc'.
Qed.

Lemma reconcile_same_length (h : store) (cs : list cell) (ns : list number) :
  length ns = length cs -> reconcile h cs ns = (writeCells h cs ns, cs).
Proof.
  intros Hlen. unfold reconcile, updateValues. simpl.
  rewrite !length_map, Hlen, Nat.eqb_refl. simpl.
  apply (updateEach_cells cs h ns 0). lia.
Qed.

Lemma reconcile_other_length (h : store) (cs : list cell) (ns : list number) :
  length ns <> length cs ->
  reconcile h cs ns = (h ++ ns, seq (length h) (length ns)).
Proof.
  intros Hlen. unfold reconcile, updateValues. simpl.
  rewrite !length_map. apply Nat.eqb_neq in Hlen. rewrite Hlen. simpl.
  apply (updateEach_numbers ns h ns 0). reflexivity.
Qed.

(** C7: reconciling cells against new values of the same length returns
    the very same handles, index by index; it allocates nothing, leaves
    every other cell alone, and (the handles being distinct cells of the
    store) each cell then holds its new value.  Only when the lengths
    differ is a fresh list built: the new handles are the next free ones,
    and the old store is left as it was. *)
Theorem C7_reconcile_preserves_identity
    (h : store) (cs : list cell) (newValues : list number) :
  (length newValues = length cs ->
     snd (reconcile h cs newValues) = cs /\
     length (fst (reconcile h cs newValues)) = length h /\
     (forall c, c ∉ cs -> fst (reconcile h cs newValues) !! c = h !! c) /\
     (NoDup cs -> Forall (fun c => (c < length h)%nat) cs ->
        _getRawValues (fst (reconcile h cs newValues)) cs = newValues)) /\
  (length newValues <> length cs ->
     reconcile h cs newValues
       = (h ++ newValues, seq (length h) (length newValues)) /\
     Forall (fun c => (length h <= c)%nat) (snd (reconcile h cs newValues))).
Proof.
  split.
  - intros Hlen. rewrite (reconcile_same_length h cs newValues Hlen). simpl.
    split; [reflexivity|]. split; [apply writeCells_length|].
    split; [intros c Hc; apply writeCells_frame, Hc|].
    intros Hnd Hv. apply writeCells_contents; assumption.
  - intros Hlen. rewrite (reconcile_other_length h cs newValues Hlen). simpl.
    split; [reflexivity|]. apply Forall_forall. intros c Hc.
    apply list_elem_of_In, in_seq in Hc. lia.
Qed.

Lemma C7_reconcile_preserves_identity_witness :
  reconcile store3 cells12 [10; 90] = ([0; 10; 90], cells12) /\
  reconcile store3 cells12 [5] = ([0; 40; 60; 5], [3%nat]).
Proof.
  destruct (C7_reconcile_preserves_identity store3 cells12 [10; 90]) as [H1 _].
  destruct (H1 eq_refl) as (Hs & _ & _ & Hc).
  destruct (C7_reconcile_preserves_identity store3 cells12 [5]) as [_ H2].
  destruct (H2 ltac:(discriminate)) as [Hf _].
  split; [|exact Hf].
  rewrite (surjective_pairing (reconcile store3 cells12 [10; 90])), Hs.
  reflexivity.
Defined.

(* ================================================================== *)
(** ** The thumb picker *)
(* ================================================================== *)

Lemma _getThumbTouchRect_Some (s : Slider) (h : store) (i : nat) (c : cell) :
  values (state s) !! i = Some c ->
  _getThumbTouchRect s h i = Some (thumbTouchRectAt s (__getValue h c)).
Proof.
  intros H. unfold _getThumbTouchRect, _getCurrentValue. rewrite H. reflexivity.
Qed.

Lemma hits_Some (s : Slider) (h : store) (e : NativeEvent) (i : nat) (c : cell) :
  values (state s) !! i = Some c ->
  hits s h e i =
    containsPoint (thumbTouchRectAt s (__getValue h c)) (locationX e) (locationY e).
Proof.
  intros H. unfold hits. rewrite (_getThumbTouchRect_Some s h i c H). reflexivity.
Qed.

Lemma findHitThumb_miss (s : Slider) (h : store) (e : NativeEvent)
    (pre rest : list nat) :
  Forall (fun j => (j < length (values (state s)))%nat /\ hits s h e j = false) pre ->
  findHitThumb s h e (pre ++ rest) = findHitThumb s h e rest.
Proof.
  induction 1 as [|j pre [Hj Hm] _ IH]; simpl; [reflexivity|].
  destruct (lookup_lt_is_Some_2 _ _ Hj) as [c Hc].
  rewrite (_getThumbTouchRect_Some s h j c Hc). simpl.
  rewrite (hits_Some s h e j c Hc) in Hm. rewrite Hm. exact IH.
Qed.

Lemma findHitThumb_first (s : Slider) (h : store) (e : NativeEvent) (i : nat) :
  (i < length (values (state s)))%nat ->
  hits s h e i = true ->
  (forall j, (j < i)%nat -> hits s h e j = false) ->
  findHitThumb s h e (seq 0 (length (values (state s)))) = Some (Some i).
Proof.
  intros Hi Hh Hfirst.
  replace (length (values (state s))) with (i + S (length (values (state s)) - S i))%nat
    by lia.
  rewrite seq_app. simpl.
  rewrite findHitThumb_miss.
  - simpl. destruct (lookup_lt_is_Some_2 _ _ Hi) as [c Hc].
    rewrite (_getThumbTouchRect_Some s h i c Hc). simpl.
    rewrite (hits_Some s h e i c Hc) in Hh. rewrite Hh. reflexivity.
  - apply Forall_forall. intros j Hj. apply list_elem_of_In, in_seq in Hj.
    split; [lia|apply Hfirst; lia].
Qed.

Lemma findHitThumb_none (s : Slider) (h : store) (e : NativeEvent) :
  (forall j, (j < length (values (state s)))%nat -> hits s h e j = false) ->
  findHitThumb s h e (seq 0 (length (values (state s)))) = Some None.
Proof.
  intros Hm.
  rewrite <- (app_nil_r (seq 0 _)), findHitThumb_miss; [reflexivity|].
  apply Forall_forall. intros j Hj. apply list_elem_of_In, in_seq in Hj.
  split; [lia|apply Hm; lia].
Qed.

Lemma indexOfLowest_two (d0 d1 : number) :
  indexOfLowest [d0; d1] = if d1 <? d0 then 1%nat else 0%nat.
Proof.
  unfold indexOfLowest. simpl. rewrite ltb_irrefl. simpl. reflexivity.
Qed.

Lemma trackDistanceToPoint_inside (r : Rect) (x y : number) :
  containsPoint r x y = true -> trackDistanceToPoint r x = 0.
Proof.
  unfold containsPoint, trackDistanceToPoint, gtb. intros H.
  apply andb_prop in H as [H _]. apply andb_prop in H as [H H2].
  apply andb_prop in H as [H1 _].
  rewrite (leb_not_ltb _ _ H1), (leb_not_ltb _ _ H2). reflexivity.
Qed.

(** C8: the hit-test takes the first thumb, in index order, whose touch
    rectangle contains the point.  When no rectangle contains it and the
    track is clickable with two thumbs, it takes the thumb whose rectangle
    is horizontally nearer (distance 0 for a point within the rectangle's
    span, the gap to the nearer edge otherwise): thumb 1 only when its
    distance is strictly smaller, thumb 0 otherwise, so equal distances
    select thumb 0. *)
Theorem C8_hit_test (s : Slider) (h : store) (e : NativeEvent) :
  (forall i, (i < length (values (state s)))%nat ->
     hits s h e i = true ->
     (forall j, (j < i)%nat -> hits s h e j = false) ->
     _thumbHitTest s h e = Some (true, set_activeThumbIndex s i)) /\
  (forall c0 c1, values (state s) = [c0; c1] ->
     trackClickable (props s) = true ->
     hits s h e 0 = false -> hits s h e 1 = false ->
     let d0 := trackDistanceToPoint (thumbTouchRectAt s (__getValue h c0)) (locationX e) in
     let d1 := trackDistanceToPoint (thumbTouchRectAt s (__getValue h c1)) (locationX e) in
     _thumbHitTest s h e
       = Some (true, set_activeThumbIndex s (if d1 <? d0 then 1%nat else 0%nat)) /\
     (d0 = d1 -> _thumbHitTest s h e = Some (true, set_activeThumbIndex s 0))) /\
  (forall r x,
     trackDistanceToPoint r x =
       if x <? rect_x r then rect_x r - x
       else if rect_x r + rect_width r <? x then x - (rect_x r + rect_width r)
       else 0) /\
  (forall r x y, containsPoint r x y = true -> trackDistanceToPoint r x = 0).
Proof.
  split; [|split; [|split]].
  - intros i Hi Hh Hfirst. unfold _thumbHitTest.
    rewrite (findHitThumb_first s h e i Hi Hh Hfirst). reflexivity.
  - intros c0 c1 Hv Hc H0 H1 d0 d1.
    assert (E : _thumbHitTest s h e
                = Some (true, set_activeThumbIndex s (if d1 <? d0 then 1%nat else 0%nat))).
    { unfold _thumbHitTest. rewrite findHitThumb_none.
      - simpl. rewrite Hc. unfold thumbDistances. rewrite Hv. simpl.
        rewrite (_getThumbTouchRect_Some s h 0 c0) by (rewrite Hv; reflexivity).
        rewrite (_getThumbTouchRect_Some s h 1 c1) by (rewrite Hv; reflexivity).
        simpl. rewrite indexOfLowest_two. reflexivity.
      - rewrite Hv. simpl. intros [|[|j]] Hj; [exact H0|exact H1|lia]. }
    split; [exact E|]. intros Hd. rewrite E. subst d0 d1. rewrite Hd, ltb_irrefl.
    reflexivity.
  - intros r x. reflexivity.
  - apply trackDistanceToPoint_inside.
Qed.

Lemma C8_hit_test_witness :
  _thumbHitTest (snd range0) (fst range0) (touchAt 70)
    = Some (true, set_activeThumbIndex (snd range0) 0) /\
  _thumbHitTest (snd apart) (fst apart) (touchAt 100)
    = Some (true, set_activeThumbIndex (snd apart) 1) /\
  _thumbHitTest (snd apart) (fst apart) (touchAt 70)
    = Some (true, set_activeThumbIndex (snd apart) 0) /\
  _thumbHitTest (snd apart) (fst apart) (touchAt 85)
    = Some (true, set_activeThumbIndex (snd apart) 1).
Proof.
  destruct (C8_hit_test (snd range0) (fst range0) (touchAt 70)) as [H1 _].
  destruct (C8_hit_test (snd apart) (fst apart) (touchAt 100)) as [H2 _].
  destruct (C8_hit_test (snd apart) (fst apart) (touchAt 70)) as (_ & H3 & _).
  destruct (C8_hit_test (snd apart) (fst apart) (touchAt 85)) as (_ & H4 & _).
  split; [|split; [|split]].
  - apply (H1 0%nat); [simpl; lia|reflexivity|intros j Hj; lia].
  - apply (H2 1%nat); [simpl; lia|reflexivity|].
    intros [|j] Hj; [reflexivity|lia].
  - apply (H3 2%nat 3%nat); reflexivity.
  - apply (H4 2%nat 3%nat); reflexivity.
Defined.

(* ================================================================== *)
(** * Further properties of the code *)
(* ================================================================== *)

(** ** The value normaliser: shape of the result *)

Lemma sort_insert_length (f : number -> number -> number) (x : number)
    (l : list number) :
  length (sort_insert f x l) = S (length l).
Proof.
  induction l as [|y l IH]; simpl; [reflexivity|].
  destruct (0 <? f x y); simpl; [rewrite IH|]; reflexivity.
Qed.

Lemma Array_sort_length (f : number -> number -> number) (l : list number) :
  length (Array_sort f l) = length l.
Proof.
  unfold Array_sort. induction l as [|x l IH]; simpl; [reflexivity|].
  rewrite sort_insert_length, IH. reflexivity.
Qed.

(** X1: the number of thumbs [normalizeValue] yields.  An absent, empty or
    falsy input gives two values in dual mode and one otherwise; a truthy
    scalar gives one value, in dual mode too; a non-empty array gives two
    values in dual mode and as many as it has elements otherwise. *)
Theorem normalizeValue_length (p : SliderProps) (v : RawValue) :
  length (normalizeValue p v) =
    if emptyInput v then (if dualSlider p then 2%nat else 1%nat)
    else match v with
         | Sequence l => if dualSlider p then 2%nat else length l
         | _ => 1%nat
         end.
Proof.
  unfold normalizeValue. destruct (emptyInput v) eqn:He.
  - destruct (dualSlider p); reflexivity.
  - destruct v as [|x|l]; try reflexivity. cbn zeta.
    destruct (dualSlider p).
    + destruct l as [|x1 [|x2 rest]]; simpl in *; try discriminate; try reflexivity.
      destruct (negb (allowCrossover p) && _); reflexivity.
    + rewrite Array_sort_length, length_map. reflexivity.
Qed.

(** ** The thumb picker: [indexOfLowest] *)

Lemma lowestFrom_bound (array : list number) (rest : list number) (index lo : nat) :
  (index + length rest <= length array)%nat -> (lo < length array)%nat ->
  (lowestFrom array rest index lo < length array)%nat.
Proof.
  revert index lo. induction rest as [|v rest IH]; intros index lo Hi Hlo; simpl in *.
  - exact Hlo.
  - apply IH; [lia|]. destruct (v <? _); lia.
Qed.

Lemma indexOfLowest_bound (vs : list number) :
  vs <> [] -> (indexOfLowest vs < length vs)%nat.
Proof.
  intros Hne. unfold indexOfLowest. apply lowestFrom_bound; [lia|].
  destruct vs; [congruence|simpl; lia].
Qed.

Lemma lowestFrom_spec (array pre rest : list number) (lo : nat) (vlo : number) :
  array = pre ++ rest ->
  Forall (fun x => is_nan x = false) array ->
  array !! lo = Some vlo -> (lo <= length pre)%nat ->
  (forall j x, (j < length pre)%nat -> array !! j = Some x ->
     (vlo <=? x) = true /\ ((j < lo)%nat -> (vlo <? x) = true)) ->
  exists k vk, lowestFrom array rest (length pre) lo = k /\
    array !! k = Some vk /\
    forall j x, array !! j = Some x ->
      (vk <=? x) = true /\ ((j < k)%nat -> (vk <? x) = true).
Proof.
  revert pre lo vlo. induction rest as [|v rest IH]; intros pre lo vlo Ha Hn Hlo Hle Hinv.
  - simpl. exists lo, vlo. split; [reflexivity|]. split; [exact Hlo|].
    intros j x Hj. apply Hinv; [|exact Hj].
    apply lookup_lt_Some in Hj. rewrite Ha, app_nil_r in Hj. exact Hj.
  - cbn [lowestFrom]. unfold number in *. rewrite Hlo. cbn [default from_option id].
    assert (Hv : array !! length pre = Some v).
    { rewrite Ha. rewrite lookup_app_r by lia. rewrite Nat.sub_diag. reflexivity. }
    assert (Hnv : is_nan v = false).
    { rewrite Forall_forall in Hn. apply Hn. eapply list_elem_of_lookup_2, Hv. }
    assert (Hnlo : is_nan vlo = false).
    { rewrite Forall_forall in Hn. apply Hn. eapply list_elem_of_lookup_2, Hlo. }
    replace (S (length pre)) with (length (pre ++ [v]))
      by (rewrite length_app; simpl; lia).
    destruct (v <? vlo) eqn:E.
    + apply (IH (pre ++ [v]) (length pre) v).
      * rewrite <- app_assoc. exact Ha.
      * exact Hn.
      * exact Hv.
      * rewrite length_app. lia.
      * intros j x Hj Hx. rewrite length_app in Hj. simpl in Hj.
        destruct (Nat.eq_dec j (length pre)) as [->|Hne].
        -- rewrite Hv in Hx. injection Hx as <-.
           split; [apply leb_refl, Hnv|lia].
        -- destruct (Hinv j x ltac:(lia) Hx) as [H1 _].
           assert (Hlt : (v <? x) = true) by (eapply ltb_leb_trans; eassumption).
           split; [apply ltb_leb, Hlt|intros _; exact Hlt].
    + apply (IH (pre ++ [v]) lo vlo).
      * rewrite <- app_assoc. exact Ha.
      * exact Hn.
      * exact Hlo.
      * rewrite length_app. lia.
      * intros j x Hj Hx. rewrite length_app in Hj. simpl in Hj.
        destruct (Nat.eq_dec j (length pre)) as [->|Hne].
        -- rewrite Hv in Hx. injection Hx as <-.
           split; [apply not_ltb_leb; assumption|lia].
        -- apply Hinv; [lia|exact Hx].
Qed.

(** X2: on a non-empty list without [NaN], [indexOfLowest] returns the
    index of the first smallest element: the element there is at most
    every element of the list and strictly below every earlier one. *)
Theorem indexOfLowest_first_minimum (vs : list number) :
  vs <> [] -> Forall (fun x => is_nan x = false) vs ->
  exists vk, vs !! indexOfLowest vs = Some vk /\
    forall j x, vs !! j = Some x ->
      (vk <=? x) = true /\ ((j < indexOfLowest vs)%nat -> (vk <? x) = true).
Proof.
  intros Hne Hn. destruct vs as [|v0 vs']; [congruence|].
  destruct (lowestFrom_spec (v0 :: vs') [] (v0 :: vs') 0 v0 eq_refl Hn eq_refl
              ltac:(simpl; lia)) as (k & vk & Hk & Hvk & Hmin).
  { simpl. intros j x Hj. lia. }
  unfold indexOfLowest. simpl length in Hk. rewrite Hk.
  exists vk. split; [exact Hvk|exact Hmin].
Qed.

Lemma indexOfLowest_first_minimum_witness :
  exists vk, [5; 2; 7; 2] !! indexOfLowest [5; 2; 7; 2] = Some vk /\
             (vk <=? 7) = true /\ (vk <=? 5) = true.
Proof.
  destruct (indexOfLowest_first_minimum [5; 2; 7; 2]) as (vk & Hk & Hmin).
  - discriminate.
  - repeat constructor.
  - exists vk. split; [exact Hk|]. split.
    + apply (Hmin 2%nat 7 eq_refl).
    + apply (Hmin 0%nat 5 eq_refl).
Defined.

(** ** The value store: well-formed handles *)

Lemma validItem_mono (h h' : store) (it : Item) :
  (length h <= length h')%nat -> validItem h it -> validItem h' it.
Proof. destruct it; simpl; [auto|lia]. Qed.

Lemma updateCell_wf (h : store) (v n : Item) :
  validItem h v -> validItem h n ->
  (length h <= length (fst (updateCell h v n)))%nat /\
  (snd (updateCell h v n) < length (fst (updateCell h v n)))%nat.
Proof.
  destruct v as [x|c], n as [y|c']; simpl; intros Hv Hn;
    unfold setValue; rewrite ?length_insert, ?length_app; simpl; lia.
Qed.

Lemma updateEach_wf (vs : list Item) (h : store) (ns : list Item) (i : nat) :
  Forall (validItem h) vs -> Forall (validItem h) ns ->
  length (snd (updateEach h vs ns i)) = length vs /\
  (length h <= length (fst (updateEach h vs ns i)))%nat /\
  Forall (fun c => (c < length (fst (updateEach h vs ns i)))%nat)
         (snd (updateEach h vs ns i)).
Proof.
  revert h i. induction vs as [|v vs IH]; intros h i Hvs Hns; simpl.
  - split; [reflexivity|]. split; [lia|constructor].
  - apply Forall_cons in Hvs as [Hv Hvs].
    assert (Hn : validItem h (default (Num nan) (ns !! i))).
    { destruct (ns !! i) as [n|] eqn:E; simpl; [|exact I].
      rewrite Forall_forall in Hns. apply Hns. eapply list_elem_of_lookup_2, E. }
    pose proof (updateCell_wf h v _ Hv Hn) as [Hlen Hc].
    destruct (updateCell h v (default (Num nan) (ns !! i))) as [h1 c]. simpl in *.
    assert (Hvs1 : Forall (validItem h1) vs)
      by (eapply Forall_impl; [exact Hvs|intros it; apply validItem_mono, Hlen]).
    assert (Hns1 : Forall (validItem h1) ns)
      by (eapply Forall_impl; [exact Hns|intros it; apply validItem_mono, Hlen]).
    destruct (IH h1 (S i) Hvs1 Hns1) as (IH1 & IH2 & IH3).
    destruct (updateEach h1 vs ns (S i)) as [h2 cs]. simpl in *.
    split; [lia|]. split; [lia|]. constructor; [lia|exact IH3].
Qed.

(** X3: [updateValues] on two arrays returns one handle per new value,
    never shrinks the store, and returns only handles of cells that exist
    in the resulting store, provided the handles it was given exist.  On
    anything but two arrays it ignores its arguments and returns a single
    new cell holding 0. *)
Theorem updateValues_well_formed (h : store) (vs ns : list Item) :
  Forall (validItem h) vs -> Forall (validItem h) ns ->
  let r := updateValues h (Many vs) (Some (Many ns)) in
  length (snd r) = length ns /\
  (length h <= length (fst r))%nat /\
  Forall (fun c => (c < length (fst r))%nat) (snd r) /\
  (forall i a, updateValues h (Single i) a = (h ++ [0], [length h])) /\
  (forall i, updateValues h (Many vs) (Some (Single i)) = (h ++ [0], [length h])).
Proof.
  intros Hvs Hns r. subst r. unfold updateValues. simpl.
  split; [|split; [|split; [|split]]].
  - destruct (Nat.eqb (length ns) (length vs)) eqn:E; simpl.
    + apply Nat.eqb_eq in E. rewrite E. apply updateEach_wf; assumption.
    + apply updateEach_wf; assumption.
  - destruct (negb _); apply updateEach_wf; assumption.
  - destruct (negb _); apply updateEach_wf; assumption.
  - intros i a. reflexivity.
  - intros i. reflexivity.
Qed.

Lemma updateValues_well_formed_witness :
  length (snd (updateValues store3 (Many [Cell 1; Cell 2])
                 (Some (Many [Num 7; Cell 0; Num 9])))) = 3%nat.
Proof.
  apply (updateValues_well_formed store3 [Cell 1; Cell 2] [Num 7; Cell 0; Num 9]).
  - repeat constructor.
  - repeat constructor.
Defined.

(** ** The constructor *)

Lemma getRaw_fresh (pre b post : list number) :
  _getRawValues (pre ++ b ++ post) (seq (length pre) (length b)) = b.
Proof.
  unfold number in *.
  revert pre. induction b as [|x b IH]; intros pre; simpl; [reflexivity|].
  f_equal.
  - unfold __getValue. rewrite lookup_app_r by lia.
    rewrite Nat.sub_diag. reflexivity.
  - specialize (IH (pre ++ [x])). rewrite length_app in IH. simpl in IH.
    rewrite Nat.add_1_r, <- app_assoc in IH. exact IH.
Qed.

Lemma constructor_eq (p : SliderProps) (rtl : bool) :
  let ms := normalizeValue p (trackMarks p) in
  let vs := normalizeValue p (value p) in
  constructor p rtl =
    (ms ++ vs,
     {| props := p;
        state := {| allMeasured := false;
                    containerSize := {| width := 0; height := 0 |};
                    thumbSize := {| width := 0; height := 0 |};
                    trackMarksValues := seq 0 (length ms);
                    values := seq (length ms) (length vs) |};
        _activeThumbIndex := 0;
        _previousLeft := 0;
        isRTL := rtl |}).
Proof.
  intros ms vs. unfold constructor, updateValues. simpl.
  rewrite !Nat.eqb_refl. simpl.
  rewrite (updateEach_numbers (normalizeValue p (trackMarks p)) [] _ 0 eq_refl).
  rewrite (updateEach_numbers (normalizeValue p (value p)) _ _ 0 eq_refl).
  reflexivity.
Qed.

Lemma normalizeValue_nonempty (p : SliderProps) (v : RawValue) :
  normalizeValue p v <> [].
Proof.
  intros E. apply (f_equal length) in E. revert E.
  unfold normalizeValue. destruct (emptyInput v) eqn:He.
  - destruct (dualSlider p); discriminate.
  - destruct v as [|x|l]; try discriminate. cbn zeta.
    destruct (dualSlider p).
    + destruct l as [|x1 [|x2 rest]]; simpl in *; try discriminate.
      destruct (negb (allowCrossover p) && _); discriminate.
    + rewrite Array_sort_length, length_map.
      destruct l; simpl in *; discriminate.
Qed.

(** X4: a freshly constructed slider.  Its value cells hold exactly the
    normalised [value] prop and its track-mark cells the normalised
    [trackMarks] prop; all these cells exist and are pairwise distinct;
    there is at least one thumb; nothing is measured and thumb 0 is
    active. *)
Theorem constructor_state (p : SliderProps) (rtl : bool) :
  let h := fst (constructor p rtl) in
  let s := snd (constructor p rtl) in
  _getRawValues h (values (state s)) = normalizeValue p (value p) /\
  _getRawValues h (trackMarksValues (state s)) = normalizeValue p (trackMarks p) /\
  NoDup (trackMarksValues (state s) ++ values (state s)) /\
  Forall (fun c => (c < length h)%nat)
         (trackMarksValues (state s) ++ values (state s)) /\
  values (state s) <> [] /\
  allMeasured (state s) = false /\
  _activeThumbIndex s = 0%nat /\
  props s = p.
Proof.
  intros h s. subst h s. rewrite constructor_eq. simpl.
  set (ms := normalizeValue p (trackMarks p)).
  set (vs := normalizeValue p (value p)).
  split; [|split; [|split; [|split; [|split]]]].
  - rewrite <- (app_nil_r vs) at 1. apply getRaw_fresh.
  - apply (getRaw_fresh [] ms vs).
  - rewrite <- seq_app. apply NoDup_seq.
  - rewrite <- seq_app. apply Forall_forall. intros c Hc.
    apply list_elem_of_In, in_seq in Hc. rewrite length_app. lia.
  - intros E. apply (f_equal length) in E. rewrite length_seq in E.
    apply (normalizeValue_nonempty p (value p)).
    destruct (normalizeValue p (value p)); [reflexivity|discriminate].
  - repeat split.
Qed.

(** ** The thumb picker: the hit-test as a whole *)

Lemma findHitThumb_total (s : Slider) (h : store) (e : NativeEvent) (idx : list nat) :
  Forall (fun i => (i < length (values (state s)))%nat) idx ->
  exists r, findHitThumb s h e idx = Some r /\
    forall i, r = Some i -> (i < length (values (state s)))%nat.
Proof.
  induction 1 as [|i idx Hi _ IH]; simpl.
  - exists None. split; [reflexivity|discriminate].
  - destruct (lookup_lt_is_Some_2 _ _ Hi) as [c Hc].
    rewrite (_getThumbTouchRect_Some s h i c Hc). simpl.
    destruct (containsPoint _ _ _).
    + exists (Some i). split; [reflexivity|]. intros j Hj. injection Hj as <-. exact Hi.
    + exact IH.
Qed.

Lemma thumbDistances_total (s : Slider) (h : store) (e : NativeEvent) :
  exists ds, thumbDistances s h e = Some ds /\
             length ds = length (values (state s)).
Proof.
  unfold thumbDistances.
  destruct (mapM _ (seq 0 (length (values (state s))))) as [ds|] eqn:E.
  - exists ds. split; [reflexivity|].
    apply length_mapM in E. rewrite length_seq in E. congruence.
  - apply mapM_None_1, Exists_exists in E. destruct E as (i & Hi & Hnone).
    apply elem_of_seq in Hi.
    destruct (lookup_lt_is_Some_2 (values (state s)) i ltac:(lia)) as [c Hc].
    rewrite (_getThumbTouchRect_Some s h i c Hc) in Hnone. discriminate.
Qed.

Lemma seq_bounded (n : nat) : Forall (fun i => (i < n)%nat) (seq 0 n).
Proof. apply Forall_forall. intros i Hi. apply elem_of_seq in Hi. lia. Qed.

Lemma set_activeThumbIndex_same (s : Slider) :
  set_activeThumbIndex s (_activeThumbIndex s) = s.
Proof. destruct s. reflexivity. Qed.

(** X5: the hit-test on a slider that has thumbs never raises.  When it
    takes the touch, it has changed nothing but the active thumb index,
    which then addresses an existing thumb; when it refuses, the instance
    is as before.  With a clickable track it takes every touch, wherever
    it lands. *)
Theorem _thumbHitTest_total (s : Slider) (h : store) (e : NativeEvent) :
  values (state s) <> [] ->
  exists taken s', _thumbHitTest s h e = Some (taken, s') /\
    (trackClickable (props s) = true -> taken = true) /\
    (taken = true ->
       (_activeThumbIndex s' < length (values (state s)))%nat /\
       s' = set_activeThumbIndex s (_activeThumbIndex s')) /\
    (taken = false -> s' = s).
Proof.
  intros Hne. unfold _thumbHitTest.
  destruct (findHitThumb_total s h e _ (seq_bounded (length (values (state s)))))
    as (r & -> & Hr). simpl.
  assert (Hlen : (0 < length (values (state s)))%nat).
  { destruct (values (state s)); [congruence|simpl; lia]. }
  destruct r as [i|].
  - exists true, (set_activeThumbIndex s i). split; [reflexivity|].
    split; [reflexivity|]. split; [|discriminate].
    intros _. split; [exact (Hr i eq_refl)|reflexivity].
  - destruct (trackClickable (props s)) eqn:Hc.
    + destruct (Nat.eqb (length (values (state s))) 1) eqn:E1.
      * exists true, (set_activeThumbIndex s 0). split; [reflexivity|].
        split; [reflexivity|]. split; [|discriminate].
        intros _. split; [exact Hlen|reflexivity].
      * destruct (thumbDistances_total s h e) as (ds & -> & Hds). simpl.
        exists true, (set_activeThumbIndex s (indexOfLowest ds)).
        split; [reflexivity|]. split; [reflexivity|]. split; [|discriminate].
        intros _. split; [|reflexivity]. simpl. rewrite <- Hds.
        apply indexOfLowest_bound. destruct ds; [simpl in Hds; lia|discriminate].
    + exists false, s. split; [reflexivity|]. split; [discriminate|].
      split; [discriminate|reflexivity].
Qed.

Lemma _thumbHitTest_total_witness :
  exists taken s',
    _thumbHitTest (snd apart) (fst apart) (touchAt 70) = Some (taken, s') /\
    (_activeThumbIndex s' < 2)%nat.
Proof.
  destruct (_thumbHitTest_total (snd apart) (fst apart) (touchAt 70))
    as (taken & s' & Ht & Hc & Ha & _).
  - discriminate.
  - exists taken, s'. split; [exact Ht|].
    apply (Ha (Hc eq_refl)).
Defined.

(** ** The gesture handlers: what a move or a release touches *)

Lemma __getValue_other (h : store) (c c' : cell) (v : number) :
  c <> c' -> __getValue (setValue h c v) c' = __getValue h c'.
Proof.
  intros Hne. unfold __getValue, setValue.
  rewrite list_lookup_insert_ne by exact Hne. reflexivity.
Qed.

Lemma thumbValue_other (s : Slider) (h : store) (c : cell) (v : number) (i : nat) :
  values (state s) !! i <> Some c ->
  (__getValue (setValue h c v) <$> values (state s) !! i)
  = (__getValue h <$> values (state s) !! i).
Proof.
  intros Hi. destruct (values (state s) !! i) as [c'|]; simpl; [|reflexivity].
  rewrite __getValue_other; [reflexivity|congruence].
Qed.

Lemma rawValue_other (s : Slider) (h : store) (c : cell) (v : number) (i : nat) :
  values (state s) !! i <> Some c ->
  rawValue s (setValue h c v) i = rawValue s h i.
Proof.
  intros Hi. unfold rawValue, _getRawValues.
  rewrite !list_lookup_fmap.
  destruct (values (state s) !! i) as [c'|]; simpl; [|reflexivity].
  rewrite __getValue_other; [reflexivity|congruence].
Qed.

Lemma other_index_differs (s : Slider) (i j : nat) (c : cell) :
  NoDup (values (state s)) -> values (state s) !! i = Some c -> i <> j ->
  values (state s) !! j <> Some c.
Proof.
  intros Hnd Hi Hne Hj. apply Hne. eapply NoDup_lookup; eassumption.
Qed.

Lemma _getValue_other (s : Slider) (h : store) (g : GestureState) (c : cell)
    (v : number) :
  NoDup (values (state s)) ->
  values (state s) !! _activeThumbIndex s = Some c ->
  _getValue s (setValue h c v) g = _getValue s h g.
Proof.
  intros Hnd Hc. unfold _getValue, minValue, maxValue.
  destruct (restricted s); simpl; [|reflexivity].
  destruct (Nat.eqb (_activeThumbIndex s) 1) eqn:E; simpl.
  - apply Nat.eqb_eq in E.
    rewrite (rawValue_other s h c v 0); [reflexivity|].
    eapply other_index_differs; [exact Hnd|exact Hc|lia].
  - apply Nat.eqb_neq in E.
    rewrite (rawValue_other s h c v 1); [reflexivity|].
    eapply other_index_differs; [exact Hnd|exact Hc|lia].
Qed.

Lemma crossoverClamp_other (s : Slider) (h : store) (c : cell) (v x : number) :
  NoDup (values (state s)) ->
  values (state s) !! _activeThumbIndex s = Some c ->
  crossoverClamp s (setValue h c v) x (_activeThumbIndex s)
  = crossoverClamp s h x (_activeThumbIndex s).
Proof.
  intros Hnd Hc. unfold crossoverClamp.
  rewrite thumbValue_other; [reflexivity|].
  eapply other_index_differs; [exact Hnd|exact Hc|].
  destruct (Nat.eqb (_activeThumbIndex s) 0) eqn:E;
    [apply Nat.eqb_eq in E|apply Nat.eqb_neq in E]; lia.
Qed.

(** X6: what a move or a release does before it returns.  The handler
    itself writes at most one cell, the active thumb's: the store keeps
    its size, every other cell (the other thumb's, the track marks')
    keeps its content, and the handler leaves props and state as they
    are.  It hands React a [setState] request exactly when the slider is
    enabled and the active index has no cell: the handler then writes
    nothing and makes no notification itself, and the request carries the
    active index and the mapped value after the crossover clamp; the cell
    is allocated and the notifying callback runs only when React commits
    that request.  On a disabled slider nothing is written, notified or
    requested. *)
Theorem gesture_writes_only_active_cell (s : Slider) (h : store) (g : GestureState)
    (o : Outcome) :
  o = _handlePanResponderMove s h g \/ o = _handlePanResponderEnd s h g ->
  length (cells o) = length h /\
  (forall c, values (state s) !! _activeThumbIndex s <> Some c ->
     cells o !! c = h !! c) /\
  props (instance o) = props s /\
  state (instance o) = state s /\
  (disabled (props s) = true \/ values (state s) !! _activeThumbIndex s = None ->
     cells o = h /\ emitted o = []) /\
  (disabled (props s) = true -> o = unchanged s h) /\
  (disabled (props s) = false ->
   values (state s) !! _activeThumbIndex s = None ->
     requested o
       = Some (_activeThumbIndex s,
               crossoverClamp s h (_getValue s h g) (_activeThumbIndex s))) /\
  (requested o = None <->
   disabled (props s) = true \/ is_Some (values (state s) !! _activeThumbIndex s)).
Proof.
  intros Ho.
  assert (H : (disabled (props s) = true /\ o = unchanged s h) \/
              (disabled (props s) = false /\
               values (state s) !! _activeThumbIndex s = None /\
               cells o = h /\ emitted o = [] /\
               requested o
                 = Some (_activeThumbIndex s,
                         crossoverClamp s h (_getValue s h g) (_activeThumbIndex s)) /\
               props (instance o) = props s /\ state (instance o) = state s) \/
              (exists c, disabled (props s) = false /\
               values (state s) !! _activeThumbIndex s = Some c /\
               cells o = setValue h c
                 (crossoverClamp s h (_getValue s h g) (_activeThumbIndex s)) /\
               requested o = None /\
               props (instance o) = props s /\ state (instance o) = state s)).
  { destruct (disabled (props s)) eqn:Hd.
    - left. split; [reflexivity|].
      destruct Ho as [->| ->]; [apply move_disabled|apply end_disabled]; exact Hd.
    - right. unfold _handlePanResponderMove, _handlePanResponderEnd, _setCurrentValue in Ho.
      rewrite Hd in Ho.
      destruct (values (state s) !! _activeThumbIndex s) as [c|] eqn:Hc.
      + right. exists c. destruct Ho as [->| ->]; repeat split.
      + left. destruct Ho as [->| ->]; repeat split. }
  destruct H as [[Hd ->]|[(Hd & Hc & Hcells & Hem & Hreq & Hp & Hs)
                         |(c & Hd & Hc & Hcells & Hreq & Hp & Hs)]].
  - simpl. split; [reflexivity|]. split; [reflexivity|]. split; [reflexivity|].
    split; [reflexivity|]. split; [auto|]. split; [reflexivity|].
    split; [congruence|]. split; [auto|reflexivity].
  - rewrite Hcells. split; [reflexivity|]. split; [reflexivity|].
    split; [exact Hp|]. split; [exact Hs|]. split; [auto|].
    split; [congruence|]. split; [intros _ _; exact Hreq|].
    rewrite Hreq, Hc. split; [discriminate|].
    intros [H|[x H]]; congruence.
  - rewrite Hcells. unfold setValue. split; [apply length_insert|].
    split; [intros c' Hc'; apply list_lookup_insert_ne; congruence|].
    split; [exact Hp|]. split; [exact Hs|].
    split; [intros [H|H]; congruence|].
    split; [congruence|]. split; [congruence|].
    rewrite Hreq, Hc. split; [eauto|reflexivity].
Qed.

(** X7: replaying a move is harmless.  On a slider whose thumbs own
    distinct cells, a second move with the same gesture state leaves the
    store as the first one left it and makes the same notification: the
    mapped value does not depend on the active thumb's own value. *)
Theorem move_is_idempotent (s : Slider) (h : store) (g : GestureState) :
  NoDup (values (state s)) ->
  let o := _handlePanResponderMove s h g in
  _handlePanResponderMove s (cells o) g = o.
Proof.
  intros Hnd o. subst o. unfold _handlePanResponderMove, _setCurrentValue.
  destruct (disabled (props s)) eqn:Hd; [reflexivity|].
  destruct (values (state s) !! _activeThumbIndex s) as [c|] eqn:Hc; simpl;
    [|reflexivity].
  rewrite (_getValue_other s h g c _ Hnd Hc).
  rewrite (crossoverClamp_other s h c _ _ Hnd Hc).
  unfold setValue. rewrite list_insert_insert_eq. reflexivity.
Qed.

Lemma move_is_idempotent_witness :
  _handlePanResponderMove (snd range1)
    (cells (_handlePanResponderMove (snd range1) (fst range1) drag20)) drag20
  = _handlePanResponderMove (snd range1) (fst range1) drag20.
Proof.
  apply (move_is_idempotent (snd range1) (fst range1) drag20).
  simpl. apply (NoDup_seq 2 2).
Defined.

Lemma gesture_writes_only_active_cell_witness :
  length (cells (_handlePanResponderMove (snd range1) (fst range1) drag20))
    = length (fst range1) /\
  cells (_handlePanResponderEnd (snd range1) (fst range1) drag20) !! 2%nat
    = fst range1 !! 2%nat /\
  requested (_handlePanResponderMove (set_activeThumbIndex (snd range1) 4)
                                     (fst range1) drag20)
    = Some (4%nat, 20).
Proof.
  split; [|split].
  - apply (gesture_writes_only_active_cell (snd range1) (fst range1) drag20 _
             (or_introl eq_refl)).
  - apply (gesture_writes_only_active_cell (snd range1) (fst range1) drag20 _
             (or_intror eq_refl)).
    discriminate.
  - apply (gesture_writes_only_active_cell
             (set_activeThumbIndex (snd range1) 4) (fst range1) drag20 _
             (or_introl eq_refl)); reflexivity.
Defined.

(** ** The gesture handlers: the order of two thumbs *)

Lemma or_else_zero (o : number) :
  is_nan o = false ->
  is_nan (or_else o 0) = false /\
  (o <=? or_else o 0) = true /\ (or_else o 0 <=? o) = true.
Proof.
  intros Hn. unfold or_else, truthy. rewrite Hn. simpl.
  destruct (o =? 0) eqn:E; simpl.
  - apply eqb_cmp in E. split; [reflexivity|]. split; apply leb_cmp; right.
    + exact E.
    + rewrite cmp_antisym, E. reflexivity.
  - split; [exact Hn|]. split; apply leb_refl, Hn.
Qed.

(** X8: with two thumbs in dual mode and crossover disallowed, a move on
    an enabled slider never leaves thumb 0 above thumb 1: whichever thumb
    is dragged, and wherever the thumbs stood, the value written is held
    at the other thumb's value.  (Both numbers must be numbers: a [NaN]
    compares with nothing.)  On a disabled slider the move returns at
    once and the store is as it was, in whatever order the thumbs
    stood. *)
Theorem move_keeps_thumbs_ordered (s : Slider) (h : store) (g : GestureState)
    (c0 c1 : cell) :
  dualSlider (props s) = true -> allowCrossover (props s) = false ->
  values (state s) = [c0; c1] -> c0 <> c1 ->
  (c0 < length h)%nat -> (c1 < length h)%nat ->
  (_activeThumbIndex s < 2)%nat ->
  is_nan (_getValue s h g) = false ->
  is_nan (__getValue h c0) = false -> is_nan (__getValue h c1) = false ->
  let h' := cells (_handlePanResponderMove s h g) in
  (disabled (props s) = false -> (__getValue h' c0 <=? __getValue h' c1) = true) /\
  (disabled (props s) = true -> h' = h).
Proof.
  intros Hdual Hcross Hv Hne H0 H1 Ha Hnv Hn0 Hn1 h'. subst h'.
  split; [intros Hd|intros Hd; rewrite (move_disabled s h g Hd); reflexivity].
  unfold _handlePanResponderMove, _setCurrentValue. rewrite Hd.
  set (v := _getValue s h g) in *.
  destruct (_activeThumbIndex s) as [|[|n]] eqn:Hact; [| |lia]; rewrite Hv; simpl.
  - (* thumb 0 is dragged *)
    unfold crossoverClamp. rewrite Hdual, Hcross, Hv. simpl.
    destruct (or_else_zero _ Hn1) as (Hno & Hle1 & Hle2).
    set (o := or_else (__getValue h c1) 0) in *.
    rewrite (__getValue_other h c0 c1) by exact Hne.
    unfold __getValue at 1, setValue. rewrite list_lookup_insert_eq by exact H0. simpl.
    unfold gtb. destruct (o <? v) eqn:E.
    + exact Hle2.
    + eapply leb_trans; [|exact Hle2]. apply not_ltb_leb; assumption.
  - (* thumb 1 is dragged *)
    unfold crossoverClamp. rewrite Hdual, Hcross, Hv. simpl.
    destruct (or_else_zero _ Hn0) as (Hno & Hle1 & Hle2).
    set (o := or_else (__getValue h c0) 0) in *.
    rewrite (__getValue_other h c1 c0) by congruence.
    unfold __getValue at 2, setValue. rewrite list_lookup_insert_eq by exact H1. simpl.
    destruct (v <? o) eqn:E.
    + exact Hle1.
    + eapply leb_trans; [exact Hle1|]. apply not_ltb_leb; assumption.
Qed.

Lemma move_keeps_thumbs_ordered_witness :
  (__getValue (cells (_handlePanResponderMove (snd range0) (fst range0) drag80)) 2
   <=? __getValue (cells (_handlePanResponderMove (snd range0) (fst range0) drag80)) 3)
  = true.
Proof.
  refine (proj1 (move_keeps_thumbs_ordered (snd range0) (fst range0) drag80 2 3
                   _ _ _ _ _ _ _ _ _ _) _);
    try reflexivity; try discriminate; simpl; lia.
Defined.

(** ** The gesture-to-value mapper: crossed limits *)

Lemma Math_min_le_l (a b : number) :
  is_nan a = false -> is_nan b = false -> (Math_min a b <=? a) = true.
Proof.
  intros Ha Hb. destruct (Math_min_cases a b Ha Hb) as [[-> _]|[-> H]];
    [apply leb_refl, Ha|exact H].
Qed.

Lemma Math_min_not_nan (a b : number) :
  is_nan a = false -> is_nan b = false -> is_nan (Math_min a b) = false.
Proof.
  intros Ha Hb. destruct (Math_min_cases a b Ha Hb) as [[-> _]|[-> _]]; assumption.
Qed.

(** X9: in the final clamp of the mapper the lower limit wins, provided
    [minValue], [maxValue] and the target are not [NaN].  The value
    returned is then never below [minValue]; when the limits are crossed
    ([maxValue < minValue]) it is [minValue] itself.  So for thumb 1 of a
    two-thumb slider without crossover, standing closer than the buffer
    to [maximumValue] pushes the result to the other thumb's value plus
    the buffer, above [maximumValue]. *)
Theorem mapper_lower_limit_wins (s : Slider) (h : store) (g : GestureState) :
  is_nan (minValue s h) = false -> is_nan (maxValue s h) = false ->
  is_nan (targetValue s g) = false ->
  (minValue s h <=? _getValue s h g) = true /\
  ((maxValue s h <? minValue s h) = true -> _getValue s h g = minValue s h) /\
  (restricted s = true -> _activeThumbIndex s = 1%nat ->
   (maximumValue (props s) <? rawValue s h 0 + buffer s) = true ->
   _getValue s h g = rawValue s h 0 + buffer s /\
   (maximumValue (props s) <? _getValue s h g) = true).
Proof.
  intros Hlo Hhi Ht.
  pose proof (Math_min_not_nan _ _ Hhi Ht) as Hu.
  pose proof (Math_min_le_l _ _ Hhi Ht) as Hle.
  assert (Hcross : (maxValue s h <? minValue s h) = true ->
                   _getValue s h g = minValue s h).
  { intros Hx. unfold _getValue. apply Math_max_lt.
    eapply leb_ltb_trans; eassumption. }
  split; [|split; [exact Hcross|]].
  - unfold _getValue.
    destruct (Math_max_cases _ _ Hlo Hu) as [[-> _]|[-> H]];
      [apply leb_refl, Hlo|exact H].
  - intros Hr Ha Hx.
    assert (Hmin : minValue s h = rawValue s h 0 + buffer s).
    { unfold minValue. rewrite Hr, Ha. reflexivity. }
    assert (Hmax : maxValue s h = maximumValue (props s)).
    { unfold maxValue. rewrite Hr, Ha. reflexivity. }
    rewrite Hmin, Hmax in Hcross. rewrite (Hcross Hx). split; [reflexivity|exact Hx].
Qed.

Lemma mapper_lower_limit_wins_witness :
  (maximumValue (props (snd pinned))
   <? _getValue (snd pinned) (fst pinned) drag20) = true.
Proof.
  apply (mapper_lower_limit_wins (snd pinned) (fst pinned) drag20);
    reflexivity.
Defined.

(** ** Layout measurement *)

Lemma _handleMeasure_cache (m : Measurements) (s : Slider) (name : MeasureName)
    (size : Dimensions) (other : MeasureName) :
  (is_Some (getMeasure (fst (_handleMeasure m s name size)) other) <->
   is_Some (getMeasure m other) \/ other = name).
Proof.
  unfold _handleMeasure.
  destruct (getMeasure m name) as [cur|] eqn:Hcur.
  - destruct ((width size =? width cur) && (height size =? height cur)).
    + simpl. split; [auto|]. intros [H| ->]; [exact H|]. rewrite Hcur. eauto.
    + destruct (_containerSize (setMeasure m name size)),
               (_thumbSize (setMeasure m name size));
        simpl; destruct name, other; simpl in *; split;
        try solve [intros; eauto]; intros [H|H];
        solve [exact H | discriminate | eauto].
  - destruct (_containerSize (setMeasure m name size)),
             (_thumbSize (setMeasure m name size));
      simpl; destruct name, other; simpl in *; split;
      try solve [intros; eauto]; intros [H|H];
      solve [exact H | discriminate | eauto].
Qed.

Lemma _handleMeasure_inv (m : Measurements) (s : Slider) (name : MeasureName)
    (size : Dimensions) :
  (allMeasured (state s) = true <->
   is_Some (_containerSize m) /\ is_Some (_thumbSize m)) ->
  (forall c t, _containerSize m = Some c -> _thumbSize m = Some t ->
               containerSize (state s) = c /\ thumbSize (state s) = t) ->
  let r := _handleMeasure m s name size in
  (allMeasured (state (snd r)) = true <->
   is_Some (_containerSize (fst r)) /\ is_Some (_thumbSize (fst r))) /\
  (forall c t, _containerSize (fst r) = Some c -> _thumbSize (fst r) = Some t ->
               containerSize (state (snd r)) = c /\ thumbSize (state (snd r)) = t) /\
  values (state (snd r)) = values (state s) /\
  trackMarksValues (state (snd r)) = trackMarksValues (state s) /\
  props (snd r) = props s /\
  _activeThumbIndex (snd r) = _activeThumbIndex s /\
  _previousLeft (snd r) = _previousLeft s.
Proof.
  intros Hall Hmirror r. subst r. unfold _handleMeasure.
  destruct (match getMeasure m name with
            | Some currentSize =>
                (width size =? width currentSize) && (height size =? height currentSize)
            | None => false
            end).
  - simpl. auto 10.
  - destruct (_containerSize (setMeasure m name size)) as [c|] eqn:Hc,
             (_thumbSize (setMeasure m name size)) as [t|] eqn:Ht; simpl;
      rewrite ?Hc, ?Ht.
    + split; [split; eauto|]. split; [|auto 10].
      intros c' t' [= <-] [= <-]. auto.
    + assert (Hf : allMeasured (state s) = false).
      { destruct (allMeasured (state s)); [|reflexivity].
        destruct Hall as [Hall _]. destruct (Hall eq_refl) as [_ [t' Ht']].
        destruct name; simpl in *; congruence. }
      rewrite Hf. split; [split; [discriminate|]|].
      * intros [_ [? ?]]. discriminate.
      * split; [intros; discriminate|auto 10].
    + assert (Hf : allMeasured (state s) = false).
      { destruct (allMeasured (state s)); [|reflexivity].
        destruct Hall as [Hall _]. destruct (Hall eq_refl) as [[c' Hc'] _].
        destruct name; simpl in *; congruence. }
      rewrite Hf. split; [split; [discriminate|]|].
      * intros [[? ?] _]. discriminate.
      * split; [intros; discriminate|auto 10].
    + assert (Hf : allMeasured (state s) = false).
      { destruct (allMeasured (state s)); [|reflexivity].
        destruct Hall as [Hall _]. destruct (Hall eq_refl) as [[c' Hc'] _].
        destruct name; simpl in *; congruence. }
      rewrite Hf. split; [split; [discriminate|]|].
      * intros [[? ?] _]. discriminate.
      * split; [intros; discriminate|auto 10].
Qed.

Lemma deliverLayouts_inv (events : list (MeasureName * Dimensions))
    (m : Measurements) (s : Slider) :
  (allMeasured (state s) = true <->
   is_Some (_containerSize m) /\ is_Some (_thumbSize m)) ->
  (forall c t, _containerSize m = Some c -> _thumbSize m = Some t ->
               containerSize (state s) = c /\ thumbSize (state s) = t) ->
  let r := deliverLayouts m s events in
  (allMeasured (state (snd r)) = true <->
   is_Some (_containerSize (fst r)) /\ is_Some (_thumbSize (fst r))) /\
  (forall c t, _containerSize (fst r) = Some c -> _thumbSize (fst r) = Some t ->
               containerSize (state (snd r)) = c /\ thumbSize (state (snd r)) = t) /\
  (forall name, is_Some (getMeasure (fst r) name) <->
                is_Some (getMeasure m name) \/ name ∈ events.*1) /\
  values (state (snd r)) = values (state s) /\
  trackMarksValues (state (snd r)) = trackMarksValues (state s) /\
  props (snd r) = props s /\
  _activeThumbIndex (snd r) = _activeThumbIndex s /\
  _previousLeft (snd r) = _previousLeft s.
Proof.
  revert m s. induction events as [|[name size] events IH]; intros m s Hall Hmirror.
  - simpl. split; [exact Hall|]. split; [exact Hmirror|].
    split; [|auto 10]. intros name. rewrite elem_of_nil. tauto.
  - unfold deliverLayouts. simpl.
    destruct (_handleMeasure_inv m s name size Hall Hmirror)
      as (Hall' & Hmirror' & Hv & Ht & Hp & Ha & Hl).
    pose proof (_handleMeasure_cache m s name size) as Hcache.
    destruct (_handleMeasure m s name size) as [m1 s1]. simpl in *.
    destruct (IH m1 s1 Hall' Hmirror') as (H1 & H2 & H3 & H4 & H5 & H6 & H7 & H8).
    unfold deliverLayouts in *. simpl in *.
    split; [exact H1|]. split; [exact H2|].
    split; [|repeat split; congruence].
    intros other. rewrite H3, Hcache, elem_of_cons. tauto.
Qed.

(** X10: the measured flag follows the layout events.  From a freshly
    constructed instance and any run of layout events, [allMeasured] is
    set exactly when both the container and the thumb have reported (the
    track plays no part); the sizes in the state are then the sizes
    cached on the instance; and the cells, props and gesture fields are
    left alone. *)
Theorem layout_events_set_allMeasured (p : SliderProps) (rtl : bool)
    (events : list (MeasureName * Dimensions)) :
  let s := snd (constructor p rtl) in
  let r := deliverLayouts noMeasurements s events in
  (allMeasured (state (snd r)) = true <->
   containerSizeField ∈ events.*1 /\ thumbSizeField ∈ events.*1) /\
  (allMeasured (state (snd r)) = true ->
   _containerSize (fst r) = Some (containerSize (state (snd r))) /\
   _thumbSize (fst r) = Some (thumbSize (state (snd r)))) /\
  values (state (snd r)) = values (state s) /\
  trackMarksValues (state (snd r)) = trackMarksValues (state s) /\
  props (snd r) = props s /\
  _activeThumbIndex (snd r) = _activeThumbIndex s /\
  _previousLeft (snd r) = _previousLeft s.
Proof.
  intros s r.
  assert (Hs : allMeasured (state s) = false).
  { subst s. rewrite constructor_eq. reflexivity. }
  destruct (deliverLayouts_inv events noMeasurements s)
    as (H1 & H2 & H3 & Hrest).
  - rewrite Hs. simpl. split; [discriminate|]. intros [[? ?] _]. discriminate.
  - simpl. intros; discriminate.
  - fold r in H1, H2, H3, Hrest.
    assert (Hnone : forall name, ~ is_Some (getMeasure noMeasurements name)).
    { intros [] [? ?]; discriminate. }
    split; [|split; [|exact Hrest]].
    + rewrite H1. rewrite (H3 containerSizeField), (H3 thumbSizeField).
      pose proof (Hnone containerSizeField). pose proof (Hnone thumbSizeField).
      tauto.
    + intros Ht. apply H1 in Ht as [[c Hc] [t Ht]].
      destruct (H2 c t Hc Ht) as [-> ->]. auto.
Qed.

(** ** The touch overflow *)

Lemma leb_zero_nonneg (x : number) :
  (0 <=? x) = true -> nonneg (Prim2SF x) = true.
Proof.
  rewrite FloatAxioms.leb_spec. unfold SFleb.
  replace (Prim2SF 0) with (S754_zero false) by reflexivity.
  destruct (Prim2SF x) as [|[]| |[]]; simpl; try reflexivity; discriminate.
Qed.

Lemma Math_max_zero_nonpos (y : number) : (y <=? 0) = true -> Math_max 0 y = 0.
Proof.
  intros H. unfold Math_max. destruct (leb_nan _ _ H) as [Hy _].
  rewrite Hy. simpl. rewrite (leb_not_ltb _ _ H).
  destruct (y <? 0); reflexivity.
Qed.

(** X11: the touch overflow once the layout is measured.  With a
    [thumbTouchSize] of positive width and height the overflow is that
    size itself, whatever the thumb and the container measure: [||] binds
    weaker than [+] and [-], so the sums are only the fallback.  Without
    a [thumbTouchSize] the width is the thumb's and, for a container of
    non-negative height, the height is [0]. *)
Theorem touch_overflow_measured (s : Slider) :
  allMeasured (state s) = true ->
  (forall t, thumbTouchSize (props s) = Some t ->
             (0 <? width t) = true -> (0 <? height t) = true ->
             _getTouchOverflowSize s = t) /\
  (thumbTouchSize (props s) = None ->
   (0 <=? height (containerSize (state s))) = true ->
   height (_getTouchOverflowSize s) = 0 /\
   width (_getTouchOverflowSize s) = Math_max 0 (0 + width (thumbSize (state s)))).
Proof.
  intros Hm. unfold _getTouchOverflowSize. rewrite Hm. split.
  - intros [w hh] -> Hw Hh. simpl in *. unfold or_else.
    rewrite (truthy_nonneg w) by (apply ltb_leb, Hw).
    rewrite (truthy_nonneg hh) by (apply ltb_leb, Hh).
    rewrite Hw, Hh, (Math_max_gt 0 w Hw), (Math_max_gt 0 hh Hh). reflexivity.
  - intros -> Hh. simpl. split; [|reflexivity].
    apply Math_max_zero_nonpos, sub_le; [reflexivity|].
    apply leb_zero_nonneg, Hh.
Qed.

Lemma touch_overflow_measured_witness :
  height (_getTouchOverflowSize (snd clickable)) = 0 /\
  width (_getTouchOverflowSize (snd clickable))
    = Math_max 0 (0 + width (thumbSize (state (snd clickable)))).
Proof.
  apply (touch_overflow_measured (snd clickable)); reflexivity.
Defined.

(** ** Prop updates *)

Lemma eqb_refl (v : number) : is_nan v = false -> (v =? v) = true.
Proof. intros H. apply eqb_cmp, cmp_refl, H. Qed.

Lemma crossoverClamp_free (s : Slider) (h : store) (v : number) (i : nat) :
  dualSlider (props s) = false \/ allowCrossover (props s) = true ->
  crossoverClamp s h v i = v.
Proof.
  intros [H|H]; unfold crossoverClamp; rewrite H; simpl; [reflexivity|].
  destruct (dualSlider (props s) && _); reflexivity.
Qed.

Lemma reconcile_fresh (h : store) (cs : list cell) (ns : list number) :
  NoDup cs -> Forall (fun c => (c < length h)%nat) cs ->
  let r := reconcile h cs ns in
  NoDup (snd r) /\
  Forall (fun c => (c < length (fst r))%nat) (snd r) /\
  _getRawValues (fst r) (snd r) = ns /\
  (length h <= length (fst r))%nat /\
  (forall c, (c < length h)%nat -> c ∉ cs -> fst r !! c = h !! c) /\
  (forall c, c ∈ snd r -> c ∈ cs \/ (length h <= c)%nat) /\
  (length ns = length cs -> snd r = cs).
Proof.
  intros Hnd Hv r. subst r.
  destruct (decide (length ns = length cs)) as [Hlen|Hlen].
  - rewrite (reconcile_same_length _ _ _ Hlen). simpl.
    split; [exact Hnd|]. split.
    { eapply Forall_impl; [exact Hv|]. intros c Hc. simpl.
      rewrite writeCells_length. exact Hc. }
    split; [apply writeCells_contents; assumption|].
    split; [rewrite writeCells_length; lia|].
    split; [intros c _ Hc; apply writeCells_frame, Hc|].
    split; [auto|auto].
  - rewrite (reconcile_other_length _ _ _ Hlen). simpl.
    split; [apply NoDup_seq|]. split.
    { apply Forall_forall. intros c Hc. apply elem_of_seq in Hc.
      rewrite length_app. lia. }
    split.
    { pose proof (getRaw_fresh h ns []) as E. rewrite app_nil_r in E. exact E. }
    split; [rewrite length_app; lia|].
    split; [intros c Hc _; apply lookup_app_l, Hc|].
    split; [|intros; contradiction].
    intros c Hc. apply elem_of_seq in Hc. right. lia.
Qed.

Lemma applyNewValues_settled (ns : list number) (s : Slider) (h : store) (i : nat) :
  NoDup (values (state s)) ->
  Forall (fun c => (c < length h)%nat) (values (state s)) ->
  Forall (fun v => is_nan v = false) ns ->
  (forall k v, ns !! k = Some v ->
     exists c, values (state s) !! (i + k)%nat = Some c /\ __getValue h c = v) ->
  exists h',
    applyNewValues s h ns i = Some (h', [], []) /\
    length h' = length h /\
    (forall c, c ∉ values (state s) -> h' !! c = h !! c) /\
    (dualSlider (props s) = false \/ allowCrossover (props s) = true -> h' = h).
Proof.
  intros Hnd. revert h i.
  induction ns as [|v rest IH]; intros h i Hv Hnn Hat.
  - exists h. simpl. auto.
  - apply Forall_cons in Hnn as [Hn Hnn].
    destruct (Hat 0%nat v eq_refl) as (c & Hc & Hcv).
    rewrite Nat.add_0_r in Hc.
    assert (Hlt : (c < length h)%nat).
    { rewrite Forall_forall in Hv. apply Hv. eapply list_elem_of_lookup_2, Hc. }
    cbn [applyNewValues]. unfold _getCurrentValue. rewrite Hc. simpl.
    rewrite Hcv, (eqb_refl v Hn). simpl.
    unfold _setCurrentValue. rewrite Hc.
    set (v' := crossoverClamp s h v i).
    destruct (IH (setValue h c v') (S i)) as (h' & E & Hlen & Hframe & Hfree).
    + unfold setValue. eapply Forall_impl; [exact Hv|].
      intros c' Hc'. simpl. rewrite length_insert. exact Hc'.
    + exact Hnn.
    + intros k x Hk. destruct (Hat (S k) x Hk) as (c' & Hc' & Hx).
      exists c'. replace (S i + k)%nat with (i + S k)%nat by lia.
      split; [exact Hc'|].
      rewrite __getValue_other; [exact Hx|].
      intros ->. pose proof (NoDup_lookup _ _ _ _ Hnd Hc Hc'). lia.
    + exists h'. split; [exact E|]. unfold setValue in *.
      rewrite length_insert in Hlen. split; [exact Hlen|]. split.
      * intros c' Hc'. rewrite Hframe by exact Hc'.
        apply list_lookup_insert_ne. intros ->. apply Hc'.
        eapply list_elem_of_lookup_2, Hc.
      * intros Hf. rewrite (Hfree Hf). subst v'.
        rewrite (crossoverClamp_free s h v i Hf).
        apply list_insert_id. unfold __getValue, number in *.
        destruct (h !! c) as [x|] eqn:Hx; simpl in Hcv; [congruence|].
        apply lookup_ge_None in Hx. lia.
Qed.

(** X12: a changed [value] prop never starts an animation.  By the time
    the [setState] callback compares each new value with the cell's
    current one, [updateValues] has already written the new value into
    that cell, so the two are equal and [_setCurrentValueAnimated] is not
    reached, whatever [animateTransitions] says.  The update does not
    fail, keeps the handles when the number of values is unchanged, and,
    when no crossover clamp applies, leaves the cells holding the
    normalised values. *)
Theorem prop_update_never_animates (s : Slider) (h : store) (trackMarksChanged : bool) :
  NoDup (trackMarksValues (state s) ++ values (state s)) ->
  Forall (fun c => (c < length h)%nat)
         (trackMarksValues (state s) ++ values (state s)) ->
  Forall (fun v => is_nan v = false) (normalizeValue (props s) (value (props s))) ->
  exists o,
    componentDidUpdate s h true trackMarksChanged = Some o /\
    animations o = [] /\ stateRequests o = [] /\
    props (updated o) = props s /\
    length (values (state (updated o)))
      = length (normalizeValue (props s) (value (props s))) /\
    (length (normalizeValue (props s) (value (props s))) = length (values (state s)) ->
     values (state (updated o)) = values (state s)) /\
    (dualSlider (props s) = false \/ allowCrossover (props s) = true ->
     _getRawValues (stored o) (values (state (updated o)))
       = normalizeValue (props s) (value (props s))).
Proof.
  intros Hnd Hv Hnn. unfold componentDidUpdate.
  set (ns := normalizeValue (props s) (value (props s))) in *.
  set (ms := normalizeValue (props s) (trackMarks (props s))).
  apply NoDup_app in Hnd as (Hndm & Hdisj & Hndv).
  apply Forall_app in Hv as [Hvm Hvv].
  destruct (reconcile_fresh h (values (state s)) ns Hndv Hvv)
    as (Hnd1 & Hv1 & Hraw1 & Hlen1 & _ & Hwhere & Hsame).
  destruct (reconcile h (values (state s)) ns) as [h1 vs1]. simpl in *.
  assert (Hmarks : exists h2 marks',
             (if trackMarksChanged
              then reconcile h1 (trackMarksValues (state s)) ms
              else (h1, trackMarksValues (state s))) = (h2, marks') /\
             (length h1 <= length h2)%nat /\
             (forall c, (c < length h1)%nat -> c ∉ trackMarksValues (state s) ->
                        h2 !! c = h1 !! c)).
  { destruct trackMarksChanged; [|eauto].
    destruct (reconcile_fresh h1 (trackMarksValues (state s)) ms Hndm)
      as (_ & _ & _ & Hlen2 & Hframe2 & _).
    - eapply Forall_impl; [exact Hvm|]. intros c Hc. simpl in *. lia.
    - destruct (reconcile h1 (trackMarksValues (state s)) ms) as [h2 marks'].
      eauto. }
  destruct Hmarks as (h2 & marks' & -> & Hlen2 & Hframe2).
  assert (Hkeep : forall c, c ∈ vs1 -> __getValue h2 c = __getValue h1 c).
  { intros c Hc. unfold __getValue. rewrite Hframe2; [reflexivity| |].
    - rewrite Forall_forall in Hv1. apply Hv1, Hc.
    - intros Hm. destruct (Hwhere c Hc) as [Hin|Hge].
      + exact (Hdisj c Hm Hin).
      + rewrite Forall_forall in Hvm. specialize (Hvm c Hm). simpl in Hvm. lia. }
  destruct (applyNewValues_settled ns (setStateValues s vs1 marks') h2 0)
    as (h3 & -> & Hlen3 & Hframe3 & Hfree); simpl.
  - exact Hnd1.
  - eapply Forall_impl; [exact Hv1|]. intros c Hc. simpl in *. lia.
  - exact Hnn.
  - intros k v Hk. rewrite <- Hraw1 in Hk. unfold _getRawValues in Hk.
    rewrite list_lookup_fmap in Hk.
    destruct (vs1 !! k) as [c|] eqn:Hc; [|discriminate].
    simpl in Hk. exists c. split; [reflexivity|].
    rewrite Hkeep by (eapply list_elem_of_lookup_2, Hc). congruence.
  - eexists. split; [reflexivity|]. simpl.
    split; [reflexivity|]. split; [reflexivity|]. split; [reflexivity|].
    split.
    { rewrite <- Hraw1. unfold _getRawValues. rewrite length_map. reflexivity. }
    split; [exact Hsame|].
    intros Hf. rewrite (Hfree Hf). rewrite <- Hraw1.
    unfold _getRawValues. apply map_ext_in. intros c Hc.
    apply Hkeep, list_elem_of_In, Hc.
Qed.

Lemma prop_update_never_animates_witness :
  animateTransitions (props (snd revalued)) = true /\
  exists o, componentDidUpdate (snd revalued) (fst revalued) true false = Some o /\
            animations o = [] /\
            _getRawValues (stored o) (values (state (updated o))) = [50].
Proof.
  split; [reflexivity|].
  destruct (prop_update_never_animates (snd revalued) (fst revalued) false)
    as (o & E & Ha & _ & _ & _ & _ & Hraw).
  - exact (NoDup_seq 0 2).
  - repeat constructor.
  - repeat constructor.
  - exists o. split; [exact E|]. split; [exact Ha|].
    apply Hraw. left. reflexivity.
Defined.

(** ** Normalisation in dual mode *)

Lemma window_ordered (p : SliderProps) (c : number) :
  is_finite (minimumValue p) = true -> is_finite (maximumValue p) = true ->
  (minimumValue p <=? maximumValue p) = true ->
  inRange p c = true ->
  let range := (maximumValue p - minimumValue p) * 0.1 in
  (Math_max (c - range) (minimumValue p) <=? c) = true /\
  (c <=? Math_min (c + range) (maximumValue p)) = true.
Proof.
  intros Hlo Hhi Hle Hc range. apply inRange_spec in Hc as [Hc1 Hc2].
  pose proof (between_finite _ _ _ Hlo Hhi Hc1 Hc2) as Hfin.
  pose proof (window_radius_nonneg _ _ Hlo Hhi Hle) as Hr. fold range in Hr.
  pose proof (sub_le c range Hfin Hr) as Hsub.
  pose proof (add_ge c range Hfin Hr) as Hadd.
  destruct (leb_nan _ _ Hsub) as [Hn1 _]. destruct (leb_nan _ _ Hadd) as [_ Hn2].
  destruct (leb_nan _ _ Hle) as [Hnlo Hnhi].
  split.
  - destruct (Math_max_cases _ _ Hn1 Hnlo) as [[-> _]|[-> _]]; assumption.
  - destruct (Math_min_cases _ _ Hn2 Hnhi) as [[-> _]|[-> _]]; assumption.
Qed.

(** X13: in dual mode with crossover disallowed and finite bounds
    [minimumValue <= maximumValue], every input other than a non-zero
    scalar normalises to exactly two values in ascending order.  (A
    non-zero scalar gives one value.) *)
Theorem normalizeValue_dual_ordered (p : SliderProps) (v : RawValue) :
  dualSlider p = true -> allowCrossover p = false ->
  is_finite (minimumValue p) = true -> is_finite (maximumValue p) = true ->
  (minimumValue p <=? maximumValue p) = true ->
  noNaN v = true ->
  match v with Scalar x => truthy x = false | _ => True end ->
  exists a b, normalizeValue p v = [a; b] /\ (a <=? b) = true.
Proof.
  intros Hd Hc Hlo Hhi Hle Hnn Hv. unfold normalizeValue. rewrite Hd, Hc.
  destruct v as [|x|l]; simpl in *.
  - eauto.
  - rewrite Hv. simpl. eauto.
  - destruct l as [|x1 [|x2 l]]; simpl in *.
    + eauto.
    + rewrite andb_true_r in Hnn. apply negb_true_iff in Hnn.
      pose proof (getBetweenValue_inRange p x1 Hle Hnn) as Hin.
      destruct (window_ordered p _ Hlo Hhi Hle Hin) as [H1 H2].
      eexists _, _. split; [reflexivity|]. eapply leb_trans; eassumption.
    + apply andb_true_iff in Hnn as [Hn1 Hnn].
      apply andb_true_iff in Hnn as [Hn2 _].
      apply negb_true_iff in Hn1, Hn2.
      apply (getBetweenValue_inRange p _ Hle), inRange_spec in Hn1 as [Hn1 _].
      apply (getBetweenValue_inRange p _ Hle), inRange_spec in Hn2 as [Hn2 _].
      apply leb_nan in Hn1 as [_ Hn1]. apply leb_nan in Hn2 as [_ Hn2].
      unfold gtb.
      destruct (getBetweenValue p x2 <? getBetweenValue p x1) eqn:E.
      * eexists _, _. split; [reflexivity|]. apply ltb_leb, E.
      * eexists _, _. split; [reflexivity|]. apply not_ltb_leb; assumption.
Qed.

Lemma normalizeValue_dual_ordered_witness :
  exists a b,
    normalizeValue (withProps defaultProps 0 100 0 Absent true false)
                   (Sequence [60; 40]) = [a; b] /\
    (a <=? b) = true.
Proof.
  apply (normalizeValue_dual_ordered
           (withProps defaultProps 0 100 0 Absent true false) (Sequence [60; 40]));
    reflexivity || exact I.
Defined.

(** ** The thumb picker on a clickable track *)

Lemma SFleb_zero_nonneg (r : spec_float) :
  nonneg r = true -> SFleb (S754_zero false) r = true.
Proof. destruct r as [|[]| |[]]; simpl; reflexivity || discriminate. Qed.

Lemma sub_nonneg_of_lt (a b : number) : (a <? b) = true -> (0 <=? b - a) = true.
Proof.
  intros H. rewrite FloatAxioms.leb_spec, sub_spec.
  replace (Prim2SF 0) with (S754_zero false) by reflexivity.
  apply SFleb_zero_nonneg.
  rewrite FloatAxioms.ltb_spec in H.
  pose proof (Prim2SF_valid a) as Va. pose proof (Prim2SF_valid b) as Vb.
  destruct (finite_or_zero (Prim2SF a)) eqn:Fa, (finite_or_zero (Prim2SF b)) eqn:Fb.
  - apply SFsub_nonneg; auto.
    unfold SFltb in H. unfold SFleb.
    destruct (SFcompare (Prim2SF a) (Prim2SF b)) as [[]|]; reflexivity || discriminate.
  - destruct (Prim2SF a) as [|[]| |[]], (Prim2SF b) as [|[]| |[]];
      simpl in *; reflexivity || discriminate.
  - destruct (Prim2SF a) as [|[]| |[]], (Prim2SF b) as [|[]| |[]];
      simpl in *; reflexivity || discriminate.
  - destruct (Prim2SF a) as [|[]| |[]], (Prim2SF b) as [|[]| |[]];
      simpl in *; reflexivity || discriminate.
Qed.

Lemma trackDistanceToPoint_nonneg (r : Rect) (x : number) :
  (0 <=? trackDistanceToPoint r x) = true.
Proof.
  unfold trackDistanceToPoint, gtb.
  destruct (x <? rect_x r) eqn:E1; [apply sub_nonneg_of_lt, E1|].
  destruct (rect_x r + rect_width r <? x) eqn:E2; [apply sub_nonneg_of_lt, E2|].
  reflexivity.
Qed.

Lemma distanceTo_Some (s : Slider) (h : store) (e : NativeEvent) (i : nat) (d : number) :
  distanceTo s h e i = Some d ->
  (i < length (values (state s)))%nat /\ is_nan d = false.
Proof.
  unfold distanceTo, _getThumbTouchRect, _getCurrentValue. intros H.
  destruct (values (state s) !! i) as [c|] eqn:Hc; [|discriminate].
  simpl in H. injection H as <-. split.
  - eapply lookup_lt_Some, Hc.
  - eapply leb_nan, trackDistanceToPoint_nonneg.
Qed.

Lemma thumbDistances_lookup (s : Slider) (h : store) (e : NativeEvent)
    (ds : list number) (j : nat) :
  thumbDistances s h e = Some ds -> ds !! j = distanceTo s h e j.
Proof.
  intros E. pose proof (length_mapM _ _ _ E) as Hlen. rewrite length_seq in Hlen.
  apply mapM_Some_1 in E.
  destruct (decide (j < length (values (state s)))%nat) as [Hj|Hj].
  - destruct (Forall2_lookup_l _ _ _ j j E) as (d & Hd & Hf).
    { apply lookup_seq. lia. }
    rewrite Hd. symmetry. exact Hf.
  - rewrite (lookup_ge_None_2 ds j) by lia.
    destruct (distanceTo s h e j) as [d|] eqn:Hd; [|reflexivity].
    apply distanceTo_Some in Hd as [Hd _]. lia.
Qed.

(** X14: on a clickable track a touch that misses every thumb goes to
    the nearest one.  The thumb made active is one whose touch rectangle
    is at the least distance from the touch point along the track, and
    the first such thumb when several are equally near.  The distances
    compared are never [NaN], whatever the geometry holds. *)
Theorem clickable_track_picks_nearest_thumb (s : Slider) (h : store) (e : NativeEvent) :
  trackClickable (props s) = true -> values (state s) <> [] ->
  (forall j, (j < length (values (state s)))%nat -> hits s h e j = false) ->
  exists k dk,
    _thumbHitTest s h e = Some (true, set_activeThumbIndex s k) /\
    distanceTo s h e k = Some dk /\
    forall j dj, distanceTo s h e j = Some dj ->
      (dk <=? dj) = true /\ ((j < k)%nat -> (dk <? dj) = true).
Proof.
  intros Hc Hne Hmiss. unfold _thumbHitTest.
  rewrite (findHitThumb_none s h e Hmiss). simpl. rewrite Hc.
  destruct (thumbDistances_total s h e) as (ds & Hds & Hlen).
  assert (Hlook : forall j, ds !! j = distanceTo s h e j)
    by (intros j; apply thumbDistances_lookup, Hds).
  assert (Hnn : Forall (fun x => is_nan x = false) ds).
  { apply Forall_lookup. intros j d Hd. rewrite Hlook in Hd.
    apply distanceTo_Some in Hd. tauto. }
  destruct ds as [|d0 ds'].
  { destruct (values (state s)); [congruence|discriminate]. }
  destruct (Nat.eqb (length (values (state s))) 1) eqn:E1.
  - apply Nat.eqb_eq in E1. exists 0%nat, d0.
    split; [reflexivity|]. split; [rewrite <- Hlook; reflexivity|].
    intros j dj Hj. destruct (distanceTo_Some _ _ _ _ _ Hj) as [Hlt Hn].
    assert (j = 0)%nat as -> by lia.
    rewrite <- Hlook in Hj. injection Hj as <-.
    split; [apply leb_refl, Hn|lia].
  - rewrite Hds. simpl.
    destruct (lowestFrom_spec (d0 :: ds') [] (d0 :: ds') 0 d0 eq_refl Hnn eq_refl
                ltac:(simpl; lia)) as (k & dk & Hk & Hdk & Hmin).
    { simpl. intros j x Hj. lia. }
    exists k, dk. unfold indexOfLowest. simpl length in Hk. rewrite Hk.
    split; [reflexivity|]. split; [rewrite <- Hlook; exact Hdk|].
    intros j dj Hj. rewrite <- Hlook in Hj. exact (Hmin j dj Hj).
Qed.

Lemma clickable_track_picks_nearest_thumb_witness :
  exists k dk,
    _thumbHitTest (snd apart) (fst apart) (touchAt 70)
      = Some (true, set_activeThumbIndex (snd apart) k) /\
    distanceTo (snd apart) (fst apart) (touchAt 70) k = Some dk /\
    forall j dj, distanceTo (snd apart) (fst apart) (touchAt 70) j = Some dj ->
      (dk <=? dj) = true /\ ((j < k)%nat -> (dk <? dj) = true).
Proof.
  apply (clickable_track_picks_nearest_thumb (snd apart) (fst apart) (touchAt 70)).
  - reflexivity.
  - discriminate.
  - intros [|[|j]] Hj; [reflexivity|reflexivity|simpl in Hj; lia].
Defined.

(** ** Track marks on every render *)

Lemma writeCells_id (cs : list cell) (h : store) :
  Forall (fun c => (c < length h)%nat) cs ->
  writeCells h cs (_getRawValues h cs) = h.
Proof.
  induction 1 as [|c cs Hc _ IH]; simpl; [reflexivity|].
  assert (E : setValue h c (__getValue h c) = h).
  { unfold setValue, __getValue, number in *. apply list_insert_id.
    destruct (h !! c) as [x|] eqn:Hx; [reflexivity|].
    apply lookup_ge_None in Hx. lia. }
  rewrite E. exact IH.
Qed.

(** X15: [getDerivedStateFromProps] is stable and leaves the thumbs
    alone.  On a state whose cells are distinct and allocated, the call
    changes no thumb value; when it returns a patch, the patched cells
    hold the normalised track marks, the handles are kept when their
    number is unchanged, and calling it again on the patched state
    changes nothing. *)
Theorem derived_state_is_stable (p : SliderProps) (st : SliderState) (h : store) :
  NoDup (trackMarksValues st ++ values st) ->
  Forall (fun c => (c < length h)%nat) (trackMarksValues st ++ values st) ->
  let r := getDerivedStateFromProps p st h in
  _getRawValues (fst r) (values st) = _getRawValues h (values st) /\
  match snd r with
  | Some ms =>
      _getRawValues (fst r) ms = normalizeValue p (trackMarks p) /\
      (length (normalizeValue p (trackMarks p)) = length (trackMarksValues st) ->
       ms = trackMarksValues st) /\
      getDerivedStateFromProps p (patchTrackMarks st ms) (fst r) = r
  | None => fst r = h
  end.
Proof.
  intros Hnd Hv r. subst r. unfold getDerivedStateFromProps.
  apply NoDup_app in Hnd as (Hndm & Hdisj & _).
  apply Forall_app in Hv as [Hvm Hvv].
  destruct (truthyRaw (trackMarks p)) eqn:Ht; simpl; [|auto].
  destruct (Nat.ltb 0 (length (trackMarksValues st))) eqn:Hl; simpl; [|auto].
  set (ns := normalizeValue p (trackMarks p)).
  destruct (reconcile_fresh h (trackMarksValues st) ns Hndm Hvm)
    as (_ & Hv1 & Hraw & _ & Hframe & _ & Hsame).
  destruct (reconcile h (trackMarksValues st) ns) as [h1 ms]. simpl in *.
  split.
  - unfold _getRawValues. apply map_ext_in. intros c Hc.
    apply list_elem_of_In in Hc. unfold __getValue. rewrite Hframe; [reflexivity| |].
    + rewrite Forall_forall in Hvv. apply Hvv, Hc.
    + intros Hm. exact (Hdisj c Hm Hc).
  - split; [exact Hraw|]. split; [exact Hsame|].
    assert (Hlen : length ns = length ms).
    { rewrite <- Hraw. unfold _getRawValues. apply length_map. }
    assert (Hpos : Nat.ltb 0 (length ms) = true).
    { apply Nat.ltb_lt. rewrite <- Hlen.
      pose proof (normalizeValue_nonempty p (trackMarks p)) as Hne. fold ns in Hne.
      destruct ns; [congruence|simpl; lia]. }
    rewrite Hpos, (reconcile_same_length h1 ms ns Hlen).
    rewrite <- Hraw at 1. rewrite (writeCells_id ms h1 Hv1). reflexivity.
Qed.

Lemma derived_state_is_stable_witness :
  _getRawValues (fst (getDerivedStateFromProps (props (snd range0))
                        (state (snd range0)) (fst range0)))
                (values (state (snd range0)))
  = _getRawValues (fst range0) (values (state (snd range0))).
Proof.
  apply (derived_state_is_stable (props (snd range0)) (state (snd range0)) (fst range0)).
  - exact (NoDup_seq 0 4).
  - repeat constructor.
Defined.

(** ** The order of a sorted array *)

(** The comparator [(a, b) => a - b] is positive exactly when [b < a]:
    the sign of a rounded difference is the sign of the exact one. *)

Section Subtraction.
Local Open Scope Z_scope.

Lemma binary_round_nonzero (s : bool) (m : positive) (ez : Z) :
  -1074 <= ez -> binary_round prec emax s m ez <> S754_zero s.
Proof.
  intros Hez.
  destruct (binary_round_spec s m ez) as (mr & Hb & _ & Hr). cbn zeta in *.
  set (ec := fexp prec emax (Z.pos (digits2_pos m) + ez)) in *.
  pose proof (digits2_pos_bounds m) as [Hmlo _].
  assert (Hec : -1074 <= ec) by (subst ec; rewrite fexp_eq; lia).
  assert (Hm1 : 0 < Z.pos m * 2 ^ (ez - Z.min ez ec) / 2 ^ (ec - Z.min ez ec)).
  { destruct (Z.le_gt_cases ec ez) as [E|E].
    - replace (Z.min ez ec) with ec by lia.
      rewrite Z.sub_diag, Z.pow_0_r, Z.div_1_r.
      assert (0 < 2 ^ (ez - ec)) by (apply Z.pow_pos_nonneg; lia). nia.
    - replace (Z.min ez ec) with ez by lia.
      rewrite Z.sub_diag, Z.pow_0_r, Z.mul_1_r.
      assert (Hn : ec - ez = Z.pos (digits2_pos m) - 53).
      { subst ec. rewrite !fexp_eq in *. lia. }
      pose proof (div_pow_lower m (ec - ez) ltac:(lia)) as Hlow.
      assert (0 < 2 ^ (Z.pos (digits2_pos m) - 1 - (ec - ez)))
        by (apply Z.pow_pos_nonneg; lia).
      lia. }
  destruct mr as [|pr|pr]; [lia| |lia].
  simpl Zdigits2 in Hr.
  set (e2 := ec + Z.max (fexp prec emax (Z.pos (digits2_pos pr) + ec) - ec) 0) in *.
  assert (Hm2 : 0 < Z.pos pr / 2 ^ (e2 - ec)).
  { destruct (Z.eq_dec e2 ec) as [E|E].
    - rewrite E, Z.sub_diag, Z.pow_0_r, Z.div_1_r. lia.
    - assert (Hn : e2 - ec = Z.pos (digits2_pos pr) - 53).
      { subst e2. rewrite !fexp_eq in *. lia. }
      pose proof (div_pow_lower pr (e2 - ec) ltac:(lia)) as Hlow.
      assert (0 < 2 ^ (Z.pos (digits2_pos pr) - 1 - (e2 - ec)))
        by (apply Z.pow_pos_nonneg; lia).
      lia. }
  rewrite Hr.
  destruct (Z.pos pr / 2 ^ (e2 - ec)) as [|p2|p2]; [lia| |lia].
  destruct (e2 <=? 971); discriminate.
Qed.

Lemma canonical_exponent_strict (m1 m2 : positive) (e1 e2 : Z) :
  bounded prec emax m1 e1 = true -> bounded prec emax m2 e2 = true ->
  e1 < e2 -> Z.pos m1 < Z.pos m2 * 2 ^ (e2 - e1).
Proof.
  intros H1 H2 Hlt. apply bounded_spec in H1 as [H1 _], H2 as [H2 _].
  rewrite fexp_eq in H1, H2.
  pose proof (digits2_pos_bounds m1) as [_ Hm1].
  pose proof (digits2_pos_bounds m2) as [Hm2 _].
  assert (Hd1 : Z.pos (digits2_pos m1) <= 53) by lia.
  assert (Hd2 : Z.pos (digits2_pos m2) = 53) by lia.
  rewrite Hd2 in Hm2.
  assert (2 ^ Z.pos (digits2_pos m1) <= 2 ^ 53) by (apply Z.pow_le_mono_r; lia).
  assert (2 ^ 1 <= 2 ^ (e2 - e1)) by (apply Z.pow_le_mono_r; lia).
  change (2 ^ (53 - 1)) with 4503599627370496 in Hm2.
  change (2 ^ 53) with 9007199254740992 in *.
  change (2 ^ 1) with 2 in *. nia.
Qed.

(** Comparing two finite numbers is comparing their mantissas once both
    are brought to the smaller exponent. *)
Lemma SFcompare_aligned (sa sb : bool) (ma mb : positive) (ea eb : Z) :
  bounded prec emax ma ea = true -> bounded prec emax mb eb = true ->
  let ez := Z.min ea eb in
  SFcompare (S754_finite sa ma ea) (S754_finite sb mb eb)
  = Some (cond_Zopp sa (Z.pos ma * 2 ^ (ea - ez))
          ?= cond_Zopp sb (Z.pos mb * 2 ^ (eb - ez))).
Proof.
  intros Ha Hb ez.
  set (A := Z.pos ma * 2 ^ (ea - ez)). set (B := Z.pos mb * 2 ^ (eb - ez)).
  assert (HA : 0 < A).
  { subst A. assert (0 < 2 ^ (ea - ez)) by (apply Z.pow_pos_nonneg; subst ez; lia). nia. }
  assert (HB : 0 < B).
  { subst B. assert (0 < 2 ^ (eb - ez)) by (apply Z.pow_pos_nonneg; subst ez; lia). nia. }
  assert (Hcmp : (ea < eb -> A < B) /\ (eb < ea -> B < A) /\
                 (ea = eb -> A = Z.pos ma /\ B = Z.pos mb)).
  { split; [|split].
    - intros E. pose proof (canonical_exponent_strict ma mb ea eb Ha Hb E).
      subst A B. replace ez with ea by (subst ez; lia).
      rewrite Z.sub_diag, Z.pow_0_r. lia.
    - intros E. pose proof (canonical_exponent_strict mb ma eb ea Hb Ha E).
      subst A B. replace ez with eb by (subst ez; lia).
      rewrite Z.sub_diag, Z.pow_0_r. lia.
    - intros E. subst A B. replace ez with ea by (subst ez; lia). subst eb.
      rewrite Z.sub_diag, Z.pow_0_r. lia. }
  destruct Hcmp as (Hlt & Hgt & Heq).
  destruct sa, sb; simpl.
  - change (Pos.compare_cont Eq ma mb) with (ma ?= mb)%positive.
    destruct (Z.compare_spec ea eb) as [E|E|E]; f_equal; symmetry.
    + destruct (Heq E) as [-> ->]. simpl.
      rewrite Pos.compare_antisym. reflexivity.
    + apply Z.compare_gt_iff. specialize (Hlt E). lia.
    + apply Z.compare_lt_iff. specialize (Hgt E). lia.
  - f_equal. symmetry. apply Z.compare_lt_iff. lia.
  - f_equal. symmetry. apply Z.compare_gt_iff. lia.
  - change (Pos.compare_cont Eq ma mb) with (ma ?= mb)%positive.
    destruct (Z.compare_spec ea eb) as [E|E|E]; f_equal; symmetry.
    + destruct (Heq E) as [-> ->]. reflexivity.
    + apply Z.compare_lt_iff. specialize (Hlt E). lia.
    + apply Z.compare_gt_iff. specialize (Hgt E). lia.
Qed.

Lemma bounded_emin (m : positive) (e : Z) :
  bounded prec emax m e = true -> -1074 <= e.
Proof. intros H. apply bounded_spec in H as [H _]. rewrite fexp_eq in H. lia. Qed.

Lemma SFsub_pos (a b : spec_float) :
  valid_binary a = true -> valid_binary b = true ->
  finite_or_zero a = true -> finite_or_zero b = true ->
  SFltb a b = true -> SFltb (S754_zero false) (SF64sub b a) = true.
Proof.
  intros Ha Hb Hfa Hfb Hlt. unfold SFltb in Hlt.
  destruct a as [sa| | |sa ma ea]; try discriminate;
    destruct b as [sb| | |sb mb eb]; try discriminate.
  - destruct sb; [discriminate|reflexivity].
  - destruct sa; [reflexivity|discriminate].
  - simpl in Ha, Hb.
    rewrite (SFcompare_aligned sa sb ma mb ea eb Ha Hb) in Hlt. cbn zeta in Hlt.
    unfold SF64sub, SFsub. rewrite (Z.min_comm eb ea).
    set (ez := Z.min ea eb) in *.
    rewrite !fst_shl_align by (subst ez; lia).
    set (A := cond_Zopp sa (Z.pos ma * 2 ^ (ea - ez))) in *.
    set (B := cond_Zopp sb (Z.pos mb * 2 ^ (eb - ez))) in *.
    assert (Hord : A < B).
    { unfold Z.lt. destruct (A ?= B); simpl in Hlt; congruence. }
    destruct (B - A) as [|p|p] eqn:E; [lia| |lia].
    simpl binary_normalize.
    pose proof (binary_round_nonzero false p ez) as Hnz.
    pose proof (bounded_emin _ _ Ha). pose proof (bounded_emin _ _ Hb).
    destruct (binary_round_cases false p ez) as [Hz|[->|(m2 & e2 & ->)]];
      [|reflexivity|reflexivity].
    exfalso. apply Hnz; [subst ez; lia|exact Hz].
Qed.

Lemma SFsub_not_pos (a b : spec_float) :
  valid_binary a = true -> valid_binary b = true ->
  finite_or_zero a = true -> finite_or_zero b = true ->
  SFleb a b = true -> SFltb (S754_zero false) (SF64sub a b) = false.
Proof.
  intros Ha Hb Hfa Hfb Hle. unfold SFleb in Hle.
  destruct a as [sa| | |sa ma ea]; try discriminate;
    destruct b as [sb| | |sb mb eb]; try discriminate.
  - destruct sa, sb; reflexivity.
  - destruct sb; [discriminate|reflexivity].
  - destruct sa; [reflexivity|discriminate].
  - simpl in Ha, Hb.
    rewrite (SFcompare_aligned sa sb ma mb ea eb Ha Hb) in Hle. cbn zeta in Hle.
    unfold SF64sub, SFsub.
    set (ez := Z.min ea eb) in *.
    rewrite !fst_shl_align by (subst ez; lia).
    set (A := cond_Zopp sa (Z.pos ma * 2 ^ (ea - ez))) in *.
    set (B := cond_Zopp sb (Z.pos mb * 2 ^ (eb - ez))) in *.
    assert (Hord : A <= B).
    { unfold Z.le. destruct (A ?= B); simpl in Hle; congruence. }
    destruct (A - B) as [|p|p] eqn:E; [reflexivity|lia|].
    simpl binary_normalize.
    destruct (binary_round_cases true p ez) as [->|[->|(m2 & e2 & ->)]];
      reflexivity.
Qed.

End Subtraction.

(** *** The same facts on numbers *)

Lemma sub_pos_of_lt (a b : number) : (a <? b) = true -> (0 <? b - a) = true.
Proof.
  intros H. rewrite FloatAxioms.ltb_spec, sub_spec.
  replace (Prim2SF 0) with (S754_zero false) by reflexivity.
  rewrite FloatAxioms.ltb_spec in H.
  pose proof (Prim2SF_valid a) as Va. pose proof (Prim2SF_valid b) as Vb.
  destruct (finite_or_zero (Prim2SF a)) eqn:Fa, (finite_or_zero (Prim2SF b)) eqn:Fb.
  - apply SFsub_pos; auto.
  - destruct (Prim2SF a) as [|[]| |[]], (Prim2SF b) as [|[]| |[]];
      simpl in *; reflexivity || discriminate.
  - destruct (Prim2SF a) as [|[]| |[]], (Prim2SF b) as [|[]| |[]];
      simpl in *; reflexivity || discriminate.
  - destruct (Prim2SF a) as [|[]| |[]], (Prim2SF b) as [|[]| |[]];
      simpl in *; reflexivity || discriminate.
Qed.

Lemma sub_not_pos_of_le (a b : number) : (a <=? b) = true -> (0 <? a - b) = false.
Proof.
  intros H. rewrite FloatAxioms.ltb_spec, sub_spec.
  replace (Prim2SF 0) with (S754_zero false) by reflexivity.
  rewrite FloatAxioms.leb_spec in H.
  pose proof (Prim2SF_valid a) as Va. pose proof (Prim2SF_valid b) as Vb.
  destruct (finite_or_zero (Prim2SF a)) eqn:Fa, (finite_or_zero (Prim2SF b)) eqn:Fb.
  - apply SFsub_not_pos; auto.
  - destruct (Prim2SF a) as [|[]| |[]], (Prim2SF b) as [|[]| |[]];
      simpl in *; reflexivity || discriminate.
  - destruct (Prim2SF a) as [|[]| |[]], (Prim2SF b) as [|[]| |[]];
      simpl in *; reflexivity || discriminate.
  - destruct (Prim2SF a) as [|[]| |[]], (Prim2SF b) as [|[]| |[]];
      simpl in *; reflexivity || discriminate.
Qed.

Lemma sort_insert_ascending (x : number) (l : list number) :
  is_nan x = false -> Forall (fun y => is_nan y = false) l -> ascending l ->
  ascending (sort_insert (fun a b => a - b) x l).
Proof.
  intros Hx Hl. induction Hl as [|y l Hy Hl IH]; simpl.
  - intros _. split; [constructor|exact I].
  - intros [Hall Hs]. destruct (0 <? x - y) eqn:E; simpl.
    + assert (Hyx : (y <=? x) = true).
      { apply not_ltb_leb; [exact Hy|exact Hx|].
        destruct (x <? y) eqn:E'; [|reflexivity].
        rewrite (sub_not_pos_of_le x y (ltb_leb _ _ E')) in E. discriminate. }
      split; [|apply IH, Hs].
      apply sort_insert_Forall; assumption.
    + assert (Hxy : (x <=? y) = true).
      { apply not_ltb_leb; [exact Hx|exact Hy|].
        destruct (y <? x) eqn:E'; [|reflexivity].
        rewrite (sub_pos_of_lt y x E') in E. discriminate. }
      split; [|split; assumption].
      constructor; [exact Hxy|].
      eapply Forall_impl; [exact Hall|]. intros z Hz. simpl in *.
      eapply leb_trans; eassumption.
Qed.

Lemma Array_sort_ascending (l : list number) :
  Forall (fun y => is_nan y = false) l ->
  ascending (Array_sort (fun a b => a - b) l).
Proof.
  induction 1 as [|x l Hx Hl IH]; simpl; [exact I|].
  apply sort_insert_ascending; [exact Hx| |exact IH].
  apply Array_sort_Forall, Hl.
Qed.

Lemma sort_insert_Permutation (f : number -> number -> number) (x : number)
    (l : list number) :
  sort_insert f x l ≡ₚ x :: l.
Proof.
  induction l as [|y l IH]; simpl; [reflexivity|].
  destruct (0 <? f x y); [|reflexivity].
  rewrite IH. apply Permutation_swap.
Qed.

Lemma Array_sort_Permutation (f : number -> number -> number) (l : list number) :
  Array_sort f l ≡ₚ l.
Proof.
  induction l as [|x l IH]; simpl; [reflexivity|].
  rewrite sort_insert_Permutation. fold (Array_sort f l). rewrite IH. reflexivity.
Qed.

Lemma getBetweenValue_not_nan (p : SliderProps) (x : number) :
  is_nan (minimumValue p) = false -> is_nan (maximumValue p) = false ->
  is_nan x = false -> is_nan (getBetweenValue p x) = false.
Proof.
  intros Hlo Hhi Hx. unfold getBetweenValue.
  pose proof (Math_min_not_nan _ _ Hx Hhi) as Hm.
  destruct (Math_max_cases _ _ Hm Hlo) as [[-> _]|[-> _]]; assumption.
Qed.

(** X16: without [dualSlider], normalisation sorts.  For bounds and
    inputs that are numbers, the result is in ascending order, and for a
    non-empty array it is a rearrangement of the clamped inputs: the
    comparator [a - b] agrees with [<] on every pair of numbers, the
    infinities included, because a difference of two distinct numbers is
    never rounded to zero. *)
Theorem normalizeValue_single_sorted (p : SliderProps) (v : RawValue) :
  dualSlider p = false ->
  is_nan (minimumValue p) = false -> is_nan (maximumValue p) = false ->
  noNaN v = true ->
  ascending (normalizeValue p v) /\
  match v with
  | Sequence (x :: l) => normalizeValue p v ≡ₚ map (getBetweenValue p) (x :: l)
  | _ => True
  end.
Proof.
  intros Hd Hlo Hhi Hnn. unfold normalizeValue. rewrite Hd.
  destruct v as [|x|l]; simpl.
  - split; [|exact I]. split; [constructor|exact I].
  - split; [|exact I]. destruct (negb (truthy x)); (split; [constructor|exact I]).
  - destruct l as [|x l]; simpl Nat.eqb; cbv iota.
    + split; [|exact I]. split; [constructor|exact I].
    + split; [|apply Array_sort_Permutation].
      apply Array_sort_ascending. simpl in Hnn.
      apply Forall_fmap, Forall_forall. intros y Hy. simpl.
      apply getBetweenValue_not_nan; try assumption.
      apply andb_true_iff in Hnn as [Hn1 Hnn].
      apply elem_of_cons in Hy as [->|Hy]; [apply negb_true_iff, Hn1|].
      rewrite forallb_forall in Hnn. apply negb_true_iff, Hnn, list_elem_of_In, Hy.
Qed.

Lemma normalizeValue_single_sorted_witness :
  ascending (normalizeValue (withProps defaultProps 0 100 0 Absent false true)
                            (Sequence [70; 150; 20])).
Proof.
  apply (normalizeValue_single_sorted
           (withProps defaultProps 0 100 0 Absent false true)
           (Sequence [70; 150; 20])); reflexivity.
Defined.
